(** * Competitor scanner: the extraction and normalisation pipeline

    A shallow embedding of [src/competitor_scanner.js] (class
    [CompetitorAnalyzer]) and the properties its specification states
    about it.

    JavaScript strings are sequences of UTF-16 code units; they are
    modelled as lists of code units, so [length] is the JavaScript
    [.length] and [substring] cuts between code units as JavaScript
    does.  The browser (puppeteer) is modelled by what each awaited call
    returns or throws. *)

From Stdlib Require Import List NArith ZArith Arith Bool Lia.
From Stdlib Require String Ascii.
From Stdlib Require Import Sorted Permutation.
From Stdlib Require Import DecimalNat.
Import String.StringSyntax.
Delimit Scope string_scope with string.
Import ListNotations.

Set Implicit Arguments.

(* ================================================================= *)
(** * Part I: definitions *)
(* ================================================================= *)

(** ** Strings *)

Definition codeUnit := N.
Definition jsstring := list codeUnit.

(** A string literal of the source, one code unit per character (the
    literals of the source are ASCII). *)
Definition js (s : String.string) : jsstring :=
  map Ascii.N_of_ascii (String.list_ascii_of_string s).

Arguments js s%_string.

Fixpoint streq (a b : jsstring) : bool :=
  match a, b with
  | [], [] => true
  | x :: a', y :: b' => (x =? y)%N && streq a' b'
  | _, _ => false
  end.

(** [String.prototype.substring(start, end)]: both indices are clamped
    to the length and swapped when out of order. *)
Definition substring (start end_ : nat) (s : jsstring) : jsstring :=
  let a := Nat.min start (length s) in
  let b := Nat.min end_ (length s) in
  firstn (Nat.max a b - Nat.min a b) (skipn (Nat.min a b) s).

(** WhiteSpace and LineTerminator code points of ECMAScript: the set
    [String.prototype.trim] strips and the regular expression class
    [\s] matches. *)
Definition isWhiteSpace (c : codeUnit) : bool :=
  ((9 <=? c) && (c <=? 13) || (c =? 32) || (c =? 160) || (c =? 5760)
   || (8192 <=? c) && (c <=? 8202) || (c =? 8232) || (c =? 8233)
   || (c =? 8239) || (c =? 8287) || (c =? 12288) || (c =? 65279))%N.

Fixpoint trimStart (s : jsstring) : jsstring :=
  match s with
  | [] => []
  | c :: s' => if isWhiteSpace c then trimStart s' else s
  end.

Definition trimEnd (s : jsstring) : jsstring := rev (trimStart (rev s)).

(** [String.prototype.trim] *)
Definition trim (s : jsstring) : jsstring := trimEnd (trimStart s).

(** [String.prototype.split(sep)] for a separator of one code unit. *)
Fixpoint split (sep : codeUnit) (s : jsstring) : list jsstring :=
  match s with
  | [] => [[]]
  | c :: s' =>
      if (c =? sep)%N then [] :: split sep s'
      else match split sep s' with
           | line :: lines => (c :: line) :: lines
           | [] => [[c]]
           end
  end.

(** Truthiness of a string: the empty string is the only falsy one. *)
Definition truthy (s : jsstring) : bool :=
  match s with [] => false | _ :: _ => true end.

Definition newline : codeUnit := 10%N.

(** Template-literal conversion of a non-negative integer:
    its decimal digits. *)
Fixpoint digitsOfUint (d : Decimal.uint) : jsstring :=
  match d with
  | Decimal.Nil => []
  | Decimal.D0 d' => 48%N :: digitsOfUint d'
  | Decimal.D1 d' => 49%N :: digitsOfUint d'
  | Decimal.D2 d' => 50%N :: digitsOfUint d'
  | Decimal.D3 d' => 51%N :: digitsOfUint d'
  | Decimal.D4 d' => 52%N :: digitsOfUint d'
  | Decimal.D5 d' => 53%N :: digitsOfUint d'
  | Decimal.D6 d' => 54%N :: digitsOfUint d'
  | Decimal.D7 d' => 55%N :: digitsOfUint d'
  | Decimal.D8 d' => 56%N :: digitsOfUint d'
  | Decimal.D9 d' => 57%N :: digitsOfUint d'
  end.

Definition numberToString (n : nat) : jsstring := digitsOfUint (Nat.to_uint n).

(** ** Regular expressions

    The fragment of ECMAScript patterns the source uses: literal
    characters, the classes [\d] and [\s], the assertion [\b],
    sequence, alternation and greedy quantifiers over one-character
    atoms. *)

Inductive atom : Type :=
| AChar (c : codeUnit)
| ADigit
| ASpace.

Inductive regex : Type :=
| REmpty
| RAtom (a : atom)
| RBoundary
| RSeq (r1 r2 : regex)
| RAlt (r1 r2 : regex)
| RQuant (a : atom) (lo : nat) (hi : option nat).

Record RegExp : Type := { pattern : regex; ignoreCase : bool }.

Definition isDigit (c : codeUnit) : bool := ((48 <=? c) && (c <=? 57))%N.

(** [\w]: without the [u] flag the word characters are
    [A-Za-z0-9_], also under [i]. *)
Definition isWordChar (c : codeUnit) : bool :=
  (isDigit c || (65 <=? c) && (c <=? 90) || (c =? 95)
   || (97 <=? c) && (c <=? 122))%N.

(** Canonicalize of the [i] flag without [u].  The patterns of the
    source hold ASCII characters only, and ECMAScript never
    canonicalizes a code unit of 128 or more to one below 128, so it is
    enough to fold the ASCII letters. *)
Definition canonicalize (c : codeUnit) : codeUnit :=
  if ((97 <=? c) && (c <=? 122))%N then (c - 32)%N else c.

Definition atomMatches (ic : bool) (a : atom) (c : codeUnit) : bool :=
  match a with
  | AChar p => if ic then (canonicalize p =? canonicalize c)%N else (p =? c)%N
  | ADigit => isDigit c
  | ASpace => isWhiteSpace c
  end.

Fixpoint countWhile (p : codeUnit -> bool) (s : jsstring) : nat :=
  match s with
  | [] => 0
  | c :: s' => if p c then S (countWhile p s') else 0
  end.

Section Matcher.

Variable ic : bool.
Variable input : jsstring.

(** IsWordChar(e) of the specification; index [-1] and the index
    one past the end are not word characters. *)
Definition wordCharAt (i : nat) : bool :=
  match nth_error input i with
  | Some c => isWordChar c
  | None => false
  end.

Definition isWordBoundary (i : nat) : bool :=
  xorb (match i with 0 => false | S j => wordCharAt j end) (wordCharAt i).

(** The end indices of the matches of [r] that start at index [i],
    in the order in which the backtracking matcher of ECMAScript
    tries them: the left alternative first, the longest repetition
    first. *)
Fixpoint matcher (r : regex) (i : nat) : list nat :=
  match r with
  | REmpty => [i]
  | RAtom a =>
      match nth_error input i with
      | Some c => if atomMatches ic a c then [S i] else []
      | None => []
      end
  | RBoundary => if isWordBoundary i then [i] else []
  | RSeq r1 r2 => flat_map (matcher r2) (matcher r1 i)
  | RAlt r1 r2 => matcher r1 i ++ matcher r2 i
  | RQuant a lo hi =>
      let avail := countWhile (atomMatches ic a) (skipn i input) in
      let most := match hi with Some h => Nat.min h avail | None => avail end in
      map (fun n => i + n) (rev (seq lo (S most - lo)))
  end.

(** RegExpBuiltinExec without the [g] and [y] flags: the start
    indices are tried from the left. *)
Fixpoint execFrom (r : regex) (starts : list nat) : option (nat * nat) :=
  match starts with
  | [] => None
  | s :: rest =>
      match matcher r s with
      | e :: _ => Some (s, e)
      | [] => execFrom r rest
      end
  end.

End Matcher.

Definition exec (re : RegExp) (s : jsstring) : option (nat * nat) :=
  execFrom (ignoreCase re) s (pattern re) (seq 0 (S (length s))).

(** [s.match(re)] for a regular expression without [g], reduced to
    element 0 of the result (the matched substring), or [None] for
    [null]. *)
Definition stringMatch (s : jsstring) (re : RegExp) : option jsstring :=
  match exec re s with
  | Some (b, e) => Some (substring b e s)
  | None => None
  end.

(** [re.test(s)] *)
Definition test (re : RegExp) (s : jsstring) : bool :=
  match exec re s with Some _ => true | None => false end.

(** *** Pattern builders *)

Definition litChars (chars : jsstring) : regex :=
  fold_right (fun c r => RSeq (RAtom (AChar c)) r) REmpty chars.

Definition lit (s : String.string) : regex := litChars (js s).

Arguments lit s%_string.

Fixpoint alternation (r : regex) (rs : list regex) : regex :=
  match rs with
  | [] => r
  | r' :: rs' => RAlt r (alternation r' rs')
  end.

Definition seqs (rs : list regex) : regex := fold_right RSeq REmpty rs.

Definition monthNames : list String.string :=
  ["January"; "February"; "March"; "April"; "May"; "June"; "July";
   "August"; "September"; "October"; "November"; "December"]%string.

Definition updateKeywords : list String.string :=
  ["new"; "update"; "release"; "feature"; "improvement"; "launch";
   "announce"; "version"; "fix"; "enhancement"]%string.

Definition oneOf (words : list String.string) : regex :=
  match map lit words with
  | [] => REmpty
  | r :: rs => alternation r rs
  end.

Definition digit : atom := ADigit.
Definition comma : atom := AChar 44%N.
Definition slash : atom := AChar 47%N.
Definition hyphen : atom := AChar 45%N.

(** [/\b(January|...|December)\s+\d{1,2},?\s+\d{4}\b/i] *)
Definition longDateRe : RegExp :=
  {| pattern := seqs [RBoundary; oneOf monthNames; RQuant ASpace 1 None;
                      RQuant digit 1 (Some 2); RQuant comma 0 (Some 1);
                      RQuant ASpace 1 None; RQuant digit 4 (Some 4); RBoundary];
     ignoreCase := true |}.

(** [/\b\d{1,2}\/\d{1,2}\/\d{4}\b/] *)
Definition slashDateRe : RegExp :=
  {| pattern := seqs [RBoundary; RQuant digit 1 (Some 2); RAtom slash;
                      RQuant digit 1 (Some 2); RAtom slash;
                      RQuant digit 4 (Some 4); RBoundary];
     ignoreCase := false |}.

(** [/\b\d{4}-\d{2}-\d{2}\b/] *)
Definition isoDateRe : RegExp :=
  {| pattern := seqs [RBoundary; RQuant digit 4 (Some 4); RAtom hyphen;
                      RQuant digit 2 (Some 2); RAtom hyphen;
                      RQuant digit 2 (Some 2); RBoundary];
     ignoreCase := false |}.

(** [/\b(new|update|...|enhancement)\b/i] *)
Definition updateRe : RegExp :=
  {| pattern := seqs [RBoundary; oneOf updateKeywords; RBoundary];
     ignoreCase := true |}.

(** ** The data model *)

(** What the host gives and the model leaves open:
    [String.prototype.toLowerCase] (the Unicode case mapping) and the
    reading of the clock, [new Date().toISOString()], which is taken
    to give the same instant throughout; no property depends on it. *)
Class Host : Type := {
  toLowerCase : jsstring -> jsstring;
  nowISO : jsstring
}.

(** The objects the two extractors push. *)
Module Raw.
Record t : Type := {
  text : jsstring;
  html : option jsstring;
  tagName : jsstring;
  className : jsstring
}.
End Raw.

(** The objects [processContent] pushes. *)
Module Item.
Record t : Type := {
  id : jsstring;
  competitor : jsstring;
  title : jsstring;
  content : jsstring;
  fullContent : jsstring;
  extractedDate : option jsstring;
  isLikelyUpdate : bool;
  contentLength : nat;
  extractedAt : jsstring
}.
End Item.

(** The object [scrapeCompetitor] returns; [error] is absent on
    success. *)
Module Result.
Record t : Type := {
  competitor : jsstring;
  url : jsstring;
  scrapedAt : jsstring;
  error : option jsstring;
  itemCount : nat;
  items : list Item.t
}.
End Result.

(** ** The normalizer *)

Definition noTitle : jsstring := js "No title".
Definition ellipsis : jsstring := js "...".

(** [extractTitle(text)], lines 220-227 *)
Definition extractTitle (text : jsstring) : jsstring :=
  let lines := filter (fun line => truthy (trim line)) (split newline text) in
  match lines with
  | [] => noTitle
  | line0 :: _ =>
      let title := trim line0 in
      if 100 <? length title then substring 0 100 title ++ ellipsis else title
  end.

(** The date token, lines 192-194 and 205: the three [match] calls
    joined by [||], then [dateMatch ? dateMatch[0] : null]. *)
Definition dateMatch (text : jsstring) : option jsstring :=
  match stringMatch text longDateRe with
  | Some m => Some m
  | None =>
      match stringMatch text slashDateRe with
      | Some m => Some m
      | None => stringMatch text isoDateRe
      end
  end.

(** Line 197 *)
Definition isUpdate (text : jsstring) : bool := test updateRe text.

(** [Set.prototype.has] and [Set.prototype.add]; a JavaScript [Set]
    keeps its elements in the order of insertion. *)
Definition setHas (s : list jsstring) (x : jsstring) : bool :=
  existsb (streq x) s.

Definition setAdd (s : list jsstring) (x : jsstring) : list jsstring :=
  if setHas s x then s else s ++ [x].

(** The comparison function of lines 212-217. *)
Definition compareItems (a b : Item.t) : Z :=
  if Item.isLikelyUpdate a && negb (Item.isLikelyUpdate b) then (-1)%Z
  else if negb (Item.isLikelyUpdate a) && Item.isLikelyUpdate b then 1%Z
  else (Z.of_nat (Item.contentLength b) - Z.of_nat (Item.contentLength a))%Z.

(** [Array.prototype.sort(comparefn)], which ECMAScript requires to be
    stable: an element goes in front of the first element it does not
    follow, so equal elements keep their order. *)
Fixpoint insertSorted (A : Type) (comparefn : A -> A -> Z) (x : A) (l : list A)
  : list A :=
  match l with
  | [] => [x]
  | y :: l' =>
      if (comparefn x y <=? 0)%Z then x :: l
      else y :: insertSorted comparefn x l'
  end.

Definition sort (A : Type) (comparefn : A -> A -> Z) (l : list A) : list A :=
  fold_right (insertSorted comparefn) [] l.

(** [Array.prototype.forEach] with the callback's effect on the
    enclosing variables written as a state. *)
Fixpoint forEachFrom (A St : Type) (callback : St -> A -> nat -> St)
  (l : list A) (index : nat) (st : St) : St :=
  match l with
  | [] => st
  | x :: l' => forEachFrom callback l' (S index) (callback st x index)
  end.

Definition forEach (A St : Type) (callback : St -> A -> nat -> St)
  (l : list A) (st : St) : St :=
  forEachFrom callback l 0 st.

Section Normalizer.

Context {host : Host}.

(** The two variables the callback of [processContent] closes over. *)
Record NormState : Type := {
  processed : list Item.t;
  seenTexts : list jsstring
}.

(** The object literal of lines 199-209. *)
Definition makeItem (competitorName : jsstring) (index : nat)
  (text : jsstring) : Item.t :=
  {| Item.id := toLowerCase competitorName ++ js "_" ++ numberToString index;
     Item.competitor := competitorName;
     Item.title := extractTitle text;
     Item.content :=
       substring 0 500 text ++ (if 500 <? length text then ellipsis else []);
     Item.fullContent := text;
     Item.extractedDate := dateMatch text;
     Item.isLikelyUpdate := isUpdate text;
     Item.contentLength := length text;
     Item.extractedAt := nowISO |}.

(** The callback of lines 181-210. *)
Definition processRecord (competitorName : jsstring) (st : NormState)
  (item : Raw.t) (index : nat) : NormState :=
  let text := trim (Raw.text item) in
  if (length text <? 30) || setHas (seenTexts st) (substring 0 100 text)
  then st
  else
    {| processed := processed st ++ [makeItem competitorName index text];
       seenTexts := setAdd (seenTexts st) (substring 0 100 text) |}.

(** The array [processed] when the loop ends, before it is sorted. *)
Definition processedItems (rawContent : list Raw.t)
  (competitorName : jsstring) : list Item.t :=
  processed
    (forEach (processRecord competitorName) rawContent
       {| processed := []; seenTexts := [] |}).

(** [processContent(rawContent, competitorName)], lines 177-218 *)
Definition processContent (rawContent : list Raw.t)
  (competitorName : jsstring) : list Item.t :=
  sort compareItems (processedItems rawContent competitorName).

End Normalizer.

(** ** The browser *)

(** An awaited call returns a value or throws an [Error] with a
    message. *)
Inductive outcome (A : Type) : Type :=
| Returns (a : A)
| Throws (message : jsstring).

Arguments Returns {A} a.
Arguments Throws {A} message.

Definition bind (A B : Type) (c : outcome A) (k : A -> outcome B) : outcome B :=
  match c with
  | Returns a => k a
  | Throws message => Throws message
  end.

Notation "x <- c ;; k" := (bind c (fun x => k))
  (at level 61, c at next level, right associativity).
Notation "c ;;; k" := (bind c (fun _ => k))
  (at level 61, right associativity).

(** The properties of a DOM element the extractors read; [innerText]
    and [innerHTML] are [undefined] on elements that are not HTML
    elements. *)
Module El.
Record t : Type := {
  innerText : option jsstring;
  innerHTML : option jsstring;
  tagName : jsstring;
  className : jsstring
}.
End El.

(** An element handle: [page.evaluate(fn, handle)] reaches the element
    or throws. *)
Definition ElementHandle : Type := outcome El.t.

(** What a page answers to each call the scanner awaits. *)
Module Page.
Record t : Type := {
  setUserAgent : jsstring -> outcome unit;
  goto : jsstring -> N -> outcome unit;
  waitForTimeout : N -> outcome unit;
  queryAll : jsstring -> outcome (list ElementHandle);
  containers : outcome (list El.t);
  close : outcome unit
}.
End Page.

(** [browser.newPage()]: the page the n-th call opens, or its failure. *)
Record Browser : Type := { newPage : nat -> outcome Page.t }.

(** ** The raw extractors *)

(** The function evaluated in the page at lines 134-141. *)
Definition evaluateElement (el : El.t) : Raw.t :=
  {| Raw.text :=
       match El.innerText el with
       | Some t => if truthy (trim t) then trim t else []
       | None => []
       end;
     Raw.html :=
       Some match El.innerHTML el with
            | Some h => if truthy (substring 0 1000 h) then substring 0 1000 h else []
            | None => []
            end;
     Raw.tagName := El.tagName el;
     Raw.className := El.className el |}.

(** The body of the loop of lines 132-149 with its [try]/[catch]. *)
Definition extractStep (content : list Raw.t) (handle : ElementHandle)
  : list Raw.t :=
  match handle with
  | Returns el =>
      let item := evaluateElement el in
      if truthy (Raw.text item) && (20 <? length (Raw.text item))
      then content ++ [item]
      else content
  | Throws _ => content
  end.

(** [extractContentFromElements(page, elements)], lines 129-152 *)
Definition extractContentFromElements (elements : list ElementHandle)
  : list Raw.t :=
  fold_left extractStep (firstn (Nat.min (length elements) 20) elements) [].

(** The callback of [containers.forEach], lines 161-171. *)
Definition generalStep (content : list Raw.t) (container : El.t) : list Raw.t :=
  match El.innerText container with
  | Some t =>
      let text := trim t in
      if truthy text && (50 <? length text)
      then content ++
           [{| Raw.text := substring 0 2000 text;
               Raw.html := option_map (substring 0 1000) (El.innerHTML container);
               Raw.tagName := El.tagName container;
               Raw.className := El.className container |}]
      else content
  | None => content
  end.

(** [extractGeneralContent(page)], lines 154-175 *)
Definition extractGeneralContent (page : Page.t) : outcome (list Raw.t) :=
  cs <- Page.containers page ;;
  Returns (fold_left generalStep cs []).

(** ** Scraping one competitor, and the run *)

Module Target.
Record t : Type := {
  name : jsstring;
  url : jsstring;
  selector : jsstring;
  fallbackSelectors : list jsstring
}.
End Target.

(** The keys of [this.competitors], lines 8-27. *)
Inductive CompetitorKey : Type := braze | iterable | klaviyo.

Definition quote : jsstring := [34%N].

Definition competitors (key : CompetitorKey) : Target.t :=
  match key with
  | braze =>
      {| Target.name := js "Braze";
         Target.url := js "https://www.braze.com/docs/help/release_notes";
         Target.selector :=
           js ".release-note, .changelog-entry, [data-testid=" ++ quote
           ++ js "release-note" ++ quote ++ js "], .content-section";
         Target.fallbackSelectors :=
           [js "article"; js ".markdown-body"; js ".content"; js "main"] |}
  | iterable =>
      {| Target.name := js "Iterable";
         Target.url :=
           js "https://support.iterable.com/hc/en-us/articles/33302033277332-2025-Release-Notes";
         Target.selector := js ".article-body, .article-content, .zendesk-article";
         Target.fallbackSelectors :=
           [js ".article-body"; js "article"; js ".content"; js "main"] |}
  | klaviyo =>
      {| Target.name := js "Klaviyo";
         Target.url := js "https://www.klaviyo.com/whats-new";
         Target.selector := js ".whats-new-item, .update-card, .release-item";
         Target.fallbackSelectors :=
           [js ".card"; js ".update"; js "article"; js ".content"; js "main"] |}
  end.

(** [Object.keys(this.competitors)]: the keys in the order they were
    written. *)
Definition competitorKeys : list CompetitorKey := [braze; iterable; klaviyo].

Definition keyString (key : CompetitorKey) : jsstring :=
  match key with
  | braze => js "braze"
  | iterable => js "iterable"
  | klaviyo => js "klaviyo"
  end.

Definition userAgent : jsstring :=
  js "Mozilla/5.0 (Windows NT 10.0; Win64; x64) AppleWebKit/537.36".

(** The loop over the selectors, lines 79-93: [None] is a [content]
    still [null]; a selector whose query throws is passed over. *)
Fixpoint trySelectors (page : Page.t) (selectors : list jsstring)
  : option (list Raw.t) :=
  match selectors with
  | [] => None
  | selector :: rest =>
      match Page.queryAll page selector with
      | Returns elements =>
          if 0 <? length elements
          then Some (extractContentFromElements elements)
          else trySelectors page rest
      | Throws _ => trySelectors page rest
      end
  end.

Section Scraper.

Context {host : Host}.

(** The [try] block of [scrapeCompetitor], lines 65-112. *)
Definition scrapeBody (page : Page.t) (competitor : Target.t)
  : outcome Result.t :=
  Page.setUserAgent page userAgent ;;;
  Page.goto page (Target.url competitor) 30000%N ;;;
  Page.waitForTimeout page 3000%N ;;;
  content <-
    match trySelectors page
            (Target.selector competitor :: Target.fallbackSelectors competitor)
    with
    | Some (item :: more) => Returns (item :: more)
    | _ => extractGeneralContent page
    end ;;
  let processedContent := processContent content (Target.name competitor) in
  Returns {| Result.competitor := Target.name competitor;
             Result.url := Target.url competitor;
             Result.scrapedAt := nowISO;
             Result.error := None;
             Result.itemCount := length processedContent;
             Result.items := processedContent |}.

(** The object the [catch] block returns, lines 116-123. *)
Definition errorResult (competitor : Target.t) (message : jsstring)
  : Result.t :=
  {| Result.competitor := Target.name competitor;
     Result.url := Target.url competitor;
     Result.scrapedAt := nowISO;
     Result.error := Some message;
     Result.itemCount := 0;
     Result.items := [] |}.

(** [scrapeCompetitor(competitorKey)], lines 58-127.  The page is
    opened before the [try]; the [finally] block closes it after the
    [return] of either block has been evaluated, and a failure there
    replaces the returned value.  [opened] counts the pages opened
    so far. *)
Definition scrapeCompetitor (browser : Browser) (opened : nat)
  (competitorKey : CompetitorKey) : outcome Result.t :=
  let competitor := competitors competitorKey in
  page <- newPage browser opened ;;
  let completion :=
    match scrapeBody page competitor with
    | Returns result => result
    | Throws message => errorResult competitor message
    end in
  Page.close page ;;;
  Returns completion.

(** The loop of [run], lines 359-365: [this.results] and how the
    loop ended. *)
Fixpoint scrapeAll (browser : Browser) (keys : list CompetitorKey)
  (opened : nat) (results : list Result.t) : list Result.t * outcome unit :=
  match keys with
  | [] => (results, Returns tt)
  | key :: keys' =>
      match scrapeCompetitor browser opened key with
      | Returns result =>
          scrapeAll browser keys' (S opened) (results ++ [result])
      | Throws message => (results, Throws message)
      end
  end.

(** [this.results] after [run()], lines 351-385, for a browser that
    launched.  A failure of the loop is caught at line 380 and the
    results pushed so far stay; the reports written from them and
    the closing of the browser are left out. *)
Definition run (browser : Browser) : list Result.t :=
  fst (scrapeAll browser competitorKeys 0 []).

End Scraper.

(** ** The reports *)

(** The objects [saveResults] pushes on [csvData], lines 242-250. *)
Module CsvRow.
Record t : Type := {
  competitor : jsstring;
  title : jsstring;
  extractedDate : jsstring;
  isLikelyUpdate : jsstring;
  contentPreview : jsstring;
  contentLength : nat;
  scrapedAt : jsstring
}.
End CsvRow.

Definition noDateFound : jsstring := js "No date found".

(** [a || b] for a string [a] that may be [null]. *)
Definition orElse (a : option jsstring) (b : jsstring) : jsstring :=
  match a with
  | Some s => if truthy s then s else b
  | None => b
  end.

Definition csvRow (result : Result.t) (item : Item.t) : CsvRow.t :=
  {| CsvRow.competitor := Item.competitor item;
     CsvRow.title := Item.title item;
     CsvRow.extractedDate := orElse (Item.extractedDate item) noDateFound;
     CsvRow.isLikelyUpdate := if Item.isLikelyUpdate item then js "Yes" else js "No";
     CsvRow.contentPreview := Item.content item;
     CsvRow.contentLength := Item.contentLength item;
     CsvRow.scrapedAt := Result.scrapedAt result |}.

(** The callback of the outer [forEach], lines 239-253. *)
Definition csvStep (csvData : list CsvRow.t) (result : Result.t)
  : list CsvRow.t :=
  if 0 <? length (Result.items result)
  then fold_left (fun csv item => csv ++ [csvRow result item])
         (Result.items result) csvData
  else csvData.

(** [csvData] when the loop of lines 239-253 ends. *)
Definition csvData (results : list Result.t) : list CsvRow.t :=
  fold_left csvStep results [].

(** [s.replace(/[:.]/g, '-')], line 230: every colon and every full
    stop becomes a hyphen. *)
Definition replaceColonsAndDots (s : jsstring) : jsstring :=
  map (fun c => if ((c =? 58) || (c =? 46))%N then 45%N else c) s.

(** What [saveResults] hands over to be written: the results for the
    JSON file and for the HTML report, the rows for the CSV file.  The
    text [JSON.stringify] and the HTML template make of the results
    is not modelled. *)
Inductive Artifact : Type :=
| JsonFile (results : list Result.t)
| CsvFile (rows : list CsvRow.t)
| HtmlFile (results : list Result.t).

(** [saveResults()], lines 229-276, with [generateHTMLReport] at its
    end: the artifacts written, in order, and how the call ended.
    [write] is what writing an artifact returns or throws. *)
Definition saveResults (write : Artifact -> outcome unit)
  (results : list Result.t) : list Artifact * outcome unit :=
  match write (JsonFile results) with
  | Throws message => ([], Throws message)
  | Returns _ =>
      let rows := csvData results in
      let afterCsv :=
        if 0 <? length rows
        then match write (CsvFile rows) with
             | Returns _ => ([JsonFile results; CsvFile rows], Returns tt)
             | Throws message => ([JsonFile results], Throws message)
             end
        else ([JsonFile results], Returns tt) in
      match afterCsv with
      | (written, Throws message) => (written, Throws message)
      | (written, Returns _) =>
          match write (HtmlFile results) with
          | Returns _ => (written ++ [HtmlFile results], Returns tt)
          | Throws message => (written, Throws message)
          end
      end
  end.

(** What [run] meets outside the pages: the launch of the browser,
    the writing of the reports and the closing of the browser. *)
Record Runtime : Type := {
  launch : outcome Browser;
  write : Artifact -> outcome unit;
  closeBrowser : outcome unit
}.

(** How a run ends: [this.results], the artifacts written, and
    whether the promise of [run] is fulfilled or rejected. *)
Record RunEnd : Type := {
  finalResults : list Result.t;
  artifacts : list Artifact;
  completion : outcome unit
}.

Section Program.

Context {host : Host}.

(** The token of the file names, line 230. *)
Definition timestampToken : jsstring := replaceColonsAndDots nowISO.

(** [run()], lines 351-385, whole.  [initialize] catches its own
    failure; a browser that does not launch rejects the run before the
    [try]; within the [try] the loop is followed by [saveResults], and
    a failure of either is caught and logged; the [finally] block
    closes the browser, and a failure there rejects the run. *)
Definition runProgram (rt : Runtime) : RunEnd :=
  match launch rt with
  | Throws message =>
      {| finalResults := []; artifacts := []; completion := Throws message |}
  | Returns browser =>
      let (results, loopEnd) := scrapeAll browser competitorKeys 0 [] in
      {| finalResults := results;
         artifacts :=
           match loopEnd with
           | Returns _ => fst (saveResults (write rt) results)
           | Throws _ => []
           end;
         completion := closeBrowser rt |}
  end.

End Program.

(** ** Notions the properties are stated with *)

(** A string that is empty or starts with something else than white
    space. *)
Definition trimmedStart (s : jsstring) : Prop :=
  match s with [] => True | c :: _ => isWhiteSpace c = false end.

(** [Array.prototype.join(sep)], the inverse of [split]. *)
Fixpoint join (sep : codeUnit) (lines : list jsstring) : jsstring :=
  match lines with
  | [] => []
  | [line] => line
  | line :: lines' => line ++ sep :: join sep lines'
  end.

(** The order the comparison function of [processContent] induces:
    [a] may stand in front of [b]. *)
Definition mayPrecede (a b : Item.t) : Prop := (compareItems a b <= 0)%Z.

(** The items with a given flag and content length. *)
Definition hasKey (flag : bool) (len : nat) (item : Item.t) : bool :=
  Bool.eqb flag (Item.isLikelyUpdate item) && (len =? Item.contentLength item).

(** The trimmed text of a record (line 182) and its fingerprint, the
    argument of [seenTexts.has] and [seenTexts.add]. *)
Definition recordText (r : Raw.t) : jsstring := trim (Raw.text r).

Definition fingerprint (text : jsstring) : jsstring := substring 0 100 text.

(** The record at index [i] of the batch is long enough and no record
    in front of it has its fingerprint. *)
Definition emittedAt (rawContent : list Raw.t) (i : nat) (r : Raw.t) : Prop :=
  nth_error rawContent i = Some r
  /\ 30 <= length (recordText r)
  /\ forall j r', j < i -> nth_error rawContent j = Some r' ->
                  fingerprint (recordText r') <> fingerprint (recordText r).

(** What holds of the state of the loop of [processContent] once the
    records [pre] have been visited. *)
Record NormInv {host : Host} (competitorName : jsstring) (pre : list Raw.t)
  (st : NormState) : Prop := {
  inv_items :
    forall item,
      In item (processed st)
      <-> exists i r, emittedAt pre i r
                      /\ item = makeItem competitorName i (recordText r);
  inv_seen :
    forall x,
      In x (seenTexts st)
      <-> exists j r, nth_error pre j = Some r
                      /\ 30 <= length (recordText r)
                      /\ fingerprint (recordText r) = x;
  inv_fingerprints :
    NoDup (map (fun item => fingerprint (Item.fullContent item)) (processed st));
  inv_ids : NoDup (map Item.id (processed st))
}.

(** The matches of a pattern between two indices of the input, stated
    without the order in which the matcher tries them. *)
Inductive Matches (ic : bool) (input : jsstring) : regex -> nat -> nat -> Prop :=
| MEmpty i : Matches ic input REmpty i i
| MAtom a i c :
    nth_error input i = Some c -> atomMatches ic a c = true ->
    Matches ic input (RAtom a) i (S i)
| MBoundary i :
    isWordBoundary input i = true -> Matches ic input RBoundary i i
| MSeq r1 r2 i j k :
    Matches ic input r1 i j -> Matches ic input r2 j k ->
    Matches ic input (RSeq r1 r2) i k
| MAltL r1 r2 i e :
    Matches ic input r1 i e -> Matches ic input (RAlt r1 r2) i e
| MAltR r1 r2 i e :
    Matches ic input r2 i e -> Matches ic input (RAlt r1 r2) i e
| MQuant a lo hi i n :
    lo <= n -> (forall h, hi = Some h -> n <= h) ->
    (forall k, k < n ->
               exists c, nth_error input (i + k) = Some c
                         /\ atomMatches ic a c = true) ->
    Matches ic input (RQuant a lo hi) i (i + n).

(** The regular expression matches the code units of [s] from index
    [b] up to index [e]. *)
Definition occursAt (re : RegExp) (s : jsstring) (b e : nat) : Prop :=
  b <= length s /\ Matches (ignoreCase re) s (pattern re) b e.

(** The date patterns in the order in which line 192-194 tries them. *)
Definition dateFamilies : list RegExp := [longDateRe; slashDateRe; isoDateRe].

(** [c] is the letter [p] or its capital. *)
Definition sameLetter (c p : codeUnit) : Prop := c = p \/ (c + 32)%N = p.

Definition isLowerLetter (c : codeUnit) : bool := ((97 <=? c) && (c <=? 122))%N.

(** The text holds the word [kw], in any mix of cases, with no word
    character right in front of it and none right behind it. *)
Definition wholeWordOccurs (text kw : jsstring) : Prop :=
  exists pre w post,
    text = pre ++ w ++ post
    /\ Forall2 sameLetter w kw
    /\ (forall pre' c, pre = pre' ++ [c] -> isWordChar c = false)
    /\ (forall c post', post = c :: post' -> isWordChar c = false).

Definition containsUpdateWord (text : jsstring) : Prop :=
  exists kw, In kw updateKeywords /\ wholeWordOccurs text (js kw).

(** No word of the list starts, up to letter case, a longer word of the
    list. *)
Definition prefixFree (words : list jsstring) : bool :=
  forallb
    (fun w =>
       forallb
         (fun w' =>
            (length w =? length w')
            || negb (streq
                       (firstn (Nat.min (length w) (length w')) (map canonicalize w))
                       (firstn (Nat.min (length w) (length w')) (map canonicalize w'))))
         words)
    words.

(** The trimmed visible text of an element, the empty string when the
    element has no [innerText]. *)
Definition visibleText (el : El.t) : jsstring :=
  match El.innerText el with
  | Some t => trim t
  | None => []
  end.

(** The records one element handle contributes. *)
Definition recordsOf (handle : ElementHandle) : list Raw.t :=
  match handle with
  | Returns el => if 20 <? length (visibleText el) then [evaluateElement el] else []
  | Throws _ => []
  end.

(** The least number of code units a match of the pattern takes. *)
Fixpoint minLength (r : regex) : nat :=
  match r with
  | REmpty => 0
  | RAtom _ => 1
  | RBoundary => 0
  | RSeq r1 r2 => minLength r1 + minLength r2
  | RAlt r1 r2 => Nat.min (minLength r1) (minLength r2)
  | RQuant _ lo _ => lo
  end.

(** The records one container contributes to the generic extraction. *)
Definition generalRecordsOf (container : El.t) : list Raw.t :=
  generalStep [] container.

(** The object the [try] block of [scrapeCompetitor] returns for the
    processed content, lines 106-112. *)
Definition successResult {host : Host} (competitor : Target.t)
  (processedContent : list Item.t) : Result.t :=
  {| Result.competitor := Target.name competitor;
     Result.url := Target.url competitor;
     Result.scrapedAt := nowISO;
     Result.error := None;
     Result.itemCount := length processedContent;
     Result.items := processedContent |}.

(** The selectors of a competitor in the order in which they are
    tried, line 80. *)
Definition selectorsOf (competitor : Target.t) : list jsstring :=
  Target.selector competitor :: Target.fallbackSelectors competitor.

(** The selector finds nothing on the page: its query throws or
    returns no element. *)
Definition selectorMisses (page : Page.t) (selector : jsstring) : Prop :=
  match Page.queryAll page selector with
  | Returns [] => True
  | Returns (_ :: _) => False
  | Throws _ => True
  end.

(** The record is long enough to be emitted. *)
Definition isLongRecord (r : Raw.t) : bool := 30 <=? length (trim (Raw.text r)).

(** ** Lower case

    What ECMAScript fixes of [String.prototype.toLowerCase] on a
    string of ASCII code units: the capitals [A] to [Z] become the
    small letters, every other code unit stays. *)

Definition asciiToLowerCase (s : jsstring) : jsstring :=
  map (fun c => if ((65 <=? c) && (c <=? 90))%N then (c + 32)%N else c) s.

Definition isAscii (s : jsstring) : bool :=
  forallb (fun c => (c <? 128)%N) s.

(** The host's [toLowerCase] is the language's on ASCII strings. *)
Definition lowerCasesAscii (host : Host) : Prop :=
  forall s : jsstring, isAscii s = true -> toLowerCase s = asciiToLowerCase s.

(** ** A host for closed examples

    [toLowerCase] on ASCII strings, and a fixed clock. *)

Definition asciiHost : Host :=
  {| toLowerCase := asciiToLowerCase;
     nowISO := js "2025-01-15T10:30:00.000Z" |}.

(** ** Closed inputs for the examples *)

Definition rawOf (text : jsstring) : Raw.t :=
  {| Raw.text := text; Raw.html := None;
     Raw.tagName := js "DIV"; Raw.className := [] |}.

Definition releaseNote : jsstring :=
  js "New Feature Release" ++ [newline]
  ++ js "We launched dark mode support today. January 5, 2025".

Definition maintenanceNote : jsstring :=
  js "  Maintenance window: 2025-02-03, moved from January 31, 2025.  ".

(** A record that is too short, a release note, the same note again
    with blanks behind it, and a note that holds no keyword. *)
Definition exampleBatch : list Raw.t :=
  [rawOf (js "too short"); rawOf releaseNote; rawOf (releaseNote ++ js "  ");
   rawOf maintenanceNote].

Definition thirtyChars : jsstring := js "abcdefghijklmnopqrstuvwxyz0123".
Definition twentyNineChars : jsstring := js "abcdefghijklmnopqrstuvwxyz012".

(** A text whose first line reads as the sentinel. *)
Definition sentinelNote : jsstring :=
  js "No title" ++ [newline] ++ js "The body of this entry has no heading.".

Definition elementOf (text : jsstring) : El.t :=
  {| El.innerText := Some text; El.innerHTML := Some (js "<p></p>");
     El.tagName := js "DIV"; El.className := js "release-note" |}.

Definition twentyChars : jsstring := js "abcdefghijklmnopqrst".
Definition twentyOneChars : jsstring := js "abcdefghijklmnopqrstu".

(** A page that loads and holds one release note under every
    selector. *)
Definition healthyPage : Page.t :=
  {| Page.setUserAgent := fun _ => Returns tt;
     Page.goto := fun _ _ => Returns tt;
     Page.waitForTimeout := fun _ => Returns tt;
     Page.queryAll := fun _ => Returns [Returns (elementOf releaseNote)];
     Page.containers := Returns [];
     Page.close := Returns tt |}.

Definition timeoutMessage : jsstring :=
  js "Navigation timeout of 30000 ms exceeded".

(** A page whose navigation times out. *)
Definition timeoutPage : Page.t :=
  {| Page.setUserAgent := fun _ => Returns tt;
     Page.goto := fun _ _ => Throws timeoutMessage;
     Page.waitForTimeout := fun _ => Returns tt;
     Page.queryAll := fun _ => Returns [];
     Page.containers := Returns [];
     Page.close := Returns tt |}.

Definition closedMessage : jsstring :=
  js "Protocol error: Connection closed.".

(** A page of a browser that went away while the page was loading:
    the navigation fails, and so does closing the page. *)
Definition lostPage : Page.t :=
  {| Page.setUserAgent := fun _ => Returns tt;
     Page.goto := fun _ _ => Throws timeoutMessage;
     Page.waitForTimeout := fun _ => Returns tt;
     Page.queryAll := fun _ => Returns [];
     Page.containers := Returns [];
     Page.close := Throws closedMessage |}.

(** The first page times out, the others load. *)
Definition timeoutBrowser : Browser :=
  {| newPage := fun n => match n with
                         | 0 => Returns timeoutPage
                         | _ => Returns healthyPage
                         end |}.

(** The first page is lost, the others would load. *)
Definition lostBrowser : Browser :=
  {| newPage := fun n => match n with
                         | 0 => Returns lostPage
                         | _ => Returns healthyPage
                         end |}.

Definition boundaryBatch : list Raw.t :=
  [rawOf twentyNineChars; rawOf thirtyChars].

Definition releaseItem : Item.t :=
  makeItem (host := asciiHost) (js "Braze") 1 releaseNote.

Definition maintenanceItem : Item.t :=
  makeItem (host := asciiHost) (js "Braze") 3 (trim maintenanceNote).

Definition thirtyItem : Item.t :=
  makeItem (host := asciiHost) (js "Braze") 1 thirtyChars.

Definition sentinelItem : Item.t :=
  makeItem (host := asciiHost) (js "Braze") 0 sentinelNote.

Definition articleText : jsstring :=
  js "Release 4.2 brings a new editor and faster exports to every workspace.".

(** A page on which no selector finds anything and which holds two
    containers, one of them with little text. *)
Definition articlePage : Page.t :=
  {| Page.setUserAgent := fun _ => Returns tt;
     Page.goto := fun _ _ => Returns tt;
     Page.waitForTimeout := fun _ => Returns tt;
     Page.queryAll := fun _ => Returns [];
     Page.containers := Returns [elementOf articleText; elementOf (js "Menu")];
     Page.close := Returns tt |}.

(** A browser whose second page cannot be opened. *)
Definition flakyBrowser : Browser :=
  {| newPage := fun n => match n with
                         | 1 => Throws closedMessage
                         | _ => Returns healthyPage
                         end |}.

(** A file system on which the HTML report cannot be written. *)
Definition noHtmlWrite (artifact : Artifact) : outcome unit :=
  match artifact with
  | HtmlFile _ => Throws (js "EACCES: permission denied")
  | _ => Returns tt
  end.

(** A run on the browser whose second page cannot be opened. *)
Definition flakyRuntime : Runtime :=
  {| launch := Returns flakyBrowser;
     write := fun _ => Returns tt;
     closeBrowser := Returns tt |}.

(** A run in which every page loads and every write succeeds. *)
Definition healthyRuntime : Runtime :=
  {| launch := Returns timeoutBrowser;
     write := fun _ => Returns tt;
     closeBrowser := Returns tt |}.
(* ================================================================= *)
(** * Part II: properties *)
(* ================================================================= *)

(** ** Strings *)

Lemma streq_spec (a b : jsstring) : streq a b = true <-> a = b.
Proof.
  revert b; induction a as [|x a IH]; intros [|y b]; simpl;
    try (split; [discriminate | congruence]); try tauto.
  rewrite andb_true_iff, N.eqb_eq, IH. split.
  - intros [-> ->]; reflexivity.
  - intros E; injection E; auto.
Qed.

Lemma streq_refl (a : jsstring) : streq a a = true.
Proof. apply streq_spec; reflexivity. Qed.

Lemma substring_prefix (n : nat) (s : jsstring) : substring 0 n s = firstn n s.
Proof.
  unfold substring. rewrite Nat.min_0_l, Nat.max_0_l, Nat.min_0_l, Nat.sub_0_r.
  cbn [skipn].
  destruct (Nat.le_ge_cases n (length s)) as [H|H].
  - rewrite Nat.min_l by assumption. reflexivity.
  - rewrite Nat.min_r by assumption.
    rewrite !firstn_all2 by lia. reflexivity.
Qed.

Lemma substring_slice (b e : nat) (s : jsstring) :
  b <= e <= length s -> substring b e s = firstn (e - b) (skipn b s).
Proof.
  intros H. unfold substring.
  rewrite (Nat.min_l b), (Nat.min_l e) by lia.
  rewrite Nat.max_r, Nat.min_l by lia. reflexivity.
Qed.

Lemma In_firstn (A : Type) (n : nat) (l : list A) (x : A) :
  In x (firstn n l) -> In x l.
Proof.
  intros H. rewrite <- (firstn_skipn n l). apply in_or_app. left. assumption.
Qed.

Lemma In_skipn (A : Type) (n : nat) (l : list A) (x : A) :
  In x (skipn n l) -> In x l.
Proof.
  intros H. rewrite <- (firstn_skipn n l). apply in_or_app. right. assumption.
Qed.

Lemma length_substring_prefix (n : nat) (s : jsstring) :
  length (substring 0 n s) = Nat.min n (length s).
Proof. rewrite substring_prefix. apply length_firstn. Qed.

(** *** Trimming *)

Lemma trimStart_trimmedStart (s : jsstring) : trimmedStart (trimStart s).
Proof.
  induction s as [|c s IH]; simpl; [exact I|].
  destruct (isWhiteSpace c) eqn:E; [exact IH | exact E].
Qed.

Lemma trimStart_fixed (s : jsstring) : trimmedStart s -> trimStart s = s.
Proof. destruct s as [|c s]; simpl; [reflexivity|]. intros ->. reflexivity. Qed.

Lemma trimStart_snoc (u : jsstring) (c : codeUnit) :
  isWhiteSpace c = false -> trimStart (u ++ [c]) = trimStart u ++ [c].
Proof.
  intros Hc. induction u as [|x u IH]; simpl.
  - rewrite Hc. reflexivity.
  - destruct (isWhiteSpace x); [exact IH | reflexivity].
Qed.

Lemma trimEnd_cons (c : codeUnit) (t : jsstring) :
  isWhiteSpace c = false -> trimEnd (c :: t) = c :: trimEnd t.
Proof.
  intros Hc. unfold trimEnd. simpl rev.
  rewrite trimStart_snoc by assumption.
  rewrite rev_app_distr. reflexivity.
Qed.

Lemma trimEnd_nil : trimEnd [] = [].
Proof. reflexivity. Qed.

Lemma trimEnd_trimmedStart (t : jsstring) : trimmedStart t -> trimmedStart (trimEnd t).
Proof.
  destruct t as [|c t]; simpl; [intros _; exact I|].
  intros Hc. rewrite trimEnd_cons by assumption. exact Hc.
Qed.

Lemma trimEnd_idem (t : jsstring) : trimEnd (trimEnd t) = trimEnd t.
Proof.
  unfold trimEnd. rewrite rev_involutive.
  rewrite (trimStart_fixed _ (trimStart_trimmedStart (rev t))). reflexivity.
Qed.

Lemma trim_trimmedStart (s : jsstring) : trimmedStart (trim s).
Proof. apply trimEnd_trimmedStart, trimStart_trimmedStart. Qed.

Lemma trim_idem (s : jsstring) : trim (trim s) = trim s.
Proof.
  unfold trim at 1. rewrite (trimStart_fixed _ (trim_trimmedStart s)).
  unfold trim. apply trimEnd_idem.
Qed.

Lemma trimStart_incl (s : jsstring) (c : codeUnit) : In c (trimStart s) -> In c s.
Proof.
  induction s as [|x s IH]; simpl; [tauto|].
  destruct (isWhiteSpace x); simpl; tauto.
Qed.

Lemma trim_incl (s : jsstring) (c : codeUnit) : In c (trim s) -> In c s.
Proof.
  unfold trim, trimEnd. intros H.
  apply in_rev, trimStart_incl in H. rewrite <- in_rev in H.
  apply trimStart_incl; assumption.
Qed.

(** A string whose first and last code units are not white space is
    left alone by [trim]. *)
Lemma trim_fixed (c d : codeUnit) (u : jsstring) :
  isWhiteSpace c = false -> isWhiteSpace d = false ->
  trim (c :: u ++ [d]) = c :: u ++ [d].
Proof.
  intros Hc Hd. unfold trim. simpl trimStart. rewrite Hc.
  rewrite trimEnd_cons by assumption. f_equal.
  unfold trimEnd. rewrite rev_app_distr. simpl. rewrite Hd.
  simpl. rewrite rev_involutive. reflexivity.
Qed.

Lemma trim_fixed_single (c : codeUnit) :
  isWhiteSpace c = false -> trim [c] = [c].
Proof. intros Hc. unfold trim, trimEnd. simpl. rewrite Hc. simpl. rewrite Hc. reflexivity. Qed.

(** The last code unit of a trimmed string is not white space. *)
Lemma trimEnd_last (t u : jsstring) (d : codeUnit) :
  trimEnd t = u ++ [d] -> isWhiteSpace d = false.
Proof.
  unfold trimEnd. intros H.
  apply (f_equal (@rev codeUnit)) in H.
  rewrite rev_involutive, rev_app_distr in H. simpl in H.
  pose proof (trimStart_trimmedStart (rev t)) as T. rewrite H in T. exact T.
Qed.

Lemma trim_last (s u : jsstring) (d : codeUnit) :
  trim s = u ++ [d] -> isWhiteSpace d = false.
Proof. unfold trim. apply trimEnd_last. Qed.

(** *** Lines *)

Lemma split_not_nil (sep : codeUnit) (s : jsstring) : split sep s <> [].
Proof.
  destruct s as [|c s]; simpl; [discriminate|].
  destruct (c =? sep)%N; [discriminate|].
  destruct (split sep s); discriminate.
Qed.

Lemma join_split (sep : codeUnit) (s : jsstring) : join sep (split sep s) = s.
Proof.
  induction s as [|c s IH]; [reflexivity|].
  simpl split. destruct (N.eqb_spec c sep) as [->|Hne].
  - pose proof (split_not_nil sep s) as Hn.
    destruct (split sep s) as [|l ls]; [congruence|].
    simpl in *. rewrite IH. reflexivity.
  - pose proof (split_not_nil sep s) as Hn.
    destruct (split sep s) as [|l ls]; [congruence|].
    destruct ls as [|l' ls]; simpl in *; rewrite <- IH; reflexivity.
Qed.

Lemma split_lines_no_sep (sep : codeUnit) (s line : jsstring) :
  In line (split sep s) -> ~ In sep line.
Proof.
  revert line. induction s as [|c s IH]; intros line; simpl.
  - intros [<-|[]]. simpl. tauto.
  - destruct (N.eqb_spec c sep) as [->|Hne].
    + intros [<-|H]; [simpl; tauto | apply IH; assumption].
    + pose proof (split_not_nil sep s) as Hn.
      destruct (split sep s) as [|l ls]; [congruence|].
      intros [<-|H].
      * simpl. intros [E|E]; [congruence|]. apply (IH l); [left; reflexivity | assumption].
      * apply IH. right. assumption.
Qed.

Lemma split_no_sep (sep : codeUnit) (s : jsstring) :
  ~ In sep s -> split sep s = [s].
Proof.
  induction s as [|c s IH]; [reflexivity|].
  intros H. simpl in H. simpl.
  destruct (N.eqb_spec c sep) as [->|Hne]; [tauto|].
  rewrite IH by tauto. reflexivity.
Qed.

(** ** Title derivation *)

Lemma truthy_true (s : jsstring) : truthy s = true <-> s <> [].
Proof. destruct s; simpl; split; congruence. Qed.

Lemma truthy_false (s : jsstring) : truthy s = false <-> s = [].
Proof. destruct s; simpl; split; congruence. Qed.

(** The lines kept by the filter of line 221 start with the first line
    that is not blank. *)
Lemma filter_nonblank_first (blanks rest : list jsstring) (line : jsstring) :
  (forall b, In b blanks -> trim b = []) ->
  trim line <> [] ->
  filter (fun l => truthy (trim l)) (blanks ++ line :: rest)
  = line :: filter (fun l => truthy (trim l)) rest.
Proof.
  intros Hb Hl. induction blanks as [|b blanks IH]; simpl.
  - apply truthy_true in Hl. rewrite Hl. reflexivity.
  - rewrite (Hb b (or_introl eq_refl)). simpl.
    apply IH. intros b' Hb'. apply Hb. right. assumption.
Qed.

Lemma filter_nonblank_none (lines : list jsstring) :
  (forall l, In l lines -> trim l = []) ->
  filter (fun l => truthy (trim l)) lines = [].
Proof.
  induction lines as [|l lines IH]; intros H; simpl; [reflexivity|].
  rewrite (H l (or_introl eq_refl)). simpl.
  apply IH. intros l' Hl'. apply H. right. assumption.
Qed.

(** The title of a text that is a single trimmed line. *)
Lemma extractTitle_trimmed_line (t : jsstring) :
  t <> [] -> trim t = t -> ~ In newline t ->
  extractTitle t
  = if 100 <? length t then substring 0 100 t ++ ellipsis else t.
Proof.
  intros Hne Ht Hnl. unfold extractTitle.
  rewrite split_no_sep by assumption. simpl filter. rewrite Ht.
  apply truthy_true in Hne. rewrite Hne. cbv beta iota zeta.
  rewrite !Ht. reflexivity.
Qed.

Lemma ellipsis_value : ellipsis = [46; 46; 46]%N.
Proof. reflexivity. Qed.

(** Deriving a title from a derived title changes nothing, whatever
    its length. *)
Lemma extractTitle_idempotent (text : jsstring) :
  extractTitle (extractTitle text) = extractTitle text.
Proof.
  unfold extractTitle at 2 3.
  destruct (filter (fun line => truthy (trim line)) (split newline text))
    as [|line0 lines] eqn:F.
  - vm_compute. reflexivity.
  - assert (Hin : In line0 (filter (fun line => truthy (trim line)) (split newline text)))
      by (rewrite F; left; reflexivity).
    apply filter_In in Hin. destruct Hin as [Hsplit Htruthy].
    apply truthy_true in Htruthy.
    assert (Hnl : ~ In newline (trim line0)).
    { intros H. apply trim_incl in H. revert H. apply split_lines_no_sep with (s := text).
      assumption. }
    cbv zeta.
    destruct (Nat.ltb_spec 100 (length (trim line0))) as [Hlong|Hshort].
    + (* truncated: 100 code units and the ellipsis *)
      pose proof (trim_trimmedStart line0) as Hhead.
      rewrite substring_prefix.
      destruct (trim line0) as [|c u] eqn:Et; [congruence|].
      simpl in Hhead.
      set (r := firstn 100 (c :: u) ++ ellipsis).
      assert (Hlen : length r = 103).
      { unfold r. rewrite length_app, length_firstn, ellipsis_value.
        simpl length in *. lia. }
      assert (Hr : r = c :: (firstn 99 u ++ [46; 46]%N) ++ [46%N]).
      { unfold r. change 100 with (S 99). rewrite firstn_cons, ellipsis_value.
        simpl. rewrite <- app_assoc. reflexivity. }
      rewrite extractTitle_trimmed_line.
      * rewrite Hlen. change (100 <? 103) with true. cbv iota.
        rewrite substring_prefix. unfold r.
        rewrite firstn_app, firstn_firstn, length_firstn.
        replace (100 - Nat.min 100 (length (c :: u))) with 0 by lia.
        rewrite Nat.min_id. simpl firstn at 2. rewrite app_nil_r. reflexivity.
      * rewrite Hr. discriminate.
      * rewrite Hr. apply trim_fixed; [assumption | reflexivity].
      * unfold r. rewrite in_app_iff. intros [H|H].
        -- apply Hnl. apply In_firstn with (n := 100). exact H.
        -- rewrite ellipsis_value in H. simpl in H.
           unfold newline in H. intuition discriminate.
    + rewrite extractTitle_trimmed_line; try assumption.
      * destruct (Nat.ltb_spec 100 (length (trim line0))); [lia | reflexivity].
      * apply trim_idem.
Qed.

(** C7.  [extractTitle] returns the sentinel when no line of the text
    is non-blank; otherwise it returns the first non-blank line,
    trimmed, as it is when that has at most 100 code units and cut to
    100 code units followed by the ellipsis when it has more; and a
    derived title of fewer than 100 code units is its own title. *)
Theorem extractTitle_spec (text : jsstring) :
  ((forall line, In line (split newline text) -> trim line = []) ->
   extractTitle text = noTitle)
  /\ (forall blanks line rest,
         split newline text = blanks ++ line :: rest ->
         (forall b, In b blanks -> trim b = []) ->
         trim line <> [] ->
         (length (trim line) <= 100 -> extractTitle text = trim line)
         /\ (100 < length (trim line) ->
             extractTitle text = firstn 100 (trim line) ++ ellipsis))
  /\ (length (extractTitle text) < 100 ->
      extractTitle (extractTitle text) = extractTitle text).
Proof.
  split; [|split].
  - intros H. unfold extractTitle.
    rewrite filter_nonblank_none by assumption. reflexivity.
  - intros blanks line rest Hs Hb Hl. unfold extractTitle.
    rewrite Hs, filter_nonblank_first by assumption. cbv zeta.
    rewrite substring_prefix. split; intros Hlen.
    + destruct (Nat.ltb_spec 100 (length (trim line))); [lia | reflexivity].
    + destruct (Nat.ltb_spec 100 (length (trim line))); [reflexivity | lia].
  - intros _. apply extractTitle_idempotent.
Qed.

Lemma extractTitle_spec_witness :
  extractTitle (js "   ") = noTitle
  /\ extractTitle ([10%N] ++ js "  Dark mode  " ++ [10%N] ++ js "more")
     = js "Dark mode"
  /\ extractTitle (extractTitle ([10%N] ++ js "  Dark mode  " ++ [10%N] ++ js "more"))
     = extractTitle ([10%N] ++ js "  Dark mode  " ++ [10%N] ++ js "more").
Proof.
  split; [|split].
  - destruct (extractTitle_spec (js "   ")) as [H _]. apply H.
    intros line Hin. vm_compute in Hin. destruct Hin as [<-|[]]. reflexivity.
  - destruct (extractTitle_spec ([10%N] ++ js "  Dark mode  " ++ [10%N] ++ js "more"))
      as [_ [H _]].
    destruct (H [[]] (js "  Dark mode  ") [js "more"]) as [Hshort _].
    + reflexivity.
    + intros b [<-|[]]. reflexivity.
    + discriminate.
    + apply Hshort. vm_compute. lia.
  - destruct (extractTitle_spec ([10%N] ++ js "  Dark mode  " ++ [10%N] ++ js "more"))
      as [_ [_ H]].
    apply H. vm_compute. lia.
Defined.

(** ** Sorting *)

Section Sort.

Variable A : Type.
Variable comparefn : A -> A -> Z.

Let le (x y : A) : Prop := (comparefn x y <= 0)%Z.

(** The comparison function is consistent: of two elements, one may
    stand in front of the other, and standing in front is
    transitive. *)
Hypothesis comparefn_total : forall x y, (0 < comparefn x y)%Z -> le y x.
Hypothesis comparefn_trans : forall x y z, le x y -> le y z -> le x z.

Lemma insertSorted_perm (x : A) (l : list A) :
  Permutation (x :: l) (insertSorted comparefn x l).
Proof.
  induction l as [|y l IH]; simpl; [apply Permutation_refl|].
  destruct (comparefn x y <=? 0)%Z; [apply Permutation_refl|].
  eapply perm_trans; [apply perm_swap|]. apply perm_skip. exact IH.
Qed.

Lemma sort_perm (l : list A) : Permutation l (sort comparefn l).
Proof.
  induction l as [|x l IH]; simpl; [constructor|].
  eapply perm_trans; [|apply insertSorted_perm]. apply perm_skip. exact IH.
Qed.

Lemma insertSorted_hd (x y : A) (l : list A) :
  le y x -> HdRel le y l -> HdRel le y (insertSorted comparefn x l).
Proof.
  intros Hyx Hl. destruct l as [|z l]; simpl; [constructor; assumption|].
  destruct (comparefn x z <=? 0)%Z; constructor; [assumption|].
  inversion Hl; assumption.
Qed.

Lemma insertSorted_sorted (x : A) (l : list A) :
  Sorted le l -> Sorted le (insertSorted comparefn x l).
Proof.
  induction 1 as [|y l Hs IH Hhd]; simpl; [repeat constructor|].
  destruct (Z.leb_spec (comparefn x y) 0) as [Hle|Hgt].
  - constructor; [constructor; assumption|]. constructor. exact Hle.
  - constructor; [exact IH|]. apply insertSorted_hd; [|assumption].
    apply comparefn_total. assumption.
Qed.

Lemma sort_sorted (l : list A) : Sorted le (sort comparefn l).
Proof.
  induction l as [|x l IH]; simpl; [constructor|].
  apply insertSorted_sorted. exact IH.
Qed.

Lemma sort_strongly_sorted (l : list A) : StronglySorted le (sort comparefn l).
Proof. apply Sorted_StronglySorted; [exact comparefn_trans | apply sort_sorted]. Qed.

(** Stability: within a class of elements that may stand in front of
    each other, sorting keeps the order. *)
Variable p : A -> bool.
Hypothesis p_class : forall x y, p x = true -> p y = true -> le x y.

Lemma insertSorted_filter (x : A) (l : list A) :
  filter p (insertSorted comparefn x l) = filter p (x :: l).
Proof.
  induction l as [|y l IH]; [reflexivity|].
  simpl insertSorted. destruct (Z.leb_spec (comparefn x y) 0) as [Hle|Hgt].
  - reflexivity.
  - simpl filter in *. rewrite IH.
    destruct (p x) eqn:Px, (p y) eqn:Py; try reflexivity.
    specialize (p_class Px Py). unfold le in p_class. lia.
Qed.

Lemma sort_filter (l : list A) : filter p (sort comparefn l) = filter p l.
Proof.
  induction l as [|x l IH]; [reflexivity|].
  simpl sort. rewrite insertSorted_filter. simpl. rewrite IH. reflexivity.
Qed.

End Sort.

(** Neighbours in a sorted list are related. *)
Lemma Sorted_adjacent (A : Type) (R : A -> A -> Prop) (l : list A) :
  Sorted R l ->
  forall i a b, nth_error l i = Some a -> nth_error l (S i) = Some b -> R a b.
Proof.
  induction 1 as [|x l Hs IH Hhd]; intros i a b Ha Hb.
  - destruct i; discriminate.
  - destruct i as [|i].
    + simpl in Ha, Hb. injection Ha as <-.
      destruct l as [|y l]; [discriminate|]. simpl in Hb. injection Hb as <-.
      inversion Hhd; assumption.
    + simpl in Ha. apply (IH i); assumption.
Qed.

Lemma compareItems_total (x y : Item.t) :
  (0 < compareItems x y)%Z -> mayPrecede y x.
Proof.
  unfold mayPrecede, compareItems.
  destruct (Item.isLikelyUpdate x), (Item.isLikelyUpdate y); simpl; lia.
Qed.

Lemma compareItems_trans (x y z : Item.t) :
  mayPrecede x y -> mayPrecede y z -> mayPrecede x z.
Proof.
  unfold mayPrecede, compareItems.
  destruct (Item.isLikelyUpdate x), (Item.isLikelyUpdate y),
    (Item.isLikelyUpdate z); simpl; lia.
Qed.

Lemma hasKey_spec (flag : bool) (len : nat) (item : Item.t) :
  hasKey flag len item = true
  <-> Item.isLikelyUpdate item = flag /\ Item.contentLength item = len.
Proof.
  unfold hasKey. rewrite andb_true_iff, Bool.eqb_true_iff, Nat.eqb_eq.
  intuition congruence.
Qed.

Lemma hasKey_class (flag : bool) (len : nat) (x y : Item.t) :
  hasKey flag len x = true -> hasKey flag len y = true -> mayPrecede x y.
Proof.
  rewrite !hasKey_spec. intros [Fx Lx] [Fy Ly].
  unfold mayPrecede, compareItems. rewrite Fx, Fy, Lx, Ly.
  destruct flag; simpl; lia.
Qed.

(** What the order says of two items. *)
Lemma mayPrecede_spec (a b : Item.t) :
  mayPrecede a b
  <-> ~ (Item.isLikelyUpdate b = true /\ Item.isLikelyUpdate a = false)
      /\ (Item.isLikelyUpdate a = Item.isLikelyUpdate b ->
          Item.contentLength b <= Item.contentLength a).
Proof.
  unfold mayPrecede, compareItems.
  destruct (Item.isLikelyUpdate a), (Item.isLikelyUpdate b); simpl;
    intuition (try congruence; try lia).
Qed.

(** C1.  In the sequence [processContent] returns no item that is a
    likely update follows one that is not, and of two neighbours with
    the same flag the first is at least as long; the returned
    sequence is a rearrangement of the items emitted, and the items
    with the same flag and length stand in the order in which they
    were emitted. *)
Theorem processContent_sorted_stable {host : Host}
  (rawContent : list Raw.t) (competitorName : jsstring) :
  let output := processContent rawContent competitorName in
  (forall i a b,
      nth_error output i = Some a -> nth_error output (S i) = Some b ->
      ~ (Item.isLikelyUpdate b = true /\ Item.isLikelyUpdate a = false)
      /\ (Item.isLikelyUpdate a = Item.isLikelyUpdate b ->
          Item.contentLength b <= Item.contentLength a))
  /\ Permutation (processedItems rawContent competitorName) output
  /\ (forall flag len,
         filter (hasKey flag len) output
         = filter (hasKey flag len) (processedItems rawContent competitorName)).
Proof.
  cbv zeta. unfold processContent. split; [|split].
  - intros i a b Ha Hb. apply mayPrecede_spec.
    eapply Sorted_adjacent; [|exact Ha|exact Hb].
    apply sort_sorted. exact compareItems_total.
  - apply sort_perm.
  - intros flag len. apply sort_filter. apply hasKey_class.
Qed.

(** Any list that is sorted by the comparison function and keeps the
    order within each class of flag and length is the one [sort]
    returns: the result does not depend on the sorting algorithm. *)
Lemma sorted_stable_unique (l1 l2 : list Item.t) :
  StronglySorted mayPrecede l1 -> StronglySorted mayPrecede l2 ->
  (forall flag len, filter (hasKey flag len) l1 = filter (hasKey flag len) l2) ->
  l1 = l2.
Proof.
  intros S1. revert l2. induction S1 as [|a t1 S1 IH F1]; intros l2 S2 Hf.
  - destruct l2 as [|b t2]; [reflexivity|].
    specialize (Hf (Item.isLikelyUpdate b) (Item.contentLength b)).
    simpl in Hf.
    assert (Hb : hasKey (Item.isLikelyUpdate b) (Item.contentLength b) b = true)
      by (apply hasKey_spec; auto).
    rewrite Hb in Hf. discriminate.
  - assert (Ha : hasKey (Item.isLikelyUpdate a) (Item.contentLength a) a = true)
      by (apply hasKey_spec; auto).
    destruct l2 as [|b t2].
    { specialize (Hf (Item.isLikelyUpdate a) (Item.contentLength a)).
      simpl in Hf. rewrite Ha in Hf. discriminate. }
    assert (Hb : hasKey (Item.isLikelyUpdate b) (Item.contentLength b) b = true)
      by (apply hasKey_spec; auto).
    inversion S2 as [|b' t2' S2' F2]; subst.
    assert (Hkey : hasKey (Item.isLikelyUpdate a) (Item.contentLength a) b = true).
    { destruct (hasKey (Item.isLikelyUpdate a) (Item.contentLength a) b) eqn:E;
        [reflexivity|exfalso].
      (* [a] occurs behind [b] in [l2], and [b] behind [a] in [l1] *)
      assert (Hab : mayPrecede b a).
      { pose proof (Hf (Item.isLikelyUpdate a) (Item.contentLength a)) as H.
        simpl in H. rewrite Ha, E in H.
        assert (Hin : In a (filter (hasKey (Item.isLikelyUpdate a) (Item.contentLength a)) t2))
          by (rewrite <- H; left; reflexivity).
        apply filter_In in Hin. rewrite Forall_forall in F2. apply F2, Hin. }
      assert (Hba : mayPrecede a b).
      { pose proof (Hf (Item.isLikelyUpdate b) (Item.contentLength b)) as H.
        simpl in H. rewrite Hb in H.
        destruct (hasKey (Item.isLikelyUpdate b) (Item.contentLength b) a) eqn:E'.
        - apply hasKey_class with (flag := Item.isLikelyUpdate b)
                                  (len := Item.contentLength b); assumption.
        - assert (Hin : In b (filter (hasKey (Item.isLikelyUpdate b) (Item.contentLength b)) t1))
            by (rewrite H; left; reflexivity).
          apply filter_In in Hin. rewrite Forall_forall in F1. apply F1, Hin. }
      apply not_true_iff_false in E. apply E, hasKey_spec.
      unfold mayPrecede, compareItems in Hab, Hba.
      destruct (Item.isLikelyUpdate a), (Item.isLikelyUpdate b); simpl in *;
        split; try reflexivity; try lia. }
    assert (Eab : a = b).
    { pose proof (Hf (Item.isLikelyUpdate a) (Item.contentLength a)) as H.
      simpl in H. rewrite Ha, Hkey in H. congruence. }
    subst b. f_equal. apply IH; [assumption|].
    intros flag len. specialize (Hf flag len). simpl in Hf.
    destruct (hasKey flag len a); congruence.
Qed.

Lemma sort_unique (l out : list Item.t) :
  StronglySorted mayPrecede out ->
  (forall flag len, filter (hasKey flag len) out = filter (hasKey flag len) l) ->
  out = sort compareItems l.
Proof.
  intros Hs Hf. apply sorted_stable_unique; [assumption| |].
  - apply sort_strongly_sorted; [exact compareItems_total | exact compareItems_trans].
  - intros flag len. rewrite Hf. symmetry. apply sort_filter. apply hasKey_class.
Qed.

(** ** The loop of the normalizer *)

Lemma forEachFrom_invariant (A St : Type) (callback : St -> A -> nat -> St)
  (P : list A -> St -> Prop) :
  (forall pre x st, P pre st -> P (pre ++ [x]) (callback st x (length pre))) ->
  forall l pre st, P pre st -> P (pre ++ l) (forEachFrom callback l (length pre) st).
Proof.
  intros Hstep. induction l as [|x l IH]; intros pre st HP; simpl.
  - rewrite app_nil_r. exact HP.
  - replace (pre ++ x :: l) with ((pre ++ [x]) ++ l)
      by (rewrite <- app_assoc; reflexivity).
    replace (S (length pre)) with (length (pre ++ [x]))
      by (rewrite length_app; simpl; lia).
    apply IH, Hstep, HP.
Qed.

Lemma forEach_invariant (A St : Type) (callback : St -> A -> nat -> St)
  (P : list A -> St -> Prop) (st0 : St) :
  P [] st0 ->
  (forall pre x st, P pre st -> P (pre ++ [x]) (callback st x (length pre))) ->
  forall l, P l (forEach callback l st0).
Proof.
  intros H0 Hstep l.
  apply (forEachFrom_invariant callback P Hstep l [] st0 H0).
Qed.

Lemma setHas_spec (s : list jsstring) (x : jsstring) :
  setHas s x = true <-> In x s.
Proof.
  unfold setHas. rewrite existsb_exists. split.
  - intros [y [Hy E]]. apply streq_spec in E. subst. assumption.
  - intros H. exists x. split; [assumption | apply streq_refl].
Qed.

Lemma setAdd_spec (s : list jsstring) (x y : jsstring) :
  In y (setAdd s x) <-> In y s \/ y = x.
Proof.
  unfold setAdd. destruct (setHas s x) eqn:E.
  - apply setHas_spec in E. intuition congruence.
  - rewrite in_app_iff. simpl. intuition congruence.
Qed.

(** Decimal digits determine the number. *)
Lemma digitsOfUint_inj (d d' : Decimal.uint) :
  digitsOfUint d = digitsOfUint d' -> d = d'.
Proof.
  revert d'. induction d; intros d' H; destruct d'; simpl in H;
    try discriminate; try reflexivity;
    injection H as H; f_equal; apply IHd; assumption.
Qed.

Lemma numberToString_inj (m n : nat) :
  numberToString m = numberToString n -> m = n.
Proof.
  unfold numberToString. intros H. apply digitsOfUint_inj in H.
  apply (f_equal Nat.of_uint) in H.
  rewrite !DecimalNat.Unsigned.of_to in H. exact H.
Qed.

(** Texts with the same fingerprint are both long enough or both too
    short. *)
Lemma fingerprint_long (t t' : jsstring) :
  fingerprint t' = fingerprint t -> 30 <= length t -> 30 <= length t'.
Proof.
  unfold fingerprint. intros E Ht.
  apply (f_equal (@length codeUnit)) in E.
  rewrite !length_substring_prefix in E. lia.
Qed.

Lemma nth_error_snoc (A : Type) (pre : list A) (x : A) (i : nat) (r : A) :
  nth_error (pre ++ [x]) i = Some r
  <-> nth_error pre i = Some r \/ (i = length pre /\ r = x).
Proof.
  destruct (Nat.lt_ge_cases i (length pre)) as [Hlt|Hge].
  - rewrite nth_error_app1 by assumption. intuition lia.
  - rewrite nth_error_app2 by assumption.
    assert (Hnone : nth_error pre i = None) by (apply nth_error_None; assumption).
    rewrite Hnone.
    destruct (i - length pre) as [|k] eqn:E; simpl.
    + split.
      * intros H; injection H as <-. right. split; [lia | reflexivity].
      * intros [H|[_ ->]]; [discriminate | reflexivity].
    + split.
      * destruct k; discriminate.
      * intros [H|[H _]]; [discriminate | lia].
Qed.

Lemma NoDup_snoc (A : Type) (l : list A) (a : A) :
  NoDup l -> ~ In a l -> NoDup (l ++ [a]).
Proof.
  intros Hl Ha. apply NoDup_app; [assumption | repeat constructor; simpl; tauto |].
  intros x Hx [<-|[]]. contradiction.
Qed.

Lemma emittedAt_bound (rawContent : list Raw.t) (i : nat) (r : Raw.t) :
  emittedAt rawContent i r -> i < length rawContent.
Proof. intros [H _]. apply nth_error_Some. congruence. Qed.

(** The records emitted from a batch with one more record. *)
Lemma emittedAt_snoc (pre : list Raw.t) (x : Raw.t) (i : nat) (r : Raw.t) :
  emittedAt (pre ++ [x]) i r
  <-> emittedAt pre i r
      \/ (i = length pre /\ r = x /\ 30 <= length (recordText x)
          /\ forall j r', nth_error pre j = Some r' ->
                          fingerprint (recordText r') <> fingerprint (recordText x)).
Proof.
  unfold emittedAt. rewrite nth_error_snoc. split.
  - intros [[Hi|[-> ->]] [Hlong Hfresh]].
    + left. repeat split; try assumption.
      intros j r' Hj Hr'. apply (Hfresh j r' Hj).
      apply nth_error_snoc. left. assumption.
    + right. repeat split; try assumption.
      intros j r' Hr'. apply (Hfresh j r').
      * apply nth_error_Some. congruence.
      * apply nth_error_snoc. left. assumption.
  - intros [[Hi [Hlong Hfresh]]|[-> [-> [Hlong Hfresh]]]].
    + repeat split; [left; assumption | assumption |].
      intros j r' Hj Hr'. apply nth_error_snoc in Hr'.
      destruct Hr' as [Hr'|[-> _]].
      * apply (Hfresh j r' Hj Hr').
      * assert (i < length pre) by (apply nth_error_Some; congruence). lia.
    + repeat split; [right; split; reflexivity | assumption |].
      intros j r' Hj Hr'. apply nth_error_snoc in Hr'.
      destruct Hr' as [Hr'|[-> _]]; [|lia].
      apply (Hfresh j r' Hr').
Qed.

Section NormalizerLoop.

Context {host : Host}.
Variable competitorName : jsstring.

Lemma NormInv_init :
  NormInv competitorName [] {| processed := []; seenTexts := [] |}.
Proof.
  constructor; simpl; try constructor; try tauto.
  - intros (i & r & [H _] & _). destruct i; discriminate.
  - intros (j & r & H & _). destruct j; discriminate.
Qed.

(** Whether the fingerprint of a long record has been seen. *)
Lemma seen_iff (pre : list Raw.t) (st : NormState) (x : Raw.t) :
  NormInv competitorName pre st ->
  30 <= length (recordText x) ->
  In (fingerprint (recordText x)) (seenTexts st)
  <-> exists j r', nth_error pre j = Some r'
                   /\ fingerprint (recordText r') = fingerprint (recordText x).
Proof.
  intros Inv Hlong. rewrite (inv_seen Inv). split.
  - intros (j & r' & Hj & _ & E). exists j, r'. split; assumption.
  - intros (j & r' & Hj & E). exists j, r'. repeat split; try assumption.
    apply fingerprint_long with (t := recordText x); assumption.
Qed.

Lemma NormInv_step (pre : list Raw.t) (x : Raw.t) (st : NormState) :
  NormInv competitorName pre st ->
  NormInv competitorName (pre ++ [x])
    (processRecord competitorName st x (length pre)).
Proof.
  intros Inv. unfold processRecord. cbv zeta.
  change (trim (Raw.text x)) with (recordText x).
  change (substring 0 100 (recordText x)) with (fingerprint (recordText x)).
  destruct (Nat.ltb_spec (length (recordText x)) 30) as [Hshort|Hlong]; simpl orb.
  { (* too short *)
    constructor; try apply Inv.
    - intros item. rewrite (inv_items Inv). split.
      + intros (i & r & H & E). exists i, r. split; [|assumption].
        apply emittedAt_snoc. left. assumption.
      + intros (i & r & H & E). exists i, r. split; [|assumption].
        apply emittedAt_snoc in H. destruct H as [H|(_ & _ & H & _)]; [assumption | lia].
    - intros y. rewrite (inv_seen Inv). split.
      + intros (j & r & H & R). exists j, r. split; [|assumption].
        apply nth_error_snoc. left. assumption.
      + intros (j & r & H & Hl & E). apply nth_error_snoc in H.
        destruct H as [H|[_ ->]]; [|lia].
        exists j, r. repeat split; assumption. }
  destruct (setHas (seenTexts st) (fingerprint (recordText x))) eqn:Hseen.
  { (* seen before *)
    apply setHas_spec in Hseen.
    pose proof (proj1 (seen_iff x Inv Hlong) Hseen) as (j0 & r0 & Hj0 & E0).
    constructor; try apply Inv.
    - intros item. rewrite (inv_items Inv). split.
      + intros (i & r & H & E). exists i, r. split; [|assumption].
        apply emittedAt_snoc. left. assumption.
      + intros (i & r & H & E). exists i, r. split; [|assumption].
        apply emittedAt_snoc in H. destruct H as [H|(_ & _ & _ & H)]; [assumption|].
        exfalso. apply (H j0 r0 Hj0 E0).
    - intros y. rewrite (inv_seen Inv). split.
      + intros (j & r & H & R). exists j, r. split; [|assumption].
        apply nth_error_snoc. left. assumption.
      + intros (j & r & H & Hl & E). apply nth_error_snoc in H.
        destruct H as [H|[_ ->]].
        * exists j, r. repeat split; assumption.
        * exists j0, r0. repeat split; try assumption; [|congruence].
          apply fingerprint_long with (t := recordText x); assumption. }
  (* emitted *)
  assert (Hfresh : forall j r', nth_error pre j = Some r' ->
                                fingerprint (recordText r') <> fingerprint (recordText x)).
  { intros j r' Hj E. apply not_true_iff_false in Hseen. apply Hseen.
    apply setHas_spec. apply (seen_iff x Inv Hlong). exists j, r'. split; assumption. }
  constructor; simpl.
  - intros item. rewrite in_app_iff, (inv_items Inv). simpl. split.
    + intros [(i & r & H & E)|[<-|[]]].
      * exists i, r. split; [|assumption]. apply emittedAt_snoc. left. assumption.
      * exists (length pre), x. split; [|reflexivity].
        apply emittedAt_snoc. right. repeat split; assumption.
    + intros (i & r & H & E). apply emittedAt_snoc in H.
      destruct H as [H|(-> & -> & _)].
      * left. exists i, r. split; assumption.
      * right. left. symmetry. assumption.
  - intros y. rewrite setAdd_spec, (inv_seen Inv). split.
    + intros [(j & r & H & R)| ->].
      * exists j, r. split; [|assumption]. apply nth_error_snoc. left. assumption.
      * exists (length pre), x. repeat split; try assumption.
        apply nth_error_snoc. right. split; reflexivity.
    + intros (j & r & H & Hl & E). apply nth_error_snoc in H.
      destruct H as [H|[_ ->]].
      * left. exists j, r. repeat split; assumption.
      * right. symmetry. assumption.
  - rewrite map_app. apply NoDup_snoc; [apply Inv|]. simpl.
    intros Hin. apply in_map_iff in Hin. destruct Hin as (item & E & Hin).
    apply (inv_items Inv) in Hin. destruct Hin as (i & r & [Hi _] & ->).
    simpl in E. apply (Hfresh i r Hi E).
  - rewrite map_app. apply NoDup_snoc; [apply Inv|]. simpl.
    intros Hin. apply in_map_iff in Hin. destruct Hin as (item & E & Hin).
    apply (inv_items Inv) in Hin. destruct Hin as (i & r & Hi & ->).
    simpl in E. apply app_inv_head in E. injection E as E.
    apply numberToString_inj in E. apply emittedAt_bound in Hi. lia.
Qed.

Lemma NormInv_final (rawContent : list Raw.t) :
  NormInv competitorName rawContent
    (forEach (processRecord competitorName) rawContent
       {| processed := []; seenTexts := [] |}).
Proof.
  apply (forEach_invariant (processRecord competitorName)
           (NormInv competitorName)).
  - apply NormInv_init.
  - intros pre x st. apply NormInv_step.
Qed.

(** The items of the batch: one for each record that is long enough
    and whose fingerprint no earlier record has, made from the
    record's index and trimmed text. *)
Lemma processedItems_spec (rawContent : list Raw.t) (item : Item.t) :
  In item (processedItems rawContent competitorName)
  <-> exists i r, emittedAt rawContent i r
                  /\ item = makeItem competitorName i (recordText r).
Proof. apply (inv_items (NormInv_final rawContent)). Qed.

Lemma processContent_In (rawContent : list Raw.t) (item : Item.t) :
  In item (processContent rawContent competitorName)
  <-> In item (processedItems rawContent competitorName).
Proof.
  unfold processContent. split; intros H.
  - eapply Permutation_in; [apply Permutation_sym, sort_perm | exact H].
  - eapply Permutation_in; [apply sort_perm | exact H].
Qed.

Lemma processContent_spec (rawContent : list Raw.t) (item : Item.t) :
  In item (processContent rawContent competitorName)
  <-> exists i r, emittedAt rawContent i r
                  /\ item = makeItem competitorName i (recordText r).
Proof. rewrite processContent_In. apply processedItems_spec. Qed.

Lemma processContent_fingerprints_NoDup (rawContent : list Raw.t) :
  NoDup (map (fun item => fingerprint (Item.fullContent item))
           (processContent rawContent competitorName)).
Proof.
  eapply Permutation_NoDup.
  - apply Permutation_map. unfold processContent. apply sort_perm.
  - apply (inv_fingerprints (NormInv_final rawContent)).
Qed.

Lemma processContent_ids_NoDup (rawContent : list Raw.t) :
  NoDup (map Item.id (processContent rawContent competitorName)).
Proof.
  eapply Permutation_NoDup.
  - apply Permutation_map. unfold processContent. apply sort_perm.
  - apply (inv_ids (NormInv_final rawContent)).
Qed.

End NormalizerLoop.

(** ** The normalizer: length, fingerprints, identifiers *)

Lemma id_index_inj {host : Host} (competitorName : jsstring) (i j : nat) :
  toLowerCase competitorName ++ js "_" ++ numberToString i
  = toLowerCase competitorName ++ js "_" ++ numberToString j ->
  i = j.
Proof.
  intros E. apply app_inv_head in E. injection E as E.
  apply numberToString_inj. assumption.
Qed.

(** C2.  Every item [processContent] returns comes from a record whose
    trimmed text has at least 30 code units and carries that length;
    a record whose trimmed text has fewer than 30 code units (29, for
    one) gives no item; a record whose trimmed text has 30 code units
    or more and whose fingerprint no earlier record has gives its
    item. *)
Theorem processContent_min_length {host : Host}
  (rawContent : list Raw.t) (competitorName : jsstring) :
  let output := processContent rawContent competitorName in
  (forall item,
      In item output ->
      30 <= Item.contentLength item
      /\ Item.contentLength item = length (Item.fullContent item)
      /\ exists i r, nth_error rawContent i = Some r
                     /\ Item.fullContent item = trim (Raw.text r)
                     /\ 30 <= length (trim (Raw.text r)))
  /\ (forall i r,
         nth_error rawContent i = Some r ->
         length (trim (Raw.text r)) < 30 ->
         forall item,
           In item output ->
           Item.id item
           <> toLowerCase competitorName ++ js "_" ++ numberToString i)
  /\ (forall i r,
         nth_error rawContent i = Some r ->
         30 <= length (trim (Raw.text r)) ->
         (forall j r', j < i -> nth_error rawContent j = Some r' ->
                       substring 0 100 (trim (Raw.text r'))
                       <> substring 0 100 (trim (Raw.text r))) ->
         In (makeItem competitorName i (trim (Raw.text r))) output).
Proof.
  cbv zeta. split; [|split].
  - intros item Hin. apply processContent_spec in Hin.
    destruct Hin as (i & r & (Hi & Hlong & _) & ->). simpl.
    split; [exact Hlong|]. split; [reflexivity|].
    exists i, r. repeat split; assumption.
  - intros i r Hi Hshort item Hin E. apply processContent_spec in Hin.
    destruct Hin as (i' & r' & (Hi' & Hlong & _) & ->). simpl in E.
    apply id_index_inj in E. subst i'.
    assert (r' = r) by congruence. subst r'.
    unfold recordText in Hlong. lia.
  - intros i r Hi Hlong Hfresh. apply processContent_spec.
    exists i, r. split; [|reflexivity].
    repeat split; assumption.
Qed.

(** C3.  No two items of one returned sequence have the same first
    100 code units of full text; a record with the fingerprint of an
    earlier record of the batch gives no item; and the set of
    fingerprints starts empty in every call: the first record of a
    batch is emitted whenever it is long enough. *)
Theorem processContent_no_duplicates {host : Host}
  (rawContent : list Raw.t) (competitorName : jsstring) :
  let output := processContent rawContent competitorName in
  (forall i j a b,
      nth_error output i = Some a -> nth_error output j = Some b -> i <> j ->
      substring 0 100 (Item.fullContent a) <> substring 0 100 (Item.fullContent b))
  /\ (forall i j ri rj,
         i < j ->
         nth_error rawContent i = Some ri -> nth_error rawContent j = Some rj ->
         substring 0 100 (trim (Raw.text ri)) = substring 0 100 (trim (Raw.text rj)) ->
         forall item,
           In item output ->
           Item.id item
           <> toLowerCase competitorName ++ js "_" ++ numberToString j)
  /\ (forall r rest,
         30 <= length (trim (Raw.text r)) ->
         In (makeItem competitorName 0 (trim (Raw.text r)))
           (processContent (r :: rest) competitorName)).
Proof.
  cbv zeta. split; [|split].
  - intros i j a b Ha Hb Hij E.
    pose proof (processContent_fingerprints_NoDup competitorName rawContent) as N.
    rewrite NoDup_nth_error in N. apply Hij, N.
    + rewrite length_map. apply nth_error_Some. congruence.
    + rewrite !nth_error_map, Ha, Hb. simpl. unfold fingerprint. congruence.
  - intros i j ri rj Hij Hi Hj E item Hin Eid. apply processContent_spec in Hin.
    destruct Hin as (j' & r' & (Hj' & _ & Hfresh) & ->). simpl in Eid.
    apply id_index_inj in Eid. subst j'.
    assert (r' = rj) by congruence. subst r'.
    apply (Hfresh i ri Hij Hi). exact E.
  - intros r rest Hlong. apply processContent_spec.
    exists 0, r. split; [|reflexivity].
    repeat split; [assumption|]. intros j r' Hj. lia.
Qed.

(** C10 as the code has it.  The trimmed text of an emitted item
    starts with a line that is not blank, so the title is made from
    that line and the branch of the sentinel is never taken; a title
    that reads as the sentinel is the first line of the text. *)
Theorem processContent_title_from_first_line {host : Host}
  (rawContent : list Raw.t) (competitorName : jsstring) (item : Item.t) :
  In item (processContent rawContent competitorName) ->
  exists line0 lines more,
    split newline (Item.fullContent item) = line0 :: more
    /\ filter (fun line => truthy (trim line)) (split newline (Item.fullContent item))
       = line0 :: lines
    /\ Item.title item
       = (if 100 <? length (trim line0)
          then firstn 100 (trim line0) ++ ellipsis else trim line0)
    /\ (Item.title item = noTitle -> trim line0 = noTitle).
Proof.
  intros Hin. apply processContent_spec in Hin.
  destruct Hin as (i & r & (Hi & Hlong & _) & ->). simpl.
  pose proof (trim_trimmedStart (Raw.text r)) as Hhead.
  unfold recordText in *.
  destruct (trim (Raw.text r)) as [|c u] eqn:Et; [simpl in Hlong; lia|].
  simpl in Hhead.
  assert (Hc : (c =? newline)%N = false).
  { apply N.eqb_neq. intros ->. discriminate. }
  pose proof (split_not_nil newline u) as Hn.
  assert (Hsplit : exists l more, split newline (c :: u) = (c :: l) :: more).
  { simpl. rewrite Hc. destruct (split newline u) as [|l more]; [congruence|].
    exists l, more. reflexivity. }
  destruct Hsplit as (l & more & Hsplit).
  assert (Hnonblank : trim (c :: l) <> []).
  { unfold trim. simpl. rewrite Hhead. rewrite trimEnd_cons by assumption.
    discriminate. }
  exists (c :: l), (filter (fun line => truthy (trim line)) more), more.
  split; [exact Hsplit|]. split.
  { rewrite Hsplit. simpl filter. apply truthy_true in Hnonblank.
    rewrite Hnonblank. reflexivity. }
  assert (Htitle : extractTitle (c :: u)
                   = if 100 <? length (trim (c :: l))
                     then firstn 100 (trim (c :: l)) ++ ellipsis
                     else trim (c :: l)).
  { unfold extractTitle. rewrite Hsplit. simpl filter.
    apply truthy_true in Hnonblank. rewrite Hnonblank. cbv zeta.
    rewrite substring_prefix. reflexivity. }
  split; [exact Htitle|].
  rewrite Htitle. destruct (Nat.ltb_spec 100 (length (trim (c :: l)))) as [Hl|Hl].
  - intros E. apply (f_equal (@length codeUnit)) in E.
    rewrite length_app, length_firstn in E.
    change (length ellipsis) with 3 in E. change (length noTitle) with 8 in E. lia.
  - auto.
Qed.

(** ** Regular expressions: the matcher finds the matches *)

Lemma countWhile_spec (p : codeUnit -> bool) (l : jsstring) (n : nat) :
  n <= countWhile p l
  <-> forall k, k < n -> exists c, nth_error l k = Some c /\ p c = true.
Proof.
  revert n. induction l as [|c l IH]; intros n; simpl.
  - split.
    + intros H k Hk. lia.
    + intros H. destruct n as [|n]; [lia|].
      destruct (H 0) as (c & Hc & _); [lia | discriminate].
  - destruct (p c) eqn:Pc.
    + destruct n as [|n]; [split; intros; lia|].
      rewrite <- Nat.succ_le_mono, IH. split.
      * intros H [|k] Hk; [exists c; auto|]. apply H. lia.
      * intros H k Hk. apply (H (S k)). lia.
    + split.
      * intros H k Hk. lia.
      * intros H. destruct n as [|n]; [lia|].
        destruct (H 0) as (c' & Hc' & Pc'); [lia|].
        simpl in Hc'. congruence.
Qed.

Section MatcherSpec.

Variable ic : bool.
Variable input : jsstring.

Lemma matcher_spec (r : regex) :
  forall i e, In e (matcher ic input r i) <-> Matches ic input r i e.
Proof.
  induction r as [|a| |r1 IH1 r2 IH2|r1 IH1 r2 IH2|a lo hi]; intros i e;
    cbn [matcher].
  - split.
    + intros [<-|[]]. constructor.
    + intros H. inversion H. left. reflexivity.
  - split.
    + destruct (nth_error input i) as [c|] eqn:Ec; [|intros []].
      destruct (atomMatches ic a c) eqn:Ea; [|intros []].
      intros [<-|[]]. econstructor; eassumption.
    + intros H. inversion H as [|a' i' c Hc Ha| | | | |]; subst.
      rewrite Hc, Ha. left. reflexivity.
  - split.
    + destruct (isWordBoundary input i) eqn:Eb; [|intros []].
      intros [<-|[]]. constructor. assumption.
    + intros H. inversion H as [| |i' Hb| | | |]; subst.
      rewrite Hb. left. reflexivity.
  - rewrite in_flat_map. split.
    + intros (j & Hj & He). apply IH1 in Hj. apply IH2 in He.
      econstructor; eassumption.
    + intros H. inversion H as [| | |r1' r2' i' j k H1 H2| | |]; subst.
      exists j. split; [apply IH1 | apply IH2]; assumption.
  - rewrite in_app_iff, IH1, IH2. split.
    + intros [H|H]; [apply MAltL | apply MAltR]; assumption.
    + intros H. inversion H; subst; auto.
  - rewrite in_map_iff. split.
    + intros (n & <- & Hn). rewrite <- in_rev in Hn. apply in_seq in Hn.
      constructor.
      * lia.
      * intros h ->. cbv beta iota zeta in Hn. lia.
      * assert (Hav : n <= countWhile (atomMatches ic a) (skipn i input))
          by (destruct hi; lia).
        intros k Hlt.
        destruct (proj1 (countWhile_spec _ _ _) Hav k Hlt) as (c & Hc & Pc).
        rewrite nth_error_skipn in Hc. exists c. split; assumption.
    + intros H. inversion H as [| | | | | |a' lo' hi' i' n Hlo Hhi Hk]; subst.
      exists n. split; [reflexivity|]. rewrite <- in_rev. apply in_seq.
      assert (Hav : n <= countWhile (atomMatches ic a) (skipn i input)).
      { apply countWhile_spec. intros k Hlt.
        destruct (Hk k Hlt) as (c & Hc & Pc).
        exists c. rewrite nth_error_skipn. split; assumption. }
      destruct hi as [h|]; [specialize (Hhi h eq_refl)|]; cbv beta iota zeta; lia.
Qed.

Lemma Matches_bounds (r : regex) (i e : nat) :
  Matches ic input r i e ->
  i <= e /\ (i <= length input -> e <= length input).
Proof.
  induction 1 as [i|a i c Hc Ha|i Hb|r1 r2 i j k H1 IH1 H2 IH2
                 |r1 r2 i e H IH|r1 r2 i e H IH|a lo hi i n Hlo Hhi Hk].
  - lia.
  - split; [lia|]. intros _. apply nth_error_Some. congruence.
  - lia.
  - lia.
  - assumption.
  - assumption.
  - split; [lia|]. intros Hi. destruct n as [|n]; [lia|].
    destruct (Hk n) as (c & Hc & _); [lia|].
    assert (i + n < length input) by (apply nth_error_Some; congruence). lia.
Qed.

Lemma execFrom_seq_Some (r : regex) (n k b e : nat) :
  execFrom ic input r (seq k n) = Some (b, e) ->
  k <= b < k + n
  /\ Matches ic input r b e
  /\ forall b' e', k <= b' < b -> ~ Matches ic input r b' e'.
Proof.
  revert k. induction n as [|n IH]; intros k; simpl; [discriminate|].
  destruct (matcher ic input r k) as [|e0 rest] eqn:Em.
  - intros H. apply IH in H. destruct H as (Hb & Hm & Hfirst).
    split; [lia|]. split; [assumption|].
    intros b' e' Hb' Hm'. destruct (Nat.eq_dec b' k) as [->|Hne].
    + apply matcher_spec in Hm'. rewrite Em in Hm'. exact Hm'.
    + apply (Hfirst b' e'); [lia | assumption].
  - intros H. injection H as <- <-.
    split; [lia|]. split.
    + apply matcher_spec. rewrite Em. left. reflexivity.
    + intros b' e' Hb'. lia.
Qed.

Lemma execFrom_seq_None (r : regex) (n k : nat) :
  execFrom ic input r (seq k n) = None ->
  forall b e, k <= b < k + n -> ~ Matches ic input r b e.
Proof.
  revert k. induction n as [|n IH]; intros k; simpl; [intros; lia|].
  destruct (matcher ic input r k) as [|e0 rest] eqn:Em; [|discriminate].
  intros H b e Hb Hm. destruct (Nat.eq_dec b k) as [->|Hne].
  - apply matcher_spec in Hm. rewrite Em in Hm. exact Hm.
  - apply (IH (S k) H b e); [lia | assumption].
Qed.

End MatcherSpec.

(** [exec] returns the match at the leftmost index at which the
    pattern matches, and nothing when it matches nowhere. *)
Lemma exec_Some (re : RegExp) (s : jsstring) (b e : nat) :
  exec re s = Some (b, e) ->
  occursAt re s b e
  /\ b <= e <= length s
  /\ forall b' e', b' < b -> ~ occursAt re s b' e'.
Proof.
  unfold exec, occursAt. intros H. apply execFrom_seq_Some in H.
  destruct H as (Hb & Hm & Hfirst).
  pose proof (Matches_bounds Hm) as [Hbe Hlen].
  split; [split; [lia | assumption]|]. split; [lia|].
  intros b' e' Hb' [_ Hm']. apply (Hfirst b' e'); [lia | assumption].
Qed.

Lemma exec_None (re : RegExp) (s : jsstring) :
  exec re s = None -> forall b e, ~ occursAt re s b e.
Proof.
  unfold exec, occursAt. intros H b e [Hb Hm].
  pose proof (@execFrom_seq_None (ignoreCase re) s (pattern re)
                (S (length s)) 0 H b e) as K.
  apply K; [lia | assumption].
Qed.

Lemma exec_complete (re : RegExp) (s : jsstring) (b e : nat) :
  occursAt re s b e -> exists b' e', exec re s = Some (b', e').
Proof.
  intros H. destruct (exec re s) as [[b' e']|] eqn:E.
  - exists b', e'. reflexivity.
  - exfalso. exact (@exec_None re s E b e H).
Qed.

Lemma stringMatch_Some (re : RegExp) (s m : jsstring) :
  stringMatch s re = Some m ->
  exists b e,
    occursAt re s b e
    /\ m = firstn (e - b) (skipn b s)
    /\ s = firstn b s ++ m ++ skipn e s
    /\ forall b' e', b' < b -> ~ occursAt re s b' e'.
Proof.
  unfold stringMatch. destruct (exec re s) as [[b e]|] eqn:E; [|discriminate].
  intros H. injection H as <-. apply exec_Some in E.
  destruct E as (Hocc & Hbe & Hfirst).
  exists b, e. split; [assumption|].
  rewrite substring_slice by assumption.
  split; [reflexivity|]. split; [|assumption].
  rewrite <- (firstn_skipn b s) at 1. f_equal.
  rewrite <- (firstn_skipn (e - b) (skipn b s)) at 1. f_equal.
  rewrite skipn_skipn. f_equal. lia.
Qed.

Lemma stringMatch_None (re : RegExp) (s : jsstring) :
  stringMatch s re = None -> forall b e, ~ occursAt re s b e.
Proof.
  unfold stringMatch. destruct (exec re s) as [[b e]|] eqn:E; [discriminate|].
  intros _. apply exec_None. assumption.
Qed.

Lemma test_spec (re : RegExp) (s : jsstring) :
  test re s = true <-> exists b e, occursAt re s b e.
Proof.
  unfold test. destruct (exec re s) as [[b e]|] eqn:E.
  - split; [|reflexivity]. intros _. exists b, e. apply exec_Some. assumption.
  - split; [discriminate|]. intros (b & e & H).
    exfalso. exact (@exec_None re s E b e H).
Qed.

(** ** The update keywords *)

Lemma atomMatches_letter (p c : codeUnit) :
  isLowerLetter p = true ->
  atomMatches true (AChar p) c = true <-> sameLetter c p.
Proof.
  unfold isLowerLetter, atomMatches, canonicalize, sameLetter. intros Hp.
  rewrite Hp. apply andb_true_iff in Hp. destruct Hp as [H1 H2].
  apply N.leb_le in H1. apply N.leb_le in H2.
  rewrite N.eqb_eq.
  destruct (N.leb_spec 97 c), (N.leb_spec c 122); simpl; lia.
Qed.

Lemma sameLetter_wordChar (p c : codeUnit) :
  isLowerLetter p = true -> sameLetter c p -> isWordChar c = true.
Proof.
  unfold isLowerLetter, sameLetter, isWordChar, isDigit. intros Hp H.
  apply andb_true_iff in Hp. destruct Hp as [H1 H2].
  apply N.leb_le in H1. apply N.leb_le in H2.
  destruct (N.leb_spec 97 c), (N.leb_spec c 122), (N.leb_spec 65 c),
    (N.leb_spec c 90); simpl; try reflexivity;
    rewrite ?orb_true_r; try reflexivity; lia.
Qed.

Lemma skipn_nth_error (A : Type) (l : list A) (i : nat) (c : A) :
  nth_error l i = Some c -> skipn i l = c :: skipn (S i) l.
Proof.
  revert i. induction l as [|x l IH]; intros [|i] H; try discriminate.
  - simpl in H. injection H as ->. reflexivity.
  - simpl in H. apply IH in H. exact H.
Qed.

(** A literal matches the code units that equal it up to [atomMatches]. *)
Lemma Matches_litChars (ic : bool) (input kw : jsstring) (i e : nat) :
  Matches ic input (litChars kw) i e
  <-> e = i + length kw
      /\ Forall2 (fun c p => atomMatches ic (AChar p) c = true)
           (firstn (length kw) (skipn i input)) kw.
Proof.
  revert i e. induction kw as [|p kw IH]; intros i e.
  - simpl. split.
    + intros H. inversion H; subst. split; [lia | constructor].
    + intros [-> _]. rewrite Nat.add_0_r. constructor.
  - change (litChars (p :: kw)) with (RSeq (RAtom (AChar p)) (litChars kw)).
    cbn [length]. split.
    + intros H. inversion H as [| | |r1 r2 i' j k H1 H2| | |]; subst.
      inversion H1 as [|a i' c Hc Ha| | | | |]; subst.
      apply IH in H2. destruct H2 as [-> HF].
      split; [lia|]. rewrite (skipn_nth_error _ _ Hc). rewrite firstn_cons.
      constructor; assumption.
    + intros [-> HF].
      destruct (skipn i input) as [|c rest] eqn:Es;
        [rewrite firstn_nil in HF; inversion HF|].
      rewrite firstn_cons in HF.
      inversion HF as [|c' p' w kw' Hcp HF']; subst.
      assert (Hc : nth_error input i = Some c).
      { rewrite <- (Nat.add_0_r i), <- nth_error_skipn, Es. reflexivity. }
      rewrite (skipn_nth_error _ _ Hc) in Es. injection Es as <-.
      apply MSeq with (j := S i).
      * econstructor; eassumption.
      * replace (i + S (length kw)) with (S i + length kw) by lia.
        apply IH. split; [reflexivity | assumption].
Qed.

Lemma Matches_alternation (ic : bool) (input : jsstring) (r : regex)
  (rs : list regex) (i e : nat) :
  Matches ic input (alternation r rs) i e
  <-> exists r', In r' (r :: rs) /\ Matches ic input r' i e.
Proof.
  revert r. induction rs as [|r1 rs IH]; intros r; simpl.
  - split.
    + intros H. exists r. auto.
    + intros (r' & [<-|[]] & H). assumption.
  - split.
    + intros H. inversion H; subst.
      * exists r. auto.
      * apply IH in H4. destruct H4 as (r' & Hin & Hm). exists r'. simpl in *. tauto.
    + intros (r' & [<-|Hin] & H).
      * apply MAltL. assumption.
      * apply MAltR. apply IH. exists r'. simpl. tauto.
Qed.

Lemma Matches_oneOf (ic : bool) (input : jsstring) (words : list String.string)
  (i e : nat) :
  words <> [] ->
  Matches ic input (oneOf words) i e
  <-> exists w, In w words /\ Matches ic input (lit w) i e.
Proof.
  intros Hne. unfold oneOf. destruct words as [|w words]; [congruence|].
  simpl map. rewrite Matches_alternation. split.
  - intros (r' & Hin & Hm).
    change (lit w :: map lit words) with (map lit (w :: words)) in Hin.
    apply in_map_iff in Hin. destruct Hin as (w' & <- & Hin).
    exists w'. split; assumption.
  - intros (w' & Hin & Hm). exists (lit w'). split; [|assumption].
    change (lit w :: map lit words) with (map lit (w :: words)).
    apply in_map. assumption.
Qed.

Lemma Matches_seqs_3 (ic : bool) (input : jsstring) (r1 r2 r3 : regex)
  (i e : nat) :
  Matches ic input (seqs [r1; r2; r3]) i e
  <-> exists j k, Matches ic input r1 i j /\ Matches ic input r2 j k
                  /\ Matches ic input r3 k e.
Proof.
  unfold seqs. simpl. split.
  - intros H. inversion H as [| | |? ? ? j ? H1 H'| | |]; subst.
    inversion H' as [| | |? ? ? k ? H2 H''| | |]; subst.
    inversion H'' as [| | |? ? ? l ? H3 H'''| | |]; subst.
    inversion H'''; subst.
    exists j, k. auto.
  - intros (j & k & H1 & H2 & H3).
    repeat (econstructor; try eassumption).
Qed.

Lemma Matches_boundary (ic : bool) (input : jsstring) (i e : nat) :
  Matches ic input RBoundary i e <-> e = i /\ isWordBoundary input i = true.
Proof.
  split.
  - intros H. inversion H; subst. auto.
  - intros [-> H]. constructor. assumption.
Qed.

Lemma nth_error_after (A : Type) (pre rest : list A) (k : nat) :
  nth_error (pre ++ rest) (length pre + k) = nth_error rest k.
Proof.
  rewrite nth_error_app2 by lia. f_equal. lia.
Qed.

Lemma skipn_after (A : Type) (pre rest : list A) :
  skipn (length pre) (pre ++ rest) = rest.
Proof.
  rewrite skipn_app, skipn_all, Nat.sub_diag. reflexivity.
Qed.

Lemma firstn_before (A : Type) (pre rest : list A) :
  firstn (length pre) (pre ++ rest) = pre.
Proof.
  rewrite firstn_app, firstn_all, Nat.sub_diag, firstn_0, app_nil_r. reflexivity.
Qed.

Lemma Forall2_letters (w kw : jsstring) :
  Forall (fun p => isLowerLetter p = true) kw ->
  Forall2 (fun c p => atomMatches true (AChar p) c = true) w kw
  <-> Forall2 sameLetter w kw.
Proof.
  intros Hkw. revert w. induction Hkw as [|p kw Hp Hkw IH]; intros w.
  - split; intros H; inversion H; constructor.
  - split; intros H; inversion H as [|c p' w' kw' Hc Hw]; subst; constructor;
      try (apply IH; assumption); apply (@atomMatches_letter p c Hp); assumption.
Qed.

Lemma Forall2_wordChars (w kw : jsstring) :
  Forall (fun p => isLowerLetter p = true) kw ->
  Forall2 sameLetter w kw ->
  Forall (fun c => isWordChar c = true) w.
Proof.
  intros Hkw H. induction H as [|c p w kw Hc Hw IH]; constructor.
  - inversion Hkw; subst. eapply sameLetter_wordChar; eassumption.
  - apply IH. inversion Hkw; assumption.
Qed.

(** The assertion [\b] in front of a word character. *)
Lemma boundary_before_word (pre rest : jsstring) (c0 : codeUnit) :
  isWordChar c0 = true ->
  isWordBoundary (pre ++ c0 :: rest) (length pre) = true
  <-> forall pre' c, pre = pre' ++ [c] -> isWordChar c = false.
Proof.
  intros Hc0. unfold isWordBoundary.
  assert (Hat : wordCharAt (pre ++ c0 :: rest) (length pre) = true).
  { unfold wordCharAt.
    rewrite <- (Nat.add_0_r (length pre)), nth_error_after. simpl. assumption. }
  rewrite Hat.
  destruct pre as [|x pre0] using rev_ind.
  - simpl. split; [|reflexivity].
    intros _ pre' c E. destruct pre'; discriminate.
  - clear IHpre0. rewrite length_app. simpl length.
    replace (length pre0 + 1) with (S (length pre0)) by lia.
    unfold wordCharAt. rewrite <- !app_assoc.
    rewrite <- (Nat.add_0_r (length pre0)), nth_error_after. simpl.
    split.
    + intros H pre' c E. apply app_inj_tail in E. destruct E as [_ <-].
      destruct (isWordChar x); [discriminate | reflexivity].
    + intros H. rewrite (H pre0 x eq_refl). reflexivity.
Qed.

(** The assertion [\b] behind a word character. *)
Lemma boundary_after_word (pre post : jsstring) (d : codeUnit) :
  isWordChar d = true ->
  isWordBoundary ((pre ++ [d]) ++ post) (length (pre ++ [d])) = true
  <-> forall c post', post = c :: post' -> isWordChar c = false.
Proof.
  intros Hd. unfold isWordBoundary. rewrite length_app. simpl length.
  replace (length pre + 1) with (S (length pre)) by lia.
  assert (Hleft : wordCharAt ((pre ++ [d]) ++ post) (length pre) = true).
  { unfold wordCharAt. rewrite <- !app_assoc.
    rewrite <- (Nat.add_0_r (length pre)) at 1. rewrite nth_error_after.
    simpl. assumption. }
  rewrite Hleft.
  assert (Hright : wordCharAt ((pre ++ [d]) ++ post) (S (length pre))
                   = match post with [] => false | c :: _ => isWordChar c end).
  { unfold wordCharAt.
    replace (S (length pre)) with (length (pre ++ [d]) + 0)
      by (rewrite length_app; simpl; lia).
    rewrite nth_error_after. destruct post; reflexivity. }
  rewrite Hright. destruct post as [|c post']; simpl.
  - split; [|reflexivity]. intros _ c post' E. discriminate.
  - split.
    + intros H c' post'' E. injection E as <- <-.
      destruct (isWordChar c); [discriminate | reflexivity].
    + intros H. rewrite (H c post' eq_refl). reflexivity.
Qed.

(** The two [\b] around a word of the text. *)
Lemma boundaries_around_word (pre w post kw : jsstring) :
  kw <> [] ->
  Forall (fun p => isLowerLetter p = true) kw ->
  Forall2 sameLetter w kw ->
  (isWordBoundary (pre ++ w ++ post) (length pre) = true
   /\ isWordBoundary (pre ++ w ++ post) (length pre + length kw) = true)
  <-> ((forall pre' c, pre = pre' ++ [c] -> isWordChar c = false)
       /\ (forall c post', post = c :: post' -> isWordChar c = false)).
Proof.
  intros Hne Hkw HF.
  assert (Hlen : length w = length kw) by (eapply Forall2_length; eassumption).
  pose proof (Forall2_wordChars Hkw HF) as Hw.
  destruct w as [|c0 w0].
  { destruct kw; [congruence | discriminate]. }
  assert (H1 : isWordBoundary (pre ++ (c0 :: w0) ++ post) (length pre) = true
               <-> forall pre' c, pre = pre' ++ [c] -> isWordChar c = false).
  { simpl app. apply boundary_before_word. inversion Hw; assumption. }
  destruct (@exists_last _ (c0 :: w0)) as (w1 & d & Elast); [discriminate|].
  rewrite Elast in *.
  assert (Hd : isWordChar d = true).
  { rewrite Forall_forall in Hw. apply Hw. apply in_or_app. right. left. reflexivity. }
  assert (H2 : isWordBoundary (pre ++ (w1 ++ [d]) ++ post) (length pre + length kw) = true
               <-> forall c post', post = c :: post' -> isWordChar c = false).
  { replace (length pre + length kw) with (length ((pre ++ w1) ++ [d]))
      by (rewrite !length_app in *; simpl in *; lia).
    replace (pre ++ (w1 ++ [d]) ++ post) with (((pre ++ w1) ++ [d]) ++ post)
      by (rewrite <- !app_assoc; reflexivity).
    apply boundary_after_word. assumption. }
  rewrite H1, H2. reflexivity.
Qed.

(** A keyword between two [\b] is a whole word of the text. *)
Lemma wholeWord_iff (text kw : jsstring) :
  kw <> [] ->
  Forall (fun p => isLowerLetter p = true) kw ->
  (exists b e,
      b <= length text
      /\ isWordBoundary text b = true
      /\ Matches true text (litChars kw) b e
      /\ isWordBoundary text e = true)
  <-> wholeWordOccurs text kw.
Proof.
  intros Hne Hkw. split.
  - intros (b & e & Hb & Hb1 & Hm & Hb2).
    apply Matches_litChars in Hm. destruct Hm as [-> HF].
    apply (Forall2_letters _ Hkw) in HF.
    remember (firstn (length kw) (skipn b text)) as w eqn:Ew.
    remember (firstn b text) as pre eqn:Epre.
    remember (skipn (b + length kw) text) as post eqn:Epost.
    assert (Htext : text = pre ++ w ++ post).
    { subst. rewrite <- (firstn_skipn b text) at 1. f_equal.
      rewrite <- (firstn_skipn (length kw) (skipn b text)) at 1. f_equal.
      rewrite skipn_skipn. f_equal. lia. }
    assert (Hpre : length pre = b) by (subst pre; rewrite length_firstn; lia).
    clear Ew Epre Epost. subst text b.
    exists pre, w, post. split; [reflexivity|]. split; [assumption|].
    apply (boundaries_around_word pre post Hne Hkw HF). split; assumption.
  - intros (pre & w & post & -> & HF & Hpre & Hpost).
    assert (Hlen : length w = length kw) by (eapply Forall2_length; eassumption).
    exists (length pre), (length pre + length kw).
    split; [rewrite length_app; lia|].
    destruct (proj2 (boundaries_around_word pre post Hne Hkw HF)) as [Hb1 Hb2];
      [split; assumption|].
    split; [assumption|]. split; [|assumption].
    apply Matches_litChars. split; [reflexivity|].
    rewrite skipn_after, <- Hlen, firstn_before.
    apply Forall2_letters; assumption.
Qed.

Lemma updateKeywords_letters :
  Forall (fun kw => js kw <> []
                    /\ Forall (fun p => isLowerLetter p = true) (js kw))
    updateKeywords.
Proof.
  unfold updateKeywords.
  repeat (constructor; [split; [discriminate | repeat constructor]|]).
  constructor.
Qed.

(** The test of line 197 holds exactly of the texts that hold one of
    the keywords as a whole word. *)
Lemma isUpdate_spec (text : jsstring) :
  isUpdate text = true <-> containsUpdateWord text.
Proof.
  unfold isUpdate. rewrite test_spec. unfold occursAt, containsUpdateWord.
  change (ignoreCase updateRe) with true.
  change (pattern updateRe) with (seqs [RBoundary; oneOf updateKeywords; RBoundary]).
  pose proof updateKeywords_letters as Hkws. rewrite Forall_forall in Hkws.
  split.
  - intros (b & e & Hb & Hm). apply Matches_seqs_3 in Hm.
    destruct Hm as (j & k & H1 & H2 & H3).
    apply Matches_boundary in H1. destruct H1 as [-> Hb1].
    apply Matches_boundary in H3. destruct H3 as [-> Hb2].
    apply Matches_oneOf in H2; [|discriminate].
    destruct H2 as (kw & Hin & Hm).
    exists kw. split; [assumption|].
    destruct (Hkws kw Hin) as [Hne Hlow].
    apply (wholeWord_iff text Hne Hlow). exists b, k. auto.
  - intros (kw & Hin & Hocc).
    destruct (Hkws kw Hin) as [Hne Hlow].
    apply (wholeWord_iff text Hne Hlow) in Hocc.
    destruct Hocc as (b & e & Hb & Hb1 & Hm & Hb2).
    exists b, e. split; [assumption|].
    apply Matches_seqs_3. exists b, e.
    split; [apply Matches_boundary; auto|].
    split; [|apply Matches_boundary; auto].
    apply Matches_oneOf; [discriminate|]. exists kw. split; assumption.
Qed.

(** C5.  The flag of an emitted item is set exactly when its full
    trimmed text holds one of the ten keywords, in any mix of upper
    and lower case, with no word character right before it and none
    right after it; a keyword inside a longer word, as [new] in
    [newsletter], does not count. *)
Theorem isLikelyUpdate_whole_word {host : Host}
  (rawContent : list Raw.t) (competitorName : jsstring) (item : Item.t) :
  In item (processContent rawContent competitorName) ->
  (exists r, In r rawContent /\ Item.fullContent item = trim (Raw.text r))
  /\ (Item.isLikelyUpdate item = true
      <-> containsUpdateWord (Item.fullContent item))
  /\ isUpdate (js "our newsletter") = false
  /\ isUpdate (js "our New letter") = true.
Proof.
  intros Hin. apply processContent_spec in Hin.
  destruct Hin as (i & r & (Hi & _) & ->). simpl.
  split; [|split; [|split]].
  - exists r. split; [eapply nth_error_In; eassumption | reflexivity].
  - apply isUpdate_spec.
  - vm_compute. reflexivity.
  - vm_compute. reflexivity.
Qed.

(** ** The end of a date match is determined by its start *)

Lemma Matches_seqs_nil (ic : bool) (input : jsstring) (i e : nat) :
  Matches ic input (seqs []) i e <-> e = i.
Proof.
  unfold seqs. simpl. split.
  - intros H. inversion H. reflexivity.
  - intros ->. constructor.
Qed.

Lemma Matches_seqs_cons (ic : bool) (input : jsstring) (r : regex)
  (rs : list regex) (i e : nat) :
  Matches ic input (seqs (r :: rs)) i e
  <-> exists j, Matches ic input r i j /\ Matches ic input (seqs rs) j e.
Proof.
  change (seqs (r :: rs)) with (RSeq r (seqs rs)). split.
  - intros H. inversion H as [| | |? ? ? j ? H1 H2| | |]; subst.
    exists j. split; assumption.
  - intros (j & H1 & H2). econstructor; eassumption.
Qed.

Lemma Matches_atom (ic : bool) (input : jsstring) (a : atom) (i e : nat) :
  Matches ic input (RAtom a) i e
  <-> e = S i /\ exists c, nth_error input i = Some c /\ atomMatches ic a c = true.
Proof.
  split.
  - intros H. inversion H; subst. split; [reflexivity|]. eexists. eauto.
  - intros (-> & c & Hc & Ha). econstructor; eassumption.
Qed.

Lemma Matches_quant (ic : bool) (input : jsstring) (a : atom) (lo : nat)
  (hi : option nat) (i e : nat) :
  Matches ic input (RQuant a lo hi) i e
  <-> exists n,
        e = i + n /\ lo <= n /\ (forall h, hi = Some h -> n <= h)
        /\ forall k, k < n ->
                     exists c, nth_error input (i + k) = Some c
                               /\ atomMatches ic a c = true.
Proof.
  split.
  - intros H. inversion H; subst. exists n. auto.
  - intros (n & -> & Hlo & Hhi & Hk). constructor; assumption.
Qed.

(** A repetition that is followed by something else than its atom
    ends where the run of the atom ends. *)
Lemma quant_end_unique (ic : bool) (input : jsstring) (a : atom) (lo : nat)
  (hi : option nat) (i e e' : nat) :
  Matches ic input (RQuant a lo hi) i e ->
  Matches ic input (RQuant a lo hi) i e' ->
  (forall c, nth_error input e = Some c -> atomMatches ic a c = false) ->
  (forall c, nth_error input e' = Some c -> atomMatches ic a c = false) ->
  e = e'.
Proof.
  intros H H' G G'.
  apply Matches_quant in H. destruct H as (n & -> & _ & _ & Hk).
  apply Matches_quant in H'. destruct H' as (n' & -> & _ & _ & Hk').
  destruct (Nat.lt_trichotomy n n') as [Hlt|[->|Hlt]]; [|reflexivity|].
  - destruct (Hk' n Hlt) as (c & Hc & Ha). rewrite (G c Hc) in Ha. discriminate.
  - destruct (Hk n' Hlt) as (c & Hc & Ha). rewrite (G' c Hc) in Ha. discriminate.
Qed.

Lemma quant_exact_end (ic : bool) (input : jsstring) (a : atom) (n i e : nat) :
  Matches ic input (RQuant a n (Some n)) i e -> e = i + n.
Proof.
  intros H. apply Matches_quant in H. destruct H as (m & -> & Hlo & Hhi & _).
  specialize (Hhi n eq_refl). lia.
Qed.

(** The code unit a repetition of at least one starts with. *)
Lemma quant_head (ic : bool) (input : jsstring) (a : atom) (lo : nat)
  (hi : option nat) (i e : nat) :
  Matches ic input (RQuant a lo hi) i e -> 1 <= lo ->
  exists c, nth_error input i = Some c /\ atomMatches ic a c = true.
Proof.
  intros H Hlo. apply Matches_quant in H. destruct H as (n & -> & Hn & _ & Hk).
  destruct (Hk 0) as (c & Hc & Ha); [lia|].
  rewrite Nat.add_0_r in Hc. exists c. split; assumption.
Qed.

Lemma isDigit_cases (c : codeUnit) :
  isDigit c = true ->
  (c = 48 \/ c = 49 \/ c = 50 \/ c = 51 \/ c = 52 \/ c = 53 \/ c = 54
   \/ c = 55 \/ c = 56 \/ c = 57)%N.
Proof.
  unfold isDigit. rewrite andb_true_iff, !N.leb_le. lia.
Qed.

Lemma digit_not_space (c : codeUnit) : isDigit c = true -> isWhiteSpace c = false.
Proof.
  intros H. apply isDigit_cases in H.
  repeat (destruct H as [->|H]; [reflexivity|]). subst. reflexivity.
Qed.

Lemma literal_char (ic : bool) (p c : codeUnit) :
  isLowerLetter p = false -> ((65 <=? p) && (p <=? 90))%N = false ->
  atomMatches ic (AChar p) c = true -> c = p.
Proof.
  unfold atomMatches, canonicalize, isLowerLetter. intros Hp Hup.
  rewrite Hp. destruct ic.
  - destruct (N.leb_spec 97 c), (N.leb_spec c 122); simpl; rewrite N.eqb_eq;
      intros E; try (symmetry; exact E).
    exfalso. rewrite andb_false_iff, !N.leb_gt in Hup. lia.
  - rewrite N.eqb_eq. intros E. symmetry. exact E.
Qed.

Lemma Forall2_canonicalize (l kw : jsstring) :
  Forall2 (fun c p => atomMatches true (AChar p) c = true) l kw ->
  map canonicalize l = map canonicalize kw.
Proof.
  induction 1 as [|c p l kw Hc _ IH]; [reflexivity|].
  simpl in *. apply N.eqb_eq in Hc. rewrite Hc, IH. reflexivity.
Qed.

Lemma literal_prefix (input kw : jsstring) (i e m : nat) :
  Matches true input (litChars kw) i e ->
  m <= length kw ->
  firstn m (map canonicalize kw) = map canonicalize (firstn m (skipn i input)).
Proof.
  intros H Hm. apply Matches_litChars in H. destruct H as [_ HF].
  apply Forall2_canonicalize in HF. rewrite <- HF, <- firstn_map.
  rewrite firstn_firstn. rewrite Nat.min_l by assumption.
  rewrite firstn_map. reflexivity.
Qed.

(** Of the words of a list in which no word starts another, at most
    one length matches at an index. *)
Lemma literals_end_unique (input : jsstring) (words : list jsstring)
  (w w' : jsstring) (i e e' : nat) :
  prefixFree words = true ->
  In w words -> In w' words ->
  Matches true input (litChars w) i e ->
  Matches true input (litChars w') i e' ->
  e = e'.
Proof.
  intros Hfree Hw Hw' H H'.
  unfold prefixFree in Hfree. rewrite forallb_forall in Hfree.
  specialize (Hfree w Hw). rewrite forallb_forall in Hfree.
  specialize (Hfree w' Hw').
  pose proof (proj1 (Matches_litChars true input w i e) H) as [-> _].
  pose proof (proj1 (Matches_litChars true input w' i e') H') as [-> _].
  apply orb_true_iff in Hfree. destruct Hfree as [E|E].
  - apply Nat.eqb_eq in E. lia.
  - exfalso. apply negb_true_iff in E. apply not_true_iff_false in E. apply E.
    apply streq_spec.
    rewrite (@literal_prefix input w i _ (Nat.min (length w) (length w')) H) by lia.
    rewrite (@literal_prefix input w' i _ (Nat.min (length w) (length w')) H') by lia.
    reflexivity.
Qed.

Lemma monthNames_prefixFree : prefixFree (map js monthNames) = true.
Proof. vm_compute. reflexivity. Qed.

Lemma months_end_unique (input : jsstring) (i e e' : nat) :
  Matches true input (oneOf monthNames) i e ->
  Matches true input (oneOf monthNames) i e' ->
  e = e'.
Proof.
  intros H H'.
  apply Matches_oneOf in H; [|discriminate]. destruct H as (w & Hw & H).
  apply Matches_oneOf in H'; [|discriminate]. destruct H' as (w' & Hw' & H').
  apply (@literals_end_unique input (map js monthNames) (js w) (js w') i e e').
  - exact monthNames_prefixFree.
  - apply in_map. assumption.
  - apply in_map. assumption.
  - exact H.
  - exact H'.
Qed.

Lemma space_not_digit (c : codeUnit) : isWhiteSpace c = true -> isDigit c = false.
Proof.
  intros H. destruct (isDigit c) eqn:E; [|reflexivity].
  apply digit_not_space in E. congruence.
Qed.

Lemma comma_char (c : codeUnit) : atomMatches true comma c = true -> c = 44%N.
Proof. apply literal_char; reflexivity. Qed.

Lemma slash_char (c : codeUnit) : atomMatches false slash c = true -> c = 47%N.
Proof. apply literal_char; reflexivity. Qed.

Lemma guard_of_head (input : jsstring) (j : nat) (c0 : codeUnit)
  (p : codeUnit -> bool) :
  nth_error input j = Some c0 -> p c0 = false ->
  forall c, nth_error input j = Some c -> p c = false.
Proof. intros H0 Hp c Hc. congruence. Qed.

Lemma longDate_end_unique (text : jsstring) (b e e' : nat) :
  occursAt longDateRe text b e -> occursAt longDateRe text b e' -> e = e'.
Proof.
  (* what follows the day is a comma or white space, never a digit *)
  assert (afterDay : forall j3 j4 j5,
             Matches true text (RQuant comma 0 (Some 1)) j3 j4 ->
             Matches true text (RQuant ASpace 1 None) j4 j5 ->
             forall c, nth_error text j3 = Some c -> atomMatches true digit c = false).
  { intros j3 j4 j5 C S2 c Hc.
    apply Matches_quant in C. destruct C as (n & -> & _ & _ & Hk).
    destruct n as [|n].
    - rewrite Nat.add_0_r in S2.
      destruct (quant_head S2) as (c' & Hc' & Hs); [lia|].
      assert (c' = c) by congruence. subst c'. apply space_not_digit. exact Hs.
    - destruct (Hk 0) as (c' & Hc' & Hcomma); [lia|].
      rewrite Nat.add_0_r in Hc'.
      assert (c' = c) by congruence. subst c'.
      apply comma_char in Hcomma. subst c. reflexivity. }
  (* white space is followed by a digit *)
  assert (beforeDigits : forall lo hi j k,
             1 <= lo ->
             Matches true text (RQuant digit lo hi) j k ->
             forall c, nth_error text j = Some c -> atomMatches true ASpace c = false).
  { intros lo hi j k Hlo D c Hc.
    destruct (quant_head D Hlo) as (c' & Hc' & Hd).
    assert (c' = c) by congruence. subst c'. apply digit_not_space. exact Hd. }
  (* the comma, when there is one, is followed by white space *)
  assert (afterComma : forall j4 j5,
             Matches true text (RQuant ASpace 1 None) j4 j5 ->
             forall c, nth_error text j4 = Some c -> atomMatches true comma c = false).
  { intros j4 j5 S2 c Hc.
    destruct (quant_head S2) as (c' & Hc' & Hs); [lia|].
    assert (c' = c) by congruence. subst c'.
    destruct (atomMatches true comma c) eqn:E; [|reflexivity].
    apply comma_char in E. subst c. discriminate. }
  unfold occursAt. change (ignoreCase longDateRe) with true.
  change (pattern longDateRe)
    with (seqs [RBoundary; oneOf monthNames; RQuant ASpace 1 None;
                RQuant digit 1 (Some 2); RQuant comma 0 (Some 1);
                RQuant ASpace 1 None; RQuant digit 4 (Some 4); RBoundary]).
  intros [_ H] [_ H'].
  apply Matches_seqs_cons in H. destruct H as (j0 & B0 & H).
  apply Matches_seqs_cons in H. destruct H as (j1 & M & H).
  apply Matches_seqs_cons in H. destruct H as (j2 & S1 & H).
  apply Matches_seqs_cons in H. destruct H as (j3 & D1 & H).
  apply Matches_seqs_cons in H. destruct H as (j4 & C & H).
  apply Matches_seqs_cons in H. destruct H as (j5 & S2 & H).
  apply Matches_seqs_cons in H. destruct H as (j6 & D4 & H).
  apply Matches_seqs_cons in H. destruct H as (j7 & B1 & H).
  apply Matches_seqs_nil in H.
  apply Matches_seqs_cons in H'. destruct H' as (k0 & B0' & H').
  apply Matches_seqs_cons in H'. destruct H' as (k1 & M' & H').
  apply Matches_seqs_cons in H'. destruct H' as (k2 & S1' & H').
  apply Matches_seqs_cons in H'. destruct H' as (k3 & D1' & H').
  apply Matches_seqs_cons in H'. destruct H' as (k4 & C' & H').
  apply Matches_seqs_cons in H'. destruct H' as (k5 & S2' & H').
  apply Matches_seqs_cons in H'. destruct H' as (k6 & D4' & H').
  apply Matches_seqs_cons in H'. destruct H' as (k7 & B1' & H').
  apply Matches_seqs_nil in H'.
  apply Matches_boundary in B0, B0', B1, B1'.
  destruct B0 as [-> _], B0' as [-> _], B1 as [-> _], B1' as [-> _].
  subst e e'.
  assert (k1 = j1) by (eapply months_end_unique; eassumption). subst k1.
  assert (k2 = j2).
  { eapply quant_end_unique; [exact S1' | exact S1 | |];
      eapply beforeDigits; try eassumption; lia. }
  subst k2.
  assert (k3 = j3).
  { eapply quant_end_unique; [exact D1' | exact D1 | |];
      eapply afterDay; eassumption. }
  subst k3.
  assert (k4 = j4).
  { eapply quant_end_unique; [exact C' | exact C | |];
      eapply afterComma; eassumption. }
  subst k4.
  assert (k5 = j5).
  { eapply quant_end_unique; [exact S2' | exact S2 | |];
      eapply beforeDigits; try eassumption; lia. }
  subst k5.
  apply quant_exact_end in D4, D4'. lia.
Qed.

Lemma slashDate_end_unique (text : jsstring) (b e e' : nat) :
  occursAt slashDateRe text b e -> occursAt slashDateRe text b e' -> e = e'.
Proof.
  (* the digits are followed by a slash *)
  assert (beforeSlash : forall j k,
             Matches false text (RAtom slash) j k ->
             forall c, nth_error text j = Some c -> atomMatches false digit c = false).
  { intros j k A c Hc. apply Matches_atom in A.
    destruct A as (_ & c' & Hc' & Hs).
    assert (c' = c) by congruence. subst c'.
    apply slash_char in Hs. subst c. reflexivity. }
  unfold occursAt. change (ignoreCase slashDateRe) with false.
  change (pattern slashDateRe)
    with (seqs [RBoundary; RQuant digit 1 (Some 2); RAtom slash;
                RQuant digit 1 (Some 2); RAtom slash;
                RQuant digit 4 (Some 4); RBoundary]).
  intros [_ H] [_ H'].
  apply Matches_seqs_cons in H. destruct H as (j0 & B0 & H).
  apply Matches_seqs_cons in H. destruct H as (j1 & D1 & H).
  apply Matches_seqs_cons in H. destruct H as (j2 & A1 & H).
  apply Matches_seqs_cons in H. destruct H as (j3 & D2 & H).
  apply Matches_seqs_cons in H. destruct H as (j4 & A2 & H).
  apply Matches_seqs_cons in H. destruct H as (j5 & D4 & H).
  apply Matches_seqs_cons in H. destruct H as (j6 & B1 & H).
  apply Matches_seqs_nil in H.
  apply Matches_seqs_cons in H'. destruct H' as (k0 & B0' & H').
  apply Matches_seqs_cons in H'. destruct H' as (k1 & D1' & H').
  apply Matches_seqs_cons in H'. destruct H' as (k2 & A1' & H').
  apply Matches_seqs_cons in H'. destruct H' as (k3 & D2' & H').
  apply Matches_seqs_cons in H'. destruct H' as (k4 & A2' & H').
  apply Matches_seqs_cons in H'. destruct H' as (k5 & D4' & H').
  apply Matches_seqs_cons in H'. destruct H' as (k6 & B1' & H').
  apply Matches_seqs_nil in H'.
  apply Matches_boundary in B0, B0', B1, B1'.
  destruct B0 as [-> _], B0' as [-> _], B1 as [-> _], B1' as [-> _].
  subst e e'.
  assert (k1 = j1).
  { eapply quant_end_unique; [exact D1' | exact D1 | |];
      eapply beforeSlash; eassumption. }
  subst k1.
  apply Matches_atom in A1, A1'. destruct A1 as [E1 _], A1' as [E1' _].
  subst j2 k2.
  assert (k3 = j3).
  { eapply quant_end_unique; [exact D2' | exact D2 | |];
      eapply beforeSlash; eassumption. }
  subst k3.
  apply Matches_atom in A2, A2'. destruct A2 as [E2 _], A2' as [E2' _].
  subst j4 k4.
  apply quant_exact_end in D4, D4'. lia.
Qed.

Lemma isoDate_end (text : jsstring) (b e : nat) :
  occursAt isoDateRe text b e -> e = b + 10.
Proof.
  unfold occursAt. change (ignoreCase isoDateRe) with false.
  change (pattern isoDateRe)
    with (seqs [RBoundary; RQuant digit 4 (Some 4); RAtom hyphen;
                RQuant digit 2 (Some 2); RAtom hyphen;
                RQuant digit 2 (Some 2); RBoundary]).
  intros [_ H].
  apply Matches_seqs_cons in H. destruct H as (j0 & B0 & H).
  apply Matches_seqs_cons in H. destruct H as (j1 & D1 & H).
  apply Matches_seqs_cons in H. destruct H as (j2 & A1 & H).
  apply Matches_seqs_cons in H. destruct H as (j3 & D2 & H).
  apply Matches_seqs_cons in H. destruct H as (j4 & A2 & H).
  apply Matches_seqs_cons in H. destruct H as (j5 & D3 & H).
  apply Matches_seqs_cons in H. destruct H as (j6 & B1 & H).
  apply Matches_seqs_nil in H.
  apply Matches_boundary in B0, B1. destruct B0 as [-> _], B1 as [-> _].
  apply quant_exact_end in D1, D2, D3.
  apply Matches_atom in A1, A2. destruct A1 as [-> _], A2 as [-> _].
  lia.
Qed.

Lemma dateFamilies_end_unique (re : RegExp) (text : jsstring) (b e e' : nat) :
  In re dateFamilies ->
  occursAt re text b e -> occursAt re text b e' -> e = e'.
Proof.
  intros [<-|[<-|[<-|[]]]] H H'.
  - eapply longDate_end_unique; eassumption.
  - eapply slashDate_end_unique; eassumption.
  - apply isoDate_end in H, H'. lia.
Qed.

(** ** The date token *)

Lemma dateMatch_Some (text d : jsstring) :
  dateMatch text = Some d ->
  exists earlier re later b e,
    dateFamilies = earlier ++ re :: later
    /\ (forall re', In re' earlier -> forall b' e', ~ occursAt re' text b' e')
    /\ occursAt re text b e
    /\ (forall b' e', b' < b -> ~ occursAt re text b' e')
    /\ (forall e', occursAt re text b e' -> e' = e)
    /\ d = firstn (e - b) (skipn b text)
    /\ text = firstn b text ++ d ++ skipn e text.
Proof.
  unfold dateMatch.
  destruct (stringMatch text longDateRe) as [m1|] eqn:E1.
  { intros H. injection H as <-. apply stringMatch_Some in E1.
    destruct E1 as (b & e & Hocc & Hm & Htext & Hfirst).
    exists [], longDateRe, [slashDateRe; isoDateRe], b, e.
    split; [reflexivity|]. split; [intros re' []|].
    split; [assumption|]. split; [assumption|].
    split; [intros e' He'; eapply longDate_end_unique; eassumption|].
    split; assumption. }
  destruct (stringMatch text slashDateRe) as [m2|] eqn:E2.
  { intros H. injection H as <-. apply stringMatch_Some in E2.
    destruct E2 as (b & e & Hocc & Hm & Htext & Hfirst).
    exists [longDateRe], slashDateRe, [isoDateRe], b, e.
    split; [reflexivity|].
    split; [intros re' [<-|[]]; apply stringMatch_None; assumption|].
    split; [assumption|]. split; [assumption|].
    split; [intros e' He'; eapply slashDate_end_unique; eassumption|].
    split; assumption. }
  intros E3. apply stringMatch_Some in E3.
  destruct E3 as (b & e & Hocc & Hm & Htext & Hfirst).
  exists [longDateRe; slashDateRe], isoDateRe, [], b, e.
  split; [reflexivity|].
  split; [intros re' [<-|[<-|[]]]; apply stringMatch_None; assumption|].
  split; [assumption|]. split; [assumption|].
  split; [intros e' He'; apply isoDate_end in He', Hocc; lia|].
  split; assumption.
Qed.

Lemma dateMatch_None (text : jsstring) :
  dateMatch text = None ->
  forall re, In re dateFamilies -> forall b e, ~ occursAt re text b e.
Proof.
  unfold dateMatch.
  destruct (stringMatch text longDateRe) as [m1|] eqn:E1; [discriminate|].
  destruct (stringMatch text slashDateRe) as [m2|] eqn:E2; [discriminate|].
  intros E3 re [<-|[<-|[<-|[]]]]; apply stringMatch_None; assumption.
Qed.

(** A long-form date anywhere in the text is what is extracted,
    whatever else the text holds. *)
Lemma dateMatch_long_first (text : jsstring) (b e : nat) :
  occursAt longDateRe text b e ->
  exists b' e',
    b' <= b
    /\ occursAt longDateRe text b' e'
    /\ dateMatch text = Some (firstn (e' - b') (skipn b' text)).
Proof.
  intros Hocc. unfold dateMatch.
  destruct (stringMatch text longDateRe) as [m1|] eqn:E1.
  - apply stringMatch_Some in E1.
    destruct E1 as (b' & e' & Hocc' & -> & _ & Hfirst).
    exists b', e'. split; [|split; [assumption | reflexivity]].
    destruct (Nat.le_gt_cases b' b) as [H|H]; [assumption|].
    exfalso. apply (Hfirst b e H Hocc).
  - exfalso. exact (@stringMatch_None longDateRe text E1 b e Hocc).
Qed.

(** C4.  The date token of an emitted item is taken from its full
    trimmed text: it is the code units of the match of the first of
    the three patterns (long form, slash, ISO, in that order) that
    matches anywhere in the text, at the leftmost index at which that
    pattern matches (where it matches in one way only), and it is
    absent exactly when none of the three matches anywhere; when the
    long-form pattern matches somewhere, the token is a long-form
    match, whatever the other patterns match and where. *)
Theorem extractedDate_first_family {host : Host}
  (rawContent : list Raw.t) (competitorName : jsstring) (item : Item.t) :
  In item (processContent rawContent competitorName) ->
  let text := Item.fullContent item in
  (exists r, In r rawContent /\ text = trim (Raw.text r))
  /\ (forall d,
         Item.extractedDate item = Some d ->
         exists earlier re later b e,
           dateFamilies = earlier ++ re :: later
           /\ (forall re', In re' earlier ->
                           forall b' e', ~ occursAt re' text b' e')
           /\ occursAt re text b e
           /\ (forall b' e', b' < b -> ~ occursAt re text b' e')
           /\ (forall e', occursAt re text b e' -> e' = e)
           /\ d = firstn (e - b) (skipn b text)
           /\ text = firstn b text ++ d ++ skipn e text)
  /\ (Item.extractedDate item = None ->
      forall re, In re dateFamilies -> forall b e, ~ occursAt re text b e)
  /\ (forall b e,
         occursAt longDateRe text b e ->
         exists b' e',
           b' <= b
           /\ occursAt longDateRe text b' e'
           /\ Item.extractedDate item = Some (firstn (e' - b') (skipn b' text))).
Proof.
  intros Hin. apply processContent_spec in Hin.
  destruct Hin as (i & r & (Hi & _) & ->). simpl.
  split; [|split; [|split]].
  - exists r. split; [eapply nth_error_In; eassumption | reflexivity].
  - apply dateMatch_Some.
  - apply dateMatch_None.
  - apply dateMatch_long_first.
Qed.

(** ** Targeted extraction *)

Lemma evaluateElement_text (el : El.t) :
  Raw.text (evaluateElement el) = visibleText el.
Proof.
  unfold evaluateElement, visibleText. simpl.
  destruct (El.innerText el) as [t|]; [|reflexivity].
  destruct (trim t); reflexivity.
Qed.

Lemma extractStep_recordsOf (content : list Raw.t) (handle : ElementHandle) :
  extractStep content handle = content ++ recordsOf handle.
Proof.
  unfold extractStep, recordsOf. destruct handle as [el|message].
  - rewrite evaluateElement_text.
    destruct (Nat.ltb_spec 20 (length (visibleText el))) as [H|H].
    + destruct (visibleText el); [simpl in H; lia | reflexivity].
    + rewrite andb_false_r, app_nil_r. reflexivity.
  - rewrite app_nil_r. reflexivity.
Qed.

Lemma fold_extractStep (handles : list ElementHandle) (content : list Raw.t) :
  fold_left extractStep handles content = content ++ flat_map recordsOf handles.
Proof.
  revert content. induction handles as [|h handles IH]; intros content; simpl.
  - rewrite app_nil_r. reflexivity.
  - rewrite IH, extractStep_recordsOf, <- app_assoc. reflexivity.
Qed.

Lemma extractContentFromElements_flat_map (elements : list ElementHandle) :
  extractContentFromElements elements
  = flat_map recordsOf (firstn 20 elements).
Proof.
  unfold extractContentFromElements. rewrite fold_extractStep. simpl app.
  f_equal. destruct (Nat.le_ge_cases (length elements) 20) as [H|H].
  - rewrite Nat.min_l by assumption.
    rewrite !firstn_all2 by lia. reflexivity.
  - rewrite Nat.min_r by assumption. reflexivity.
Qed.

Lemma length_flat_map_recordsOf (handles : list ElementHandle) :
  length (flat_map recordsOf handles) <= length handles.
Proof.
  induction handles as [|h handles IH]; simpl; [lia|].
  rewrite length_app.
  assert (length (recordsOf h) <= 1).
  { unfold recordsOf. destruct h as [el|]; [|simpl; lia].
    destruct (20 <? length (visibleText el)); simpl; lia. }
  lia.
Qed.

(** C8 as the code has it.  Only the first 20 elements are looked at,
    so at most 20 records come back; an element gives a record exactly
    when it is among the first 20, its evaluation does not throw, and
    its trimmed visible text has more than 20 code units: a text of
    exactly 20 code units is skipped, one of 21 gives a record. *)
Theorem extractContentFromElements_spec (elements : list ElementHandle) :
  length (extractContentFromElements elements) <= 20
  /\ extractContentFromElements elements
     = extractContentFromElements (firstn 20 elements)
  /\ (forall record,
         In record (extractContentFromElements elements)
         <-> exists i el,
               i < 20
               /\ nth_error elements i = Some (Returns el)
               /\ 20 < length (visibleText el)
               /\ record = evaluateElement el)
  /\ (forall el,
         length (visibleText el) = 20 ->
         extractContentFromElements [Returns el] = [])
  /\ (forall el,
         length (visibleText el) = 21 ->
         extractContentFromElements [Returns el] = [evaluateElement el]).
Proof.
  split; [|split; [|split; [|split]]].
  - rewrite extractContentFromElements_flat_map.
    eapply Nat.le_trans; [apply length_flat_map_recordsOf|].
    apply firstn_le_length.
  - rewrite !extractContentFromElements_flat_map, firstn_firstn. reflexivity.
  - intros record. rewrite extractContentFromElements_flat_map, in_flat_map.
    split.
    + intros (h & Hh & Hr). apply In_nth_error in Hh. destruct Hh as (i & Hi).
      assert (Hlt : i < 20).
      { assert (i < length (firstn 20 elements))
          by (apply nth_error_Some; congruence).
        rewrite length_firstn in H. lia. }
      rewrite nth_error_firstn in Hi.
      destruct (Nat.ltb_spec i 20) as [_|]; [|lia].
      unfold recordsOf in Hr. destruct h as [el|]; [|destruct Hr].
      destruct (Nat.ltb_spec 20 (length (visibleText el))) as [Hl|]; [|destruct Hr].
      destruct Hr as [<-|[]]. exists i, el. auto.
    + intros (i & el & Hlt & Hi & Hl & ->). exists (Returns el). split.
      * apply nth_error_In with (n := i). rewrite nth_error_firstn.
        destruct (Nat.ltb_spec i 20); [assumption | lia].
      * unfold recordsOf.
        destruct (Nat.ltb_spec 20 (length (visibleText el))); [left; reflexivity | lia].
  - intros el H. rewrite extractContentFromElements_flat_map. simpl.
    rewrite H. reflexivity.
  - intros el H. rewrite extractContentFromElements_flat_map. simpl.
    rewrite H. reflexivity.
Qed.

(** ** Scraping *)

Section ScraperProps.

Context {host : Host}.

Lemma scrapeCompetitor_closed (browser : Browser) (opened : nat)
  (key : CompetitorKey) (page : Page.t) :
  newPage browser opened = Returns page ->
  Page.close page = Returns tt ->
  scrapeCompetitor browser opened key
  = Returns match scrapeBody page (competitors key) with
            | Returns result => result
            | Throws message => errorResult (competitors key) message
            end.
Proof.
  intros Hopen Hclose. unfold scrapeCompetitor.
  rewrite Hopen. simpl bind. rewrite Hclose. reflexivity.
Qed.

Lemma scrapeBody_competitor (page : Page.t) (competitor : Target.t)
  (result : Result.t) :
  scrapeBody page competitor = Returns result ->
  Result.competitor result = Target.name competitor
  /\ Result.error result = None
  /\ exists content,
       Result.items result = processContent content (Target.name competitor)
       /\ Result.itemCount result = length (Result.items result).
Proof.
  unfold scrapeBody.
  destruct (Page.setUserAgent page userAgent) as [[]|]; [|discriminate].
  simpl bind at 1.
  destruct (Page.goto page (Target.url competitor) 30000%N) as [[]|];
    [|discriminate].
  simpl bind at 1.
  destruct (Page.waitForTimeout page 3000%N) as [[]|]; [|discriminate].
  simpl bind at 1.
  match goal with
  | |- bind ?c _ = _ -> _ => destruct c as [content|]; [|discriminate]
  end.
  simpl bind. intros H. injection H as <-. simpl.
  split; [reflexivity|]. split; [reflexivity|].
  exists content. split; reflexivity.
Qed.

Lemma scrapeCompetitor_competitor (browser : Browser) (opened : nat)
  (key : CompetitorKey) (page : Page.t) :
  newPage browser opened = Returns page ->
  Page.close page = Returns tt ->
  exists result,
    scrapeCompetitor browser opened key = Returns result
    /\ Result.competitor result = Target.name (competitors key).
Proof.
  intros Hopen Hclose.
  rewrite (scrapeCompetitor_closed _ _ key Hopen Hclose).
  eexists. split; [reflexivity|].
  destruct (scrapeBody page (competitors key)) as [result|message] eqn:E.
  - apply scrapeBody_competitor in E. apply E.
  - reflexivity.
Qed.

Lemma scrapeAll_all (browser : Browser) (keys : list CompetitorKey) :
  forall opened results,
    (forall n, opened <= n < opened + length keys ->
               exists page, newPage browser n = Returns page
                            /\ Page.close page = Returns tt) ->
    map Result.competitor (fst (scrapeAll browser keys opened results))
    = map Result.competitor results
      ++ map (fun key => Target.name (competitors key)) keys
    /\ snd (scrapeAll browser keys opened results) = Returns tt.
Proof.
  induction keys as [|key keys IH]; intros opened results Hpages; simpl.
  - rewrite app_nil_r. split; reflexivity.
  - destruct (Hpages opened) as (page & Hopen & Hclose); [simpl; lia|].
    destruct (scrapeCompetitor_competitor browser opened key Hopen Hclose)
      as (result & -> & Hname).
    destruct (IH (S opened) (results ++ [result])) as [Hmap Hend].
    + intros n Hn. apply Hpages. simpl. lia.
    + split; [|assumption].
      rewrite Hmap, map_app, <- app_assoc. simpl. rewrite Hname. reflexivity.
Qed.

(** C9 as the code has it.  When the page has been opened and is
    closed without failure, a failure of the fetch or of the
    extraction does not leave [scrapeCompetitor]: it returns a
    result with the message of the failure, no item and a count of
    0; a navigation that throws (a timeout, for one) is such a
    failure; and when every page is opened and closed without
    failure, [run] collects one result for each competitor, in
    order, whatever failed in between. *)
Theorem scrape_failure_contained (browser : Browser) :
  (forall opened key page message,
      newPage browser opened = Returns page ->
      Page.close page = Returns tt ->
      scrapeBody page (competitors key) = Throws message ->
      exists result,
        scrapeCompetitor browser opened key = Returns result
        /\ Result.competitor result = Target.name (competitors key)
        /\ Result.error result = Some message
        /\ Result.itemCount result = 0
        /\ Result.items result = [])
  /\ (forall page competitor message,
         Page.setUserAgent page userAgent = Returns tt ->
         Page.goto page (Target.url competitor) 30000%N = Throws message ->
         scrapeBody page competitor = Throws message)
  /\ ((forall n, n < length competitorKeys ->
                 exists page, newPage browser n = Returns page
                              /\ Page.close page = Returns tt) ->
      map Result.competitor (run browser)
      = map (fun key => Target.name (competitors key)) competitorKeys
      /\ snd (scrapeAll browser competitorKeys 0 []) = Returns tt).
Proof.
  split; [|split].
  - intros opened key page message Hopen Hclose Hbody.
    rewrite (scrapeCompetitor_closed _ _ key Hopen Hclose), Hbody.
    eexists. split; [reflexivity|]. simpl. auto.
  - intros page competitor message Hua Hgoto. unfold scrapeBody.
    rewrite Hua. simpl bind at 1. rewrite Hgoto. reflexivity.
  - intros Hpages. unfold run.
    destruct (@scrapeAll_all browser competitorKeys 0 []) as [Hmap Hend].
    + intros n Hn. apply Hpages. lia.
    + split; assumption.
Qed.

End ScraperProps.

(** ** Identifiers *)

(** The items of a result of [scrapeCompetitor] are what
    [processContent] made of some content under the competitor's
    name; the result of the [catch] block holds what it makes of no
    content. *)
Lemma scrapeCompetitor_batch {host : Host} (browser : Browser) (opened : nat)
  (key : CompetitorKey) (result : Result.t) :
  scrapeCompetitor browser opened key = Returns result ->
  exists content,
    Result.items result = processContent content (Target.name (competitors key)).
Proof.
  unfold scrapeCompetitor. cbv zeta.
  destruct (newPage browser opened) as [page|message]; [|discriminate].
  simpl bind. destruct (Page.close page) as [[]|message]; [|discriminate].
  intros H. injection H as <-.
  destruct (scrapeBody page (competitors key)) as [result|message] eqn:B.
  - apply scrapeBody_competitor in B. destruct B as (_ & _ & content & E & _).
    exists content. exact E.
  - exists []. reflexivity.
Qed.

(** The names of the configured competitors are ASCII strings, and a
    host that lowercases ASCII strings as the language does makes the
    key of each of its name. *)
Lemma configured_name_lowercased {host : Host} (key : CompetitorKey) :
  lowerCasesAscii host ->
  toLowerCase (Target.name (competitors key)) = keyString key.
Proof.
  intros law. rewrite law; destruct key; reflexivity.
Qed.

Lemma asciiHost_lowerCasesAscii : lowerCasesAscii asciiHost.
Proof. intros s _. reflexivity. Qed.

(** C6.  The identifier of an emitted item is the lowercased name the
    batch was processed under, an underscore, and the decimal index
    the item's record has in the batch as it came in, records that
    were rejected counted; so the identifiers of one returned
    sequence are pairwise distinct.  The lowercased names of the
    configured competitors are their keys, which are in lower case
    themselves.  So, [toLowerCase] being the language's on ASCII
    strings, the identifier of an item of a configured competitor is
    the competitor's key, an underscore and that index, both for a
    batch processed under the competitor's name and for the items of
    a result of [scrapeCompetitor], whose identifiers are pairwise
    distinct. *)
Theorem item_id_from_input_index {host : Host}
  (rawContent : list Raw.t) (competitorName : jsstring) :
  let output := processContent rawContent competitorName in
  (forall item,
      In item output ->
      exists i r,
        nth_error rawContent i = Some r
        /\ (forall j r', j < i -> nth_error rawContent j = Some r' ->
                         trim (Raw.text r') <> trim (Raw.text r))
        /\ Item.fullContent item = trim (Raw.text r)
        /\ Item.id item
           = toLowerCase competitorName ++ js "_" ++ numberToString i)
  /\ NoDup (map Item.id output)
  /\ (forall i j a b,
         nth_error output i = Some a -> nth_error output j = Some b ->
         i <> j -> Item.id a <> Item.id b)
  /\ (forall key,
         asciiToLowerCase (Target.name (competitors key)) = keyString key
         /\ asciiToLowerCase (keyString key) = keyString key)
  /\ (lowerCasesAscii host ->
      forall key,
        (competitorName = Target.name (competitors key) ->
         forall item,
           In item output ->
           exists i r,
             nth_error rawContent i = Some r
             /\ Item.fullContent item = trim (Raw.text r)
             /\ Item.id item = keyString key ++ js "_" ++ numberToString i)
        /\ (forall browser opened result,
               scrapeCompetitor browser opened key = Returns result ->
               NoDup (map Item.id (Result.items result))
               /\ exists content,
                    Result.items result
                    = processContent content (Target.name (competitors key))
                    /\ forall item,
                         In item (Result.items result) ->
                         exists i r,
                           nth_error content i = Some r
                           /\ Item.fullContent item = trim (Raw.text r)
                           /\ Item.id item
                              = keyString key ++ js "_" ++ numberToString i)).
Proof.
  assert (Hid : forall (content : list Raw.t) (name : jsstring) (item : Item.t),
             In item (processContent content name) ->
             exists i r,
               nth_error content i = Some r
               /\ (forall j r', j < i -> nth_error content j = Some r' ->
                                trim (Raw.text r') <> trim (Raw.text r))
               /\ Item.fullContent item = trim (Raw.text r)
               /\ Item.id item = toLowerCase name ++ js "_" ++ numberToString i).
  { intros content name item Hin. apply processContent_spec in Hin.
    destruct Hin as (i & r & (Hi & _ & Hfresh) & ->).
    exists i, r. split; [assumption|]. split; [|split; reflexivity].
    intros j r' Hj Hr' E. apply (Hfresh j r' Hj Hr').
    unfold recordText. rewrite E. reflexivity. }
  cbv zeta. split; [|split; [|split; [|split]]].
  - apply Hid.
  - apply processContent_ids_NoDup.
  - intros i j a b Ha Hb Hij E.
    pose proof (processContent_ids_NoDup competitorName rawContent) as N.
    rewrite NoDup_nth_error in N. apply Hij, N.
    + rewrite length_map. apply nth_error_Some. congruence.
    + rewrite !nth_error_map, Ha, Hb. simpl. congruence.
  - intros []; split; reflexivity.
  - intros law key. split.
    + intros -> item Hin.
      destruct (Hid _ _ _ Hin) as (i & r & Hi & _ & Ht & E).
      exists i, r. split; [assumption|]. split; [assumption|].
      rewrite E, (configured_name_lowercased key law). reflexivity.
    + intros browser opened result H.
      apply scrapeCompetitor_batch in H. destruct H as (content & E).
      split; [rewrite E; apply processContent_ids_NoDup|].
      exists content. split; [assumption|].
      intros item Hin. rewrite E in Hin.
      destruct (Hid _ _ _ Hin) as (i & r & Hi & _ & Ht & Ei).
      exists i, r. split; [assumption|]. split; [assumption|].
      rewrite Ei, (configured_name_lowercased key law). reflexivity.
Qed.

(** ** The properties at closed inputs *)

(** The release note of the examples: its title is its first line, it
    holds the keywords [New] and [Release] ([launched] is not
    [launch]), and its date is the long-form one. *)
Lemma releaseItem_fields :
  Item.title releaseItem = js "New Feature Release"
  /\ Item.isLikelyUpdate releaseItem = true
  /\ Item.extractedDate releaseItem = Some (js "January 5, 2025")
  /\ Item.contentLength releaseItem = 72
  /\ isUpdate (js "We launched dark mode support today.") = false.
Proof. repeat split; vm_compute; reflexivity. Qed.

Lemma processContent_sorted_stable_witness :
  (~ (Item.isLikelyUpdate maintenanceItem = true
      /\ Item.isLikelyUpdate releaseItem = false))
  /\ (Item.isLikelyUpdate releaseItem = Item.isLikelyUpdate maintenanceItem ->
      Item.contentLength maintenanceItem <= Item.contentLength releaseItem).
Proof.
  destruct (processContent_sorted_stable (host := asciiHost) exampleBatch (js "Braze"))
    as [H _].
  apply (H 0 releaseItem maintenanceItem); vm_compute; reflexivity.
Defined.

Lemma processContent_min_length_witness :
  30 <= Item.contentLength thirtyItem
  /\ Item.id thirtyItem <> js "braze_0"
  /\ In thirtyItem (processContent (host := asciiHost) boundaryBatch (js "Braze")).
Proof.
  destruct (processContent_min_length (host := asciiHost) boundaryBatch (js "Braze"))
    as [Hlen [Hshort Hlong]].
  assert (Hin : In thirtyItem
                  (processContent (host := asciiHost) boundaryBatch (js "Braze"))).
  { apply (Hlong 1 (rawOf thirtyChars)).
    - reflexivity.
    - vm_compute. lia.
    - intros j r' Hj Hr'. destruct j as [|j]; [|lia].
      injection Hr' as <-. vm_compute. discriminate. }
  split; [|split].
  - apply (Hlen thirtyItem Hin).
  - apply (Hshort 0 (rawOf twentyNineChars)).
    + reflexivity.
    + vm_compute. lia.
    + exact Hin.
  - exact Hin.
Defined.

Lemma processContent_no_duplicates_witness :
  substring 0 100 (Item.fullContent releaseItem)
  <> substring 0 100 (Item.fullContent maintenanceItem)
  /\ Item.id releaseItem <> js "braze_2"
  /\ Item.id maintenanceItem <> js "braze_2"
  /\ In (makeItem (host := asciiHost) (js "Braze") 0 releaseNote)
       (processContent (host := asciiHost)
          [rawOf releaseNote; rawOf releaseNote] (js "Braze")).
Proof.
  destruct (processContent_no_duplicates (host := asciiHost) exampleBatch (js "Braze"))
    as [Hpair [Hlater _]].
  destruct (processContent_no_duplicates (host := asciiHost) [] (js "Braze"))
    as [_ [_ Hfirst]].
  split; [|split; [|split]].
  - apply (Hpair 0 1 releaseItem maintenanceItem);
      [vm_compute; reflexivity | vm_compute; reflexivity | discriminate].
  - apply (Hlater 1 2 (rawOf releaseNote) (rawOf (releaseNote ++ js "  ")));
      [lia | reflexivity | reflexivity | vm_compute; reflexivity
       | vm_compute; left; reflexivity].
  - apply (Hlater 1 2 (rawOf releaseNote) (rawOf (releaseNote ++ js "  ")));
      [lia | reflexivity | reflexivity | vm_compute; reflexivity
       | vm_compute; right; left; reflexivity].
  - apply (Hfirst (rawOf releaseNote) [rawOf releaseNote]).
    vm_compute. lia.
Defined.

Lemma maintenanceItem_emitted :
  In maintenanceItem (processContent (host := asciiHost) exampleBatch (js "Braze")).
Proof. vm_compute. right. left. reflexivity. Qed.

Lemma releaseItem_emitted :
  In releaseItem (processContent (host := asciiHost) exampleBatch (js "Braze")).
Proof. vm_compute. left. reflexivity. Qed.

(** An ISO date at index 20 and a long-form date at index 43: the
    long-form date is the token. *)
Lemma extractedDate_first_family_witness :
  (exists b' e',
      b' <= 43
      /\ occursAt longDateRe (Item.fullContent maintenanceItem) b' e'
      /\ Item.extractedDate maintenanceItem
         = Some (firstn (e' - b') (skipn b' (Item.fullContent maintenanceItem))))
  /\ Item.extractedDate maintenanceItem = Some (js "January 31, 2025")
  /\ occursAt isoDateRe (Item.fullContent maintenanceItem) 20 30.
Proof.
  destruct (extractedDate_first_family (host := asciiHost) exampleBatch (js "Braze")
              maintenanceItem maintenanceItem_emitted) as (_ & _ & _ & H).
  split; [|split].
  - apply (H 43 59).
    split; [vm_compute; lia|]. apply matcher_spec. vm_compute. left. reflexivity.
  - vm_compute. reflexivity.
  - split; [vm_compute; lia|]. apply matcher_spec. vm_compute. left. reflexivity.
Defined.

Lemma isLikelyUpdate_whole_word_witness :
  containsUpdateWord (Item.fullContent releaseItem)
  /\ ~ containsUpdateWord (Item.fullContent maintenanceItem).
Proof.
  split.
  - destruct (isLikelyUpdate_whole_word (host := asciiHost) exampleBatch (js "Braze")
                releaseItem releaseItem_emitted) as (_ & H & _).
    apply H. vm_compute. reflexivity.
  - destruct (isLikelyUpdate_whole_word (host := asciiHost) exampleBatch (js "Braze")
                maintenanceItem maintenanceItem_emitted) as (_ & H & _).
    intros C. apply H in C. vm_compute in C. discriminate.
Defined.

(** The record at index 0 is rejected and the release note keeps
    index 1. *)
Lemma item_id_from_input_index_witness :
  Item.id releaseItem = js "braze_1"
  /\ Item.id releaseItem <> Item.id maintenanceItem
  /\ (exists i r,
        nth_error exampleBatch i = Some r
        /\ Item.fullContent releaseItem = trim (Raw.text r)
        /\ Item.id releaseItem
           = asciiToLowerCase (js "Braze") ++ js "_" ++ numberToString i)
  /\ exists i r,
       nth_error exampleBatch i = Some r
       /\ Item.fullContent releaseItem = trim (Raw.text r)
       /\ Item.id releaseItem = keyString braze ++ js "_" ++ numberToString i.
Proof.
  destruct (item_id_from_input_index (host := asciiHost) exampleBatch (js "Braze"))
    as (Hid & _ & Hpair & _ & Hkey).
  split; [reflexivity|]. split; [|split].
  - apply (Hpair 0 1 releaseItem maintenanceItem);
      [vm_compute; reflexivity | vm_compute; reflexivity | discriminate].
  - destruct (Hid releaseItem releaseItem_emitted) as (i & r & Hi & _ & Ht & Ei).
    exists i, r. auto.
  - destruct (Hkey asciiHost_lowerCasesAscii braze) as (H & _).
    apply (H eq_refl releaseItem releaseItem_emitted).
Defined.

Lemma extractContentFromElements_spec_witness :
  extractContentFromElements [Returns (elementOf twentyChars)] = []
  /\ extractContentFromElements [Returns (elementOf twentyOneChars)]
     = [evaluateElement (elementOf twentyOneChars)].
Proof.
  split.
  - destruct (extractContentFromElements_spec []) as (_ & _ & _ & H & _).
    apply H. reflexivity.
  - destruct (extractContentFromElements_spec []) as (_ & _ & _ & _ & H).
    apply H. reflexivity.
Defined.

Lemma scrape_failure_contained_witness :
  (exists result,
      scrapeCompetitor (host := asciiHost) timeoutBrowser 0 braze = Returns result
      /\ Result.competitor result = js "Braze"
      /\ Result.error result = Some timeoutMessage
      /\ Result.itemCount result = 0
      /\ Result.items result = [])
  /\ map Result.competitor (run (host := asciiHost) timeoutBrowser)
     = [js "Braze"; js "Iterable"; js "Klaviyo"].
Proof.
  destruct (scrape_failure_contained (host := asciiHost) timeoutBrowser)
    as (Hfail & Hgoto & Hrun).
  split.
  - apply (Hfail 0 braze timeoutPage timeoutMessage);
      [reflexivity | reflexivity |].
    apply Hgoto; reflexivity.
  - apply Hrun. intros n Hn.
    destruct n as [|n].
    + exists timeoutPage. split; reflexivity.
    + exists healthyPage. split; reflexivity.
Defined.

Lemma sentinelItem_emitted :
  In sentinelItem (processContent (host := asciiHost) [rawOf sentinelNote] (js "Braze")).
Proof. vm_compute. left. reflexivity. Qed.

Lemma processContent_title_from_first_line_witness :
  exists line0 lines more,
    split newline (Item.fullContent sentinelItem) = line0 :: more
    /\ filter (fun line => truthy (trim line))
         (split newline (Item.fullContent sentinelItem)) = line0 :: lines
    /\ Item.title sentinelItem
       = (if 100 <? length (trim line0)
          then firstn 100 (trim line0) ++ ellipsis else trim line0)
    /\ (Item.title sentinelItem = noTitle -> trim line0 = noTitle).
Proof.
  exact (processContent_title_from_first_line (host := asciiHost)
           [rawOf sentinelNote] (js "Braze") sentinelItem sentinelItem_emitted).
Defined.

(** *** Where the specification says otherwise *)

(** An element whose trimmed visible text has exactly 20 code units
    gives no record. *)
Lemma exactly_20_is_skipped :
  length (visibleText (elementOf twentyChars)) = 20
  /\ extractContentFromElements [Returns (elementOf twentyChars)] = [].
Proof. split; reflexivity. Qed.

(** The navigation fails and closing the page fails: the failure of
    [page.close()] leaves [scrapeCompetitor], and [run] stops with no
    result, though two more competitors were to be scraped. *)
Lemma close_failure_propagates :
  Page.goto lostPage (Target.url (competitors braze)) 30000%N
  = Throws timeoutMessage
  /\ scrapeCompetitor (host := asciiHost) lostBrowser 0 braze
     = Throws closedMessage
  /\ run (host := asciiHost) lostBrowser = [].
Proof. repeat split. Qed.

(** An emitted item whose title reads as the sentinel. *)
Lemma sentinel_title_emitted :
  In sentinelItem
    (processContent (host := asciiHost) [rawOf sentinelNote] (js "Braze"))
  /\ Item.title sentinelItem = noTitle.
Proof. split; [vm_compute; left; reflexivity | reflexivity]. Qed.

(* ================================================================= *)
(** * Part III: further properties of the code *)
(* ================================================================= *)

(** ** Titles *)

(** A title is the sentinel or made from a trimmed, non-empty line. *)
Lemma extractTitle_cases (text : jsstring) :
  extractTitle text = noTitle
  \/ exists t0,
       t0 <> [] /\ trim t0 = t0 /\ ~ In newline t0
       /\ extractTitle text
          = if 100 <? length t0 then firstn 100 t0 ++ ellipsis else t0.
Proof.
  unfold extractTitle.
  destruct (filter (fun line => truthy (trim line)) (split newline text))
    as [|line0 lines] eqn:F; [left; reflexivity|].
  right. exists (trim line0).
  assert (Hin : In line0 (filter (fun line => truthy (trim line)) (split newline text)))
    by (rewrite F; left; reflexivity).
  apply filter_In in Hin. destruct Hin as [Hsplit Htruthy].
  apply truthy_true in Htruthy.
  split; [assumption|]. split; [apply trim_idem|]. split.
  - intros H. apply trim_incl in H. revert H.
    apply split_lines_no_sep with (s := text). assumption.
  - cbv zeta. rewrite substring_prefix. reflexivity.
Qed.

(** A line cut to 100 code units and the ellipsis. *)
Lemma truncated_line (t0 : jsstring) :
  t0 <> [] -> trim t0 = t0 -> 100 < length t0 ->
  length (firstn 100 t0 ++ ellipsis) = 103
  /\ trim (firstn 100 t0 ++ ellipsis) = firstn 100 t0 ++ ellipsis
  /\ (~ In newline t0 -> ~ In newline (firstn 100 t0 ++ ellipsis)).
Proof.
  intros Hne Ht Hlong.
  pose proof (trim_trimmedStart t0) as Hhead. rewrite Ht in Hhead.
  destruct t0 as [|c u]; [congruence|]. simpl in Hhead.
  split; [|split].
  - rewrite length_app, length_firstn, ellipsis_value. simpl length in *. lia.
  - change 100 with (S 99). rewrite firstn_cons, ellipsis_value.
    replace ((c :: firstn 99 u) ++ [46; 46; 46]%N)
      with (c :: (firstn 99 u ++ [46; 46]%N) ++ [46%N])
      by (simpl; rewrite <- app_assoc; reflexivity).
    apply trim_fixed; [assumption | reflexivity].
  - intros Hnl H. apply in_app_iff in H. destruct H as [H|H].
    + apply Hnl. apply In_firstn with (n := 100). exact H.
    + rewrite ellipsis_value in H. simpl in H. unfold newline in H.
      intuition discriminate.
Qed.

(** X1.  Deriving a title from a derived title gives the same title,
    for every text: also for a title that was cut to 100 code units
    and the ellipsis, and for the sentinel. *)
Theorem extractTitle_fixpoint (text : jsstring) :
  extractTitle (extractTitle text) = extractTitle text.
Proof. apply extractTitle_idempotent. Qed.

(** X2.  A title is never empty, holds no line break, has at most 103
    code units (100 and the ellipsis), and neither starts nor ends
    with white space. *)
Theorem extractTitle_shape (text : jsstring) :
  extractTitle text <> []
  /\ ~ In newline (extractTitle text)
  /\ length (extractTitle text) <= 103
  /\ trim (extractTitle text) = extractTitle text.
Proof.
  destruct (extractTitle_cases text) as [E|(t0 & Hne & Ht & Hnl & E)]; rewrite E.
  - split; [discriminate|]. split; [|split; [vm_compute; lia | reflexivity]].
    vm_compute. intuition discriminate.
  - destruct (Nat.ltb_spec 100 (length t0)) as [Hlong|Hshort].
    + destruct (truncated_line Hne Ht Hlong) as (Hlen & Htrim & Hline).
      split; [|split; [|split]].
      * intros C. rewrite C in Hlen. discriminate.
      * apply Hline. assumption.
      * lia.
      * assumption.
    + split; [assumption|]. split; [assumption|]. split; [lia | assumption].
Qed.

(** ** The order of the returned items *)

Lemma StronglySorted_nth_error (A : Type) (R : A -> A -> Prop) (l : list A) :
  StronglySorted R l ->
  forall i j a b,
    i < j -> nth_error l i = Some a -> nth_error l j = Some b -> R a b.
Proof.
  induction 1 as [|x l Hs IH Hall]; intros i j a b Hij Ha Hb.
  - destruct i; discriminate.
  - destruct j as [|j]; [lia|]. simpl in Hb. destruct i as [|i].
    + simpl in Ha. injection Ha as <-.
      rewrite Forall_forall in Hall. apply Hall.
      eapply nth_error_In. eassumption.
    + simpl in Ha. apply (IH i j); [lia | assumption | assumption].
Qed.

(** In a sorted list the likely updates come first, the others after. *)
Lemma updates_first (l : list Item.t) :
  StronglySorted mayPrecede l ->
  l = filter Item.isLikelyUpdate l
      ++ filter (fun item => negb (Item.isLikelyUpdate item)) l.
Proof.
  induction 1 as [|a t Hs IH Hall]; [reflexivity|]. simpl.
  destruct (Item.isLikelyUpdate a) eqn:Fa; simpl.
  - f_equal. exact IH.
  - assert (Hnone : forall b, In b t -> Item.isLikelyUpdate b = false).
    { intros b Hb. rewrite Forall_forall in Hall. specialize (Hall b Hb).
      apply mayPrecede_spec in Hall. destruct Hall as [Hall _].
      destruct (Item.isLikelyUpdate b); [exfalso; apply Hall; auto | reflexivity]. }
    assert (E1 : filter Item.isLikelyUpdate t = []).
    { clear -Hnone. induction t as [|b t IHt]; [reflexivity|]. simpl.
      rewrite (Hnone b (or_introl eq_refl)). apply IHt.
      intros b' Hb'. apply Hnone. right. assumption. }
    assert (E2 : filter (fun item => negb (Item.isLikelyUpdate item)) t = t).
    { clear -Hnone. induction t as [|b t IHt]; [reflexivity|]. simpl.
      rewrite (Hnone b (or_introl eq_refl)). simpl. f_equal. apply IHt.
      intros b' Hb'. apply Hnone. right. assumption. }
    rewrite E1, E2. reflexivity.
Qed.

Lemma processContent_strongly_sorted {host : Host}
  (rawContent : list Raw.t) (competitorName : jsstring) :
  StronglySorted mayPrecede (processContent rawContent competitorName).
Proof.
  unfold processContent.
  apply sort_strongly_sorted; [exact compareItems_total | exact compareItems_trans].
Qed.

(** X3.  The order holds between any two items of the returned
    sequence, not only between neighbours: an item further back is
    never a likely update when an item in front of it is not, and with
    equal flags it is not longer.  So the sequence is its likely
    updates followed by its other items. *)
Theorem processContent_globally_ordered {host : Host}
  (rawContent : list Raw.t) (competitorName : jsstring) :
  let output := processContent rawContent competitorName in
  (forall i j a b,
      i < j -> nth_error output i = Some a -> nth_error output j = Some b ->
      ~ (Item.isLikelyUpdate b = true /\ Item.isLikelyUpdate a = false)
      /\ (Item.isLikelyUpdate a = Item.isLikelyUpdate b ->
          Item.contentLength b <= Item.contentLength a))
  /\ output
     = filter Item.isLikelyUpdate output
       ++ filter (fun item => negb (Item.isLikelyUpdate item)) output.
Proof.
  cbv zeta. split.
  - intros i j a b Hij Ha Hb. apply mayPrecede_spec.
    eapply StronglySorted_nth_error; [|exact Hij|exact Ha|exact Hb].
    apply processContent_strongly_sorted.
  - apply updates_first. apply processContent_strongly_sorted.
Qed.

Lemma processContent_globally_ordered_witness :
  (~ (Item.isLikelyUpdate maintenanceItem = true
      /\ Item.isLikelyUpdate releaseItem = false))
  /\ (Item.isLikelyUpdate releaseItem = Item.isLikelyUpdate maintenanceItem ->
      Item.contentLength maintenanceItem <= Item.contentLength releaseItem).
Proof.
  destruct (processContent_globally_ordered (host := asciiHost) exampleBatch (js "Braze"))
    as [H _].
  apply (H 0 1 releaseItem maintenanceItem); [lia | |]; vm_compute; reflexivity.
Defined.

(** ** How many items come back *)

Section Counting.

Context {host : Host}.
Variable competitorName : jsstring.

Lemma filter_snoc (A : Type) (f : A -> bool) (l : list A) (x : A) :
  filter f (l ++ [x]) = filter f l ++ (if f x then [x] else []).
Proof. rewrite filter_app. reflexivity. Qed.

Lemma filter_length_bound (A : Type) (f : A -> bool) (l : list A) :
  length (filter f l) <= length l.
Proof.
  induction l as [|x l IH]; simpl; [lia|].
  destruct (f x); simpl; lia.
Qed.

Lemma processedItems_length (rawContent : list Raw.t) :
  length (processedItems rawContent competitorName)
  <= length (filter isLongRecord rawContent).
Proof.
  unfold processedItems.
  apply (forEach_invariant (processRecord competitorName)
           (fun pre st => length (processed st) <= length (filter isLongRecord pre))).
  - simpl. lia.
  - intros pre x st IH. cbv beta in *. rewrite filter_snoc, length_app.
    change (isLongRecord x) with (30 <=? length (trim (Raw.text x))).
    unfold processRecord. cbv zeta.
    destruct (Nat.ltb_spec (length (trim (Raw.text x))) 30) as [Hs|Hl]; simpl orb.
    + cbv iota. lia.
    + destruct (Nat.leb_spec 30 (length (trim (Raw.text x)))) as [_|]; [|lia].
      destruct (setHas (seenTexts st) (substring 0 100 (trim (Raw.text x)))).
      * simpl length. lia.
      * cbn [processed]. rewrite length_app. simpl length. lia.
Qed.

(** Behind every record that is long enough stands an emitted one: it
    or the first record with its fingerprint. *)
Lemma long_record_emitted (rawContent : list Raw.t) :
  forall n i r,
    i < n -> nth_error rawContent i = Some r -> 30 <= length (recordText r) ->
    exists i' r', emittedAt rawContent i' r'.
Proof.
  induction n as [|n IH]; intros i r Hi Hr Hlong; [lia|].
  destruct (existsb (fun r' => streq (fingerprint (recordText r'))
                                 (fingerprint (recordText r)))
              (firstn i rawContent)) eqn:E.
  - apply existsb_exists in E. destruct E as (r' & Hin & Heq).
    apply streq_spec in Heq. apply In_nth_error in Hin. destruct Hin as (j & Hj).
    assert (Hji : j < i).
    { assert (j < length (firstn i rawContent)) by (apply nth_error_Some; congruence).
      rewrite length_firstn in H. lia. }
    rewrite nth_error_firstn in Hj.
    destruct (Nat.ltb_spec j i); [|lia].
    apply (IH j r'); [lia | assumption |].
    apply fingerprint_long with (t := recordText r); assumption.
  - exists i, r. repeat split; try assumption.
    intros j r' Hj Hr' Heq.
    apply not_true_iff_false in E. apply E. apply existsb_exists.
    exists r'. split.
    + apply nth_error_In with (n := j). rewrite nth_error_firstn.
      destruct (Nat.ltb_spec j i); [assumption | lia].
    + apply streq_spec. assumption.
Qed.

End Counting.

(** X4.  [processContent] returns no more items than the batch has
    records whose trimmed text reaches 30 code units, and it returns
    no item at all exactly when no record of the batch does; an empty
    batch is one such case. *)
Theorem processContent_count {host : Host}
  (rawContent : list Raw.t) (competitorName : jsstring) :
  let output := processContent rawContent competitorName in
  length output <= length (filter isLongRecord rawContent)
  /\ length output <= length rawContent
  /\ (output = []
      <-> forall r, In r rawContent -> length (trim (Raw.text r)) < 30).
Proof.
  cbv zeta.
  assert (Hlen : length (processContent rawContent competitorName)
                 = length (processedItems rawContent competitorName)).
  { unfold processContent. symmetry. apply Permutation_length, sort_perm. }
  pose proof (processedItems_length competitorName rawContent) as Hle.
  split; [lia|]. split.
  - pose proof (filter_length_bound isLongRecord rawContent). lia.
  - split.
    + intros Hnil r Hin.
      destruct (Nat.lt_ge_cases (length (trim (Raw.text r))) 30) as [|Hlong];
        [assumption|exfalso].
      apply In_nth_error in Hin. destruct Hin as (i & Hi).
      destruct (long_record_emitted rawContent (n := S i) (i := i) (r := r))
        as (i' & r' & Hem); [lia | assumption | exact Hlong|].
      assert (Hin : In (makeItem competitorName i' (recordText r'))
                      (processContent rawContent competitorName)).
      { apply processContent_spec. exists i', r'. split; [assumption | reflexivity]. }
      rewrite Hnil in Hin. exact Hin.
    + intros Hshort.
      destruct (processContent rawContent competitorName) as [|item rest] eqn:E;
        [reflexivity|exfalso].
      assert (Hin : In item (processContent rawContent competitorName))
        by (rewrite E; left; reflexivity).
      apply processContent_spec in Hin.
      destruct Hin as (i & r & (Hi & Hlong & _) & _).
      apply nth_error_In in Hi. specialize (Hshort r Hi).
      unfold recordText in Hlong. lia.
Qed.

Lemma processContent_count_witness :
  processContent (host := asciiHost)
    [rawOf twentyNineChars; rawOf (js "too short")] (js "Braze") = [].
Proof.
  destruct (processContent_count (host := asciiHost)
              [rawOf twentyNineChars; rawOf (js "too short")] (js "Braze"))
    as (_ & _ & H).
  apply H. intros r [<-|[<-|[]]]; vm_compute; lia.
Defined.

(** ** The fields of an item *)

(** X5.  The content preview of an emitted item has at most 503 code
    units: it is the full content when that has at most 500 code
    units, and its first 500 code units followed by the ellipsis
    otherwise; either way preview and full content agree on their
    first 500 code units. *)
Theorem item_content_preview {host : Host}
  (rawContent : list Raw.t) (competitorName : jsstring) (item : Item.t) :
  In item (processContent rawContent competitorName) ->
  length (Item.content item) <= 503
  /\ (length (Item.fullContent item) <= 500 ->
      Item.content item = Item.fullContent item)
  /\ (500 < length (Item.fullContent item) ->
      Item.content item = firstn 500 (Item.fullContent item) ++ ellipsis
      /\ length (Item.content item) = 503)
  /\ firstn 500 (Item.content item) = firstn 500 (Item.fullContent item).
Proof.
  intros Hin. apply processContent_spec in Hin.
  destruct Hin as (i & r & _ & ->). cbn [makeItem Item.content Item.fullContent].
  set (text := recordText r). rewrite substring_prefix.
  destruct (Nat.ltb_spec 500 (length text)) as [Hlong|Hshort].
  - assert (Hlen : length (firstn 500 text ++ ellipsis) = 503).
    { rewrite length_app, length_firstn, ellipsis_value. simpl length. lia. }
    split; [lia|]. split; [lia|]. split; [auto|].
    rewrite firstn_app, firstn_firstn, length_firstn, Nat.min_id.
    replace (500 - Nat.min 500 (length text)) with 0 by lia.
    rewrite firstn_0, app_nil_r. reflexivity.
  - rewrite app_nil_r. rewrite (@firstn_all2 _ 500 text) by lia.
    split; [lia|]. split; [intros _; reflexivity|].
    split; [intros; lia | apply firstn_all2; lia].
Qed.

Lemma item_content_preview_witness :
  Item.content releaseItem = Item.fullContent releaseItem.
Proof.
  destruct (item_content_preview (host := asciiHost) exampleBatch (js "Braze")
              releaseItem releaseItem_emitted) as (_ & H & _).
  apply H. vm_compute. lia.
Defined.

(** X6.  The full content of an emitted item is a trimmed text: it is
    not empty, trimming it again changes nothing, and its first and
    last code units are not white space.  The item carries the name
    the batch was processed under, and its title and length are those
    of its full content. *)
Theorem item_full_content_trimmed {host : Host}
  (rawContent : list Raw.t) (competitorName : jsstring) (item : Item.t) :
  In item (processContent rawContent competitorName) ->
  Item.fullContent item <> []
  /\ trim (Item.fullContent item) = Item.fullContent item
  /\ (forall c rest, Item.fullContent item = c :: rest -> isWhiteSpace c = false)
  /\ (forall front d, Item.fullContent item = front ++ [d] -> isWhiteSpace d = false)
  /\ Item.competitor item = competitorName
  /\ Item.title item = extractTitle (Item.fullContent item)
  /\ Item.contentLength item = length (Item.fullContent item).
Proof.
  intros Hin. apply processContent_spec in Hin.
  destruct Hin as (i & r & (_ & Hlong & _) & ->).
  cbn [makeItem Item.fullContent Item.competitor Item.title Item.contentLength].
  unfold recordText in *.
  split; [|split; [|split; [|split]]].
  - intros E. rewrite E in Hlong. simpl in Hlong. lia.
  - apply trim_idem.
  - intros c rest E. pose proof (trim_trimmedStart (Raw.text r)) as H.
    rewrite E in H. exact H.
  - intros front d E. eapply trim_last. eassumption.
  - auto.
Qed.

Lemma item_full_content_trimmed_witness :
  trim (Item.fullContent maintenanceItem) = Item.fullContent maintenanceItem
  /\ Item.competitor maintenanceItem = js "Braze".
Proof.
  destruct (item_full_content_trimmed (host := asciiHost) exampleBatch (js "Braze")
              maintenanceItem maintenanceItem_emitted) as (_ & H1 & _ & _ & H2 & _).
  split; assumption.
Defined.

(** ** Batches with repeated records *)

Lemma forEachFrom_app (A St : Type) (callback : St -> A -> nat -> St)
  (l1 l2 : list A) :
  forall index st,
    forEachFrom callback (l1 ++ l2) index st
    = forEachFrom callback l2 (index + length l1)
        (forEachFrom callback l1 index st).
Proof.
  induction l1 as [|x l1 IH]; intros index st; simpl.
  - rewrite Nat.add_0_r. reflexivity.
  - rewrite IH. f_equal. lia.
Qed.

Section Absorption.

Context {host : Host}.
Variable competitorName : jsstring.

Lemma processRecord_rejects (st : NormState) (r : Raw.t) (index : nat) :
  length (recordText r) < 30
  \/ In (fingerprint (recordText r)) (seenTexts st) ->
  processRecord competitorName st r index = st.
Proof.
  intros H. unfold processRecord. cbv zeta.
  change (trim (Raw.text r)) with (recordText r).
  change (substring 0 100 (recordText r)) with (fingerprint (recordText r)).
  destruct (Nat.ltb_spec (length (recordText r)) 30) as [|Hlong]; [reflexivity|].
  destruct H as [H|H]; [lia|].
  apply setHas_spec in H. rewrite H. reflexivity.
Qed.

Lemma forEachFrom_rejects (more : list Raw.t) (st : NormState) :
  (forall r, In r more ->
             length (recordText r) < 30
             \/ In (fingerprint (recordText r)) (seenTexts st)) ->
  forall index, forEachFrom (processRecord competitorName) more index st = st.
Proof.
  induction more as [|r more IH]; intros H index; simpl; [reflexivity|].
  rewrite processRecord_rejects by (apply H; left; reflexivity).
  apply IH. intros r' Hr'. apply H. right. assumption.
Qed.

End Absorption.

(** X7.  Records put behind a batch change nothing when each of them
    is too short or has the fingerprint of a record of the batch: the
    same items come back, with the same identifiers, in the same
    order.  In particular a batch followed by a copy of itself gives
    what the batch alone gives. *)
Theorem processContent_absorbs_repeats {host : Host}
  (rawContent more : list Raw.t) (competitorName : jsstring) :
  (forall r, In r more ->
             length (trim (Raw.text r)) < 30
             \/ exists r0, In r0 rawContent
                           /\ substring 0 100 (trim (Raw.text r0))
                              = substring 0 100 (trim (Raw.text r))) ->
  processContent (rawContent ++ more) competitorName
  = processContent rawContent competitorName.
Proof.
  intros H. unfold processContent, processedItems, forEach.
  rewrite forEachFrom_app. rewrite forEachFrom_rejects; [reflexivity|].
  intros r Hr.
  destruct (Nat.lt_ge_cases (length (recordText r)) 30) as [Hs|Hlong];
    [left; assumption|right].
  destruct (H r Hr) as [Hs|(r0 & Hin0 & E)]; [unfold recordText in Hlong; lia|].
  pose proof (NormInv_final competitorName rawContent) as Inv.
  unfold forEach in Inv. apply (inv_seen Inv).
  apply In_nth_error in Hin0. destruct Hin0 as (j & Hj).
  exists j, r0. split; [assumption|]. split; [|exact E].
  apply fingerprint_long with (t := recordText r); [exact E | assumption].
Qed.

Lemma processContent_absorbs_repeats_witness :
  processContent (host := asciiHost) (exampleBatch ++ exampleBatch) (js "Braze")
  = processContent (host := asciiHost) exampleBatch (js "Braze").
Proof.
  apply (processContent_absorbs_repeats (host := asciiHost)).
  intros r Hr.
  destruct (Nat.lt_ge_cases (length (trim (Raw.text r))) 30) as [Hs|Hl];
    [left; assumption|right].
  exists r. split; [assumption | reflexivity].
Defined.

(** ** The shape of a date token *)

Lemma Matches_minLength (ic : bool) (input : jsstring) (r : regex) (i e : nat) :
  Matches ic input r i e -> i + minLength r <= e.
Proof.
  induction 1; simpl; lia.
Qed.

Lemma Matches_seqs_app (ic : bool) (input : jsstring) (rs1 rs2 : list regex)
  (i e : nat) :
  Matches ic input (seqs (rs1 ++ rs2)) i e
  <-> exists j, Matches ic input (seqs rs1) i j /\ Matches ic input (seqs rs2) j e.
Proof.
  revert i. induction rs1 as [|r rs1 IH]; intros i.
  - simpl app. split.
    + intros H. exists i. split; [apply Matches_seqs_nil; reflexivity | assumption].
    + intros (j & H1 & H2). apply Matches_seqs_nil in H1. subst. assumption.
  - change ((r :: rs1) ++ rs2) with (r :: (rs1 ++ rs2)).
    rewrite Matches_seqs_cons. split.
    + intros (k & Hr & H). apply IH in H. destruct H as (j & H1 & H2).
      exists j. split; [|assumption]. apply Matches_seqs_cons. exists k. auto.
    + intros (j & H1 & H2). apply Matches_seqs_cons in H1.
      destruct H1 as (k & Hr & H1). exists k. split; [assumption|].
      apply IH. exists j. auto.
Qed.

(** A pattern that ends with [\d{n}\b] ends behind a digit. *)
Lemma ends_with_digits (ic : bool) (input : jsstring) (n j e : nat) :
  1 <= n ->
  Matches ic input (seqs [RQuant digit n (Some n); RBoundary]) j e ->
  exists c, nth_error input (e - 1) = Some c /\ isDigit c = true.
Proof.
  intros Hn H.
  apply Matches_seqs_cons in H. destruct H as (k & D & H).
  apply Matches_seqs_cons in H. destruct H as (k' & B & H).
  apply Matches_seqs_nil in H. apply Matches_boundary in B.
  destruct B as [-> _]. subst e.
  apply Matches_quant in D. destruct D as (m & -> & Hlo & _ & Hk).
  destruct (Hk (m - 1)) as (c & Hc & Hd); [lia|].
  exists c. split; [|exact Hd].
  replace (j + m - 1) with (j + (m - 1)) by lia. exact Hc.
Qed.

Lemma dateFamilies_shape (re : RegExp) (text : jsstring) (b e : nat) :
  In re dateFamilies ->
  occursAt re text b e ->
  b + 8 <= e /\ e <= length text
  /\ exists c, nth_error text (e - 1) = Some c /\ isDigit c = true.
Proof.
  intros Hre [Hb Hm].
  pose proof (Matches_minLength Hm) as Hmin.
  pose proof (Matches_bounds Hm) as [_ Hlen]. specialize (Hlen Hb).
  destruct Hre as [<-|[<-|[<-|[]]]].
  - change (minLength (pattern longDateRe)) with 10 in Hmin.
    split; [lia|]. split; [assumption|].
    change (pattern longDateRe)
      with (seqs ([RBoundary; oneOf monthNames; RQuant ASpace 1 None;
                   RQuant digit 1 (Some 2); RQuant comma 0 (Some 1);
                   RQuant ASpace 1 None]
                  ++ [RQuant digit 4 (Some 4); RBoundary])) in Hm.
    apply Matches_seqs_app in Hm. destruct Hm as (j & _ & Hm).
    eapply ends_with_digits; [|exact Hm]. lia.
  - change (minLength (pattern slashDateRe)) with 8 in Hmin.
    split; [lia|]. split; [assumption|].
    change (pattern slashDateRe)
      with (seqs ([RBoundary; RQuant digit 1 (Some 2); RAtom slash;
                   RQuant digit 1 (Some 2); RAtom slash]
                  ++ [RQuant digit 4 (Some 4); RBoundary])) in Hm.
    apply Matches_seqs_app in Hm. destruct Hm as (j & _ & Hm).
    eapply ends_with_digits; [|exact Hm]. lia.
  - change (minLength (pattern isoDateRe)) with 10 in Hmin.
    split; [lia|]. split; [assumption|].
    change (pattern isoDateRe)
      with (seqs ([RBoundary; RQuant digit 4 (Some 4); RAtom hyphen;
                   RQuant digit 2 (Some 2); RAtom hyphen]
                  ++ [RQuant digit 2 (Some 2); RBoundary])) in Hm.
    apply Matches_seqs_app in Hm. destruct Hm as (j & _ & Hm).
    eapply ends_with_digits; [|exact Hm]. lia.
Qed.

Lemma slice_last (text : jsstring) (b e : nat) (c : codeUnit) :
  b < e -> e <= length text -> nth_error text (e - 1) = Some c ->
  length (firstn (e - b) (skipn b text)) = e - b
  /\ exists front, firstn (e - b) (skipn b text) = front ++ [c].
Proof.
  intros Hbe He Hc.
  assert (Hlen : length (firstn (e - b) (skipn b text)) = e - b)
    by (rewrite length_firstn, length_skipn; lia).
  split; [exact Hlen|].
  destruct (@exists_last _ (firstn (e - b) (skipn b text))) as (front & d & E).
  { intros C. rewrite C in Hlen. simpl in Hlen. lia. }
  exists front. rewrite E. f_equal. f_equal.
  assert (Hd : nth_error (firstn (e - b) (skipn b text)) (e - b - 1) = Some d).
  { rewrite E. rewrite E, length_app in Hlen. simpl in Hlen.
    replace (e - b - 1) with (length front + 0) by lia.
    rewrite nth_error_after. reflexivity. }
  rewrite nth_error_firstn in Hd.
  destruct (Nat.ltb_spec (e - b - 1) (e - b)); [|lia].
  rewrite nth_error_skipn in Hd.
  replace (b + (e - b - 1)) with (e - 1) in Hd by lia. congruence.
Qed.

Lemma dateMatch_Some_shape (text d : jsstring) :
  dateMatch text = Some d ->
  8 <= length d
  /\ exists front c, d = front ++ [c] /\ isDigit c = true.
Proof.
  intros H. apply dateMatch_Some in H.
  destruct H as (earlier & re & later & b & e & Hfam & _ & Hocc & _ & _ & -> & _).
  assert (Hre : In re dateFamilies)
    by (rewrite Hfam; apply in_or_app; right; left; reflexivity).
  destruct (@dateFamilies_shape re text b e Hre Hocc) as (Hmin & Hlen & c & Hc & Hd).
  destruct (@slice_last text b e c) as (Hl & front & E);
    [lia | assumption | assumption|].
  split; [lia|]. exists front, c. split; assumption.
Qed.

(** X8.  A date token is never empty: it has at least 8 code units
    (the shortest slash date) and its last code unit is a digit. *)
Theorem dateMatch_token_shape (text d : jsstring) :
  dateMatch text = Some d ->
  8 <= length d
  /\ exists front c, d = front ++ [c] /\ isDigit c = true.
Proof. apply dateMatch_Some_shape. Qed.

Lemma dateMatch_token_shape_witness :
  8 <= length (js "3/4/2025")
  /\ exists front c, js "3/4/2025" = front ++ [c] /\ isDigit c = true.
Proof.
  apply (@dateMatch_token_shape (js "due 3/4/2025.") (js "3/4/2025")).
  vm_compute. reflexivity.
Defined.

(** ** Letter case *)

Lemma isWhiteSpace_range (c : codeUnit) :
  isWhiteSpace c = true -> (c <= 32 \/ 160 <= c)%N.
Proof.
  unfold isWhiteSpace.
  rewrite !orb_true_iff, !andb_true_iff, !N.leb_le, !N.eqb_eq. lia.
Qed.

Lemma isWordChar_range (c : codeUnit) :
  isWordChar c = true
  <-> (48 <= c <= 57 \/ 65 <= c <= 90 \/ c = 95 \/ 97 <= c <= 122)%N.
Proof.
  unfold isWordChar, isDigit.
  rewrite !orb_true_iff, !andb_true_iff, !N.leb_le, !N.eqb_eq. lia.
Qed.

Lemma isDigit_range (c : codeUnit) : isDigit c = true <-> (48 <= c <= 57)%N.
Proof. unfold isDigit. rewrite andb_true_iff, !N.leb_le. reflexivity. Qed.

(** Folding a code unit changes it only when it is a small letter,
    into its capital. *)
Lemma canonicalize_cases (c : codeUnit) :
  canonicalize c = c
  \/ ((97 <= c <= 122)%N /\ canonicalize c = (c - 32)%N).
Proof.
  unfold canonicalize.
  destruct (N.leb_spec 97 c), (N.leb_spec c 122); simpl; auto.
Qed.

Lemma bool_eq_of_iff (x y : bool) : (x = true <-> y = true) -> x = y.
Proof. destruct x, y; intuition congruence. Qed.

Lemma isDigit_canonicalize (c : codeUnit) : isDigit (canonicalize c) = isDigit c.
Proof.
  destruct (canonicalize_cases c) as [->|[Hc ->]]; [reflexivity|].
  apply bool_eq_of_iff. rewrite !isDigit_range. lia.
Qed.

Lemma isWordChar_canonicalize (c : codeUnit) :
  isWordChar (canonicalize c) = isWordChar c.
Proof.
  destruct (canonicalize_cases c) as [->|[Hc ->]]; [reflexivity|].
  apply bool_eq_of_iff. rewrite !isWordChar_range. lia.
Qed.

Lemma isWhiteSpace_canonicalize (c : codeUnit) :
  isWhiteSpace (canonicalize c) = isWhiteSpace c.
Proof.
  destruct (canonicalize_cases c) as [->|[Hc ->]]; [reflexivity|].
  apply bool_eq_of_iff. split; intros H; apply isWhiteSpace_range in H; lia.
Qed.

Lemma atomMatches_canonicalize (a : atom) (c1 c2 : codeUnit) :
  canonicalize c1 = canonicalize c2 ->
  atomMatches true a c1 = atomMatches true a c2.
Proof.
  intros E. destruct a as [p| |]; simpl.
  - rewrite E. reflexivity.
  - rewrite <- (isDigit_canonicalize c1), <- (isDigit_canonicalize c2), E.
    reflexivity.
  - rewrite <- (isWhiteSpace_canonicalize c1), <- (isWhiteSpace_canonicalize c2), E.
    reflexivity.
Qed.

Section SameLetters.

(** Two texts that differ in the case of ASCII letters only. *)
Variables s1 s2 : jsstring.
Hypothesis same : map canonicalize s1 = map canonicalize s2.

Lemma same_length : length s1 = length s2.
Proof.
  apply (f_equal (@length codeUnit)) in same.
  rewrite !length_map in same. exact same.
Qed.

Lemma same_nth_error (i : nat) :
  option_map canonicalize (nth_error s1 i)
  = option_map canonicalize (nth_error s2 i).
Proof. rewrite <- !nth_error_map, same. reflexivity. Qed.

Lemma same_wordCharAt (i : nat) : wordCharAt s1 i = wordCharAt s2 i.
Proof.
  unfold wordCharAt. pose proof (same_nth_error i) as H.
  destruct (nth_error s1 i) as [c1|], (nth_error s2 i) as [c2|];
    simpl in H; try discriminate; [|reflexivity].
  injection H as H.
  rewrite <- (isWordChar_canonicalize c1), <- (isWordChar_canonicalize c2), H.
  reflexivity.
Qed.

Lemma same_isWordBoundary (i : nat) : isWordBoundary s1 i = isWordBoundary s2 i.
Proof.
  unfold isWordBoundary. rewrite same_wordCharAt.
  destruct i as [|j]; [reflexivity|]. rewrite same_wordCharAt. reflexivity.
Qed.

Lemma same_countWhile (a : atom) :
  forall l1 l2,
    map canonicalize l1 = map canonicalize l2 ->
    countWhile (atomMatches true a) l1 = countWhile (atomMatches true a) l2.
Proof.
  induction l1 as [|c1 l1 IH]; intros [|c2 l2] E; try discriminate; [reflexivity|].
  simpl in E. injection E as Ec El. simpl.
  rewrite (@atomMatches_canonicalize a c1 c2 Ec), (IH l2 El). reflexivity.
Qed.

Lemma same_matcher (r : regex) :
  forall i, matcher true s1 r i = matcher true s2 r i.
Proof.
  induction r as [|a| |r1 IH1 r2 IH2|r1 IH1 r2 IH2|a lo hi]; intros i;
    cbn [matcher].
  - reflexivity.
  - pose proof (same_nth_error i) as H.
    destruct (nth_error s1 i) as [c1|], (nth_error s2 i) as [c2|];
      simpl in H; try discriminate; [|reflexivity].
    injection H as H. rewrite (@atomMatches_canonicalize a c1 c2 H). reflexivity.
  - rewrite same_isWordBoundary. reflexivity.
  - rewrite IH1. apply flat_map_ext. intros j. apply IH2.
  - rewrite IH1, IH2. reflexivity.
  - rewrite (@same_countWhile a (skipn i s1) (skipn i s2)); [reflexivity|].
    rewrite <- !skipn_map, same. reflexivity.
Qed.

Lemma same_execFrom (r : regex) (starts : list nat) :
  execFrom true s1 r starts = execFrom true s2 r starts.
Proof.
  induction starts as [|b starts IH]; simpl; [reflexivity|].
  rewrite same_matcher, IH. reflexivity.
Qed.

Lemma same_exec (re : RegExp) :
  ignoreCase re = true -> exec re s1 = exec re s2.
Proof.
  intros Hic. unfold exec. rewrite Hic, same_length. apply same_execFrom.
Qed.

End SameLetters.

(** X9.  The case of ASCII letters does not matter to the keyword test
    nor to where the long-form date pattern matches: two texts that
    are equal once their small letters are made capitals get the same
    flag, and the long-form pattern matches in both or in neither, at
    the same indices. *)
Theorem letter_case_is_ignored (text1 text2 : jsstring) :
  map canonicalize text1 = map canonicalize text2 ->
  isUpdate text1 = isUpdate text2
  /\ exec longDateRe text1 = exec longDateRe text2
  /\ option_map (@length codeUnit) (stringMatch text1 longDateRe)
     = option_map (@length codeUnit) (stringMatch text2 longDateRe).
Proof.
  intros E.
  assert (Hu : exec updateRe text1 = exec updateRe text2)
    by (apply same_exec; [assumption | reflexivity]).
  assert (Hd : exec longDateRe text1 = exec longDateRe text2)
    by (apply same_exec; [assumption | reflexivity]).
  split; [|split].
  - unfold isUpdate, test. rewrite Hu. reflexivity.
  - exact Hd.
  - unfold stringMatch. rewrite Hd.
    destruct (exec longDateRe text2) as [[b e]|] eqn:Ex; [|reflexivity].
    simpl. f_equal.
    pose proof (@exec_Some longDateRe text2 b e Ex) as (_ & Hbe & _).
    pose proof (@same_length text1 text2 E) as Hl.
    rewrite !substring_slice by lia.
    rewrite !length_firstn, !length_skipn. lia.
Qed.

Lemma letter_case_is_ignored_witness :
  isUpdate (js "NEW dashboards, out january 5, 2025")
  = isUpdate (js "New Dashboards, out January 5, 2025")
  /\ exec longDateRe (js "NEW dashboards, out january 5, 2025")
     = exec longDateRe (js "New Dashboards, out January 5, 2025")
  /\ option_map (@length codeUnit)
       (stringMatch (js "NEW dashboards, out january 5, 2025") longDateRe)
     = option_map (@length codeUnit)
         (stringMatch (js "New Dashboards, out January 5, 2025") longDateRe).
Proof.
  apply (@letter_case_is_ignored (js "NEW dashboards, out january 5, 2025")
           (js "New Dashboards, out January 5, 2025")).
  vm_compute. reflexivity.
Defined.

(** ** The raw extractors *)

Lemma visibleText_trimmed (el : El.t) : trim (visibleText el) = visibleText el.
Proof.
  unfold visibleText. destruct (El.innerText el) as [t|]; [apply trim_idem|].
  reflexivity.
Qed.

Lemma extractContentFromElements_In (elements : list ElementHandle)
  (record : Raw.t) :
  In record (extractContentFromElements elements)
  <-> exists i el,
        i < 20
        /\ nth_error elements i = Some (Returns el)
        /\ 20 < length (visibleText el)
        /\ record = evaluateElement el.
Proof.
  rewrite extractContentFromElements_flat_map, in_flat_map. split.
  - intros (h & Hh & Hr). apply In_nth_error in Hh. destruct Hh as (i & Hi).
    assert (Hlt : i < 20).
    { assert (i < length (firstn 20 elements))
        by (apply nth_error_Some; congruence).
      rewrite length_firstn in H. lia. }
    rewrite nth_error_firstn in Hi.
    destruct (Nat.ltb_spec i 20) as [_|]; [|lia].
    unfold recordsOf in Hr. destruct h as [el|]; [|destruct Hr].
    destruct (Nat.ltb_spec 20 (length (visibleText el))) as [Hl|]; [|destruct Hr].
    destruct Hr as [<-|[]]. exists i, el. auto.
  - intros (i & el & Hlt & Hi & Hl & ->). exists (Returns el). split.
    + apply nth_error_In with (n := i). rewrite nth_error_firstn.
      destruct (Nat.ltb_spec i 20); [assumption | lia].
    + unfold recordsOf.
      destruct (Nat.ltb_spec 20 (length (visibleText el))); [left; reflexivity | lia].
Qed.

(** X10.  Every record the targeted extraction returns has a text of
    more than 20 code units that is already trimmed, and markup of at
    most 1000 code units, never [undefined]. *)
Theorem targeted_record_bounds (elements : list ElementHandle) (record : Raw.t) :
  In record (extractContentFromElements elements) ->
  20 < length (Raw.text record)
  /\ trim (Raw.text record) = Raw.text record
  /\ exists markup, Raw.html record = Some markup /\ length markup <= 1000.
Proof.
  intros H. apply extractContentFromElements_In in H.
  destruct H as (i & el & _ & _ & Hl & ->).
  rewrite evaluateElement_text.
  split; [assumption|]. split; [apply visibleText_trimmed|].
  unfold evaluateElement. cbn [Raw.html]. eexists. split; [reflexivity|].
  destruct (El.innerHTML el) as [h|]; [|simpl; lia].
  destruct (truthy (substring 0 1000 h)); [|simpl; lia].
  rewrite length_substring_prefix. lia.
Qed.

Lemma targeted_record_bounds_witness :
  20 < length (Raw.text (evaluateElement (elementOf twentyOneChars)))
  /\ trim (Raw.text (evaluateElement (elementOf twentyOneChars)))
     = Raw.text (evaluateElement (elementOf twentyOneChars))
  /\ exists markup,
       Raw.html (evaluateElement (elementOf twentyOneChars)) = Some markup
       /\ length markup <= 1000.
Proof.
  apply (@targeted_record_bounds [Returns (elementOf twentyChars);
                                  Returns (elementOf twentyOneChars)]).
  vm_compute. left. reflexivity.
Defined.

(** X11.  The targeted extraction works element by element and in
    order: within the cap of 20 elements, the records of two lists of
    elements put together are the records of the first followed by
    those of the second; and elements behind the twentieth change
    nothing. *)
Theorem extractContentFromElements_app (elements more : list ElementHandle) :
  (length elements + length more <= 20 ->
   extractContentFromElements (elements ++ more)
   = extractContentFromElements elements ++ extractContentFromElements more)
  /\ (20 <= length elements ->
      extractContentFromElements (elements ++ more)
      = extractContentFromElements elements).
Proof.
  rewrite !extractContentFromElements_flat_map. split; intros H.
  - rewrite !firstn_all2 by (rewrite ?length_app; lia).
    apply flat_map_app.
  - rewrite firstn_app.
    replace (20 - length elements) with 0 by lia.
    rewrite firstn_0, app_nil_r. reflexivity.
Qed.

Lemma extractContentFromElements_app_witness :
  extractContentFromElements
    ([Returns (elementOf twentyChars)] ++ [Returns (elementOf twentyOneChars)])
  = extractContentFromElements [Returns (elementOf twentyChars)]
    ++ extractContentFromElements [Returns (elementOf twentyOneChars)].
Proof.
  destruct (extractContentFromElements_app [Returns (elementOf twentyChars)]
              [Returns (elementOf twentyOneChars)]) as [H _].
  apply H. simpl. lia.
Defined.

Lemma generalStep_recordsOf (content : list Raw.t) (container : El.t) :
  generalStep content container = content ++ generalRecordsOf container.
Proof.
  unfold generalRecordsOf, generalStep.
  destruct (El.innerText container) as [t|]; [|rewrite app_nil_r; reflexivity].
  cbv zeta. destruct (truthy (trim t) && (50 <? length (trim t)));
    [reflexivity | rewrite app_nil_r; reflexivity].
Qed.

Lemma fold_generalStep (containers : list El.t) (content : list Raw.t) :
  fold_left generalStep containers content
  = content ++ flat_map generalRecordsOf containers.
Proof.
  revert content. induction containers as [|c cs IH]; intros content; simpl.
  - rewrite app_nil_r. reflexivity.
  - rewrite IH, generalStep_recordsOf, <- app_assoc. reflexivity.
Qed.

Lemma generalRecordsOf_bounds (container : El.t) (record : Raw.t) :
  In record (generalRecordsOf container) ->
  50 < length (Raw.text record) <= 2000
  /\ (forall c rest, Raw.text record = c :: rest -> isWhiteSpace c = false)
  /\ (forall markup, Raw.html record = Some markup -> length markup <= 1000).
Proof.
  unfold generalRecordsOf, generalStep.
  destruct (El.innerText container) as [t|]; [|intros []].
  cbv zeta. destruct (truthy (trim t)); simpl andb; [|intros []].
  destruct (Nat.ltb_spec 50 (length (trim t))) as [Hl|]; [|intros []].
  simpl app. intros [<-|[]]. cbn [Raw.text Raw.html].
  split; [|split].
  - rewrite length_substring_prefix. lia.
  - intros c rest E. rewrite substring_prefix in E.
    pose proof (trim_trimmedStart t) as Hhead.
    destruct (trim t) as [|c' u]; [simpl in Hl; lia|].
    change 2000 with (S 1999) in E. rewrite firstn_cons in E.
    injection E as <- _. exact Hhead.
  - intros markup E. destruct (El.innerHTML container) as [h|]; [|discriminate].
    simpl in E. injection E as <-. rewrite length_substring_prefix. lia.
Qed.

(** X12.  When the generic extraction returns, it returns at most one
    record for each container, in the order of the containers; the
    text of each record has more than 50 and at most 2000 code units
    and starts with something else than white space, and markup,
    where there is any, has at most 1000 code units.  When the
    evaluation in the page throws, so does the extraction, with the
    same message. *)
Theorem extractGeneralContent_bounds (page : Page.t) :
  (forall content,
      extractGeneralContent page = Returns content ->
      exists containers,
        Page.containers page = Returns containers
        /\ content = flat_map generalRecordsOf containers
        /\ length content <= length containers
        /\ forall record,
             In record content ->
             50 < length (Raw.text record) <= 2000
             /\ (forall c rest, Raw.text record = c :: rest ->
                                isWhiteSpace c = false)
             /\ (forall markup, Raw.html record = Some markup ->
                                length markup <= 1000))
  /\ (forall message,
         extractGeneralContent page = Throws message
         <-> Page.containers page = Throws message).
Proof.
  unfold extractGeneralContent. split.
  - intros content H. destruct (Page.containers page) as [cs|]; [|discriminate].
    simpl in H. injection H as <-. rewrite fold_generalStep. simpl app.
    exists cs. split; [reflexivity|]. split; [reflexivity|]. split.
    + clear. induction cs as [|c cs IH]; simpl; [lia|].
      rewrite length_app.
      assert (length (generalRecordsOf c) <= 1).
      { unfold generalRecordsOf, generalStep.
        destruct (El.innerText c) as [t|]; [|simpl; lia].
        cbv zeta. destruct (truthy (trim t) && (50 <? length (trim t)));
          simpl; lia. }
      lia.
    + intros record Hin. apply in_flat_map in Hin.
      destruct Hin as (c & _ & Hin). eapply generalRecordsOf_bounds. eassumption.
  - intros message. destruct (Page.containers page) as [cs|m]; simpl.
    + split; discriminate.
    + split; intros H; injection H as ->; reflexivity.
Qed.

Lemma extractGeneralContent_bounds_witness :
  exists containers,
    Page.containers articlePage = Returns containers
    /\ length (flat_map generalRecordsOf containers) <= length containers.
Proof.
  destruct (extractGeneralContent_bounds articlePage) as [H _].
  destruct (H (flat_map generalRecordsOf [elementOf articleText; elementOf (js "Menu")]))
    as (containers & Hc & _ & Hlen & _).
  - reflexivity.
  - exists containers. split; [exact Hc|].
    injection Hc as <-. exact Hlen.
Defined.

(** ** From elements to items *)

(** X13.  Targeted extraction followed by the normalizer: every item
    comes from one of the first 20 elements, its full content is that
    element's trimmed visible text as it is, and that text has at
    least 30 code units.  So an element whose text has 21 to 29 code
    units gives a record and no item. *)
Theorem targeted_pipeline {host : Host}
  (elements : list ElementHandle) (competitorName : jsstring) :
  (forall item,
      In item (processContent (extractContentFromElements elements) competitorName) ->
      exists i el,
        i < 20
        /\ nth_error elements i = Some (Returns el)
        /\ Item.fullContent item = visibleText el
        /\ 30 <= length (visibleText el))
  /\ (forall el,
         20 < length (visibleText el) < 30 ->
         extractContentFromElements [Returns el] = [evaluateElement el]
         /\ processContent (extractContentFromElements [Returns el]) competitorName
            = []).
Proof.
  assert (Hitems : forall els item,
             In item (processContent (extractContentFromElements els) competitorName) ->
             exists i el,
               i < 20
               /\ nth_error els i = Some (Returns el)
               /\ Item.fullContent item = visibleText el
               /\ 30 <= length (visibleText el)).
  { intros els item Hin. apply processContent_spec in Hin.
    destruct Hin as (j & r & (Hj & Hlong & _) & ->).
    apply nth_error_In in Hj. apply extractContentFromElements_In in Hj.
    destruct Hj as (i & el & Hi & Hel & _ & ->).
    unfold recordText in *. rewrite evaluateElement_text, visibleText_trimmed in *.
    exists i, el. cbn [makeItem Item.fullContent]. auto. }
  split; [apply Hitems|].
  intros el [Hlo Hhi]. split.
  - rewrite extractContentFromElements_flat_map. cbn [firstn flat_map recordsOf].
    destruct (Nat.ltb_spec 20 (length (visibleText el))); [reflexivity | lia].
  - destruct (processContent (extractContentFromElements [Returns el]) competitorName)
      as [|item rest] eqn:E; [reflexivity|exfalso].
    destruct (Hitems [Returns el] item) as (i & el' & _ & Hi & _ & Hlong).
    { rewrite E. left. reflexivity. }
    destruct i as [|i]; [|destruct i; discriminate].
    simpl in Hi. injection Hi as <-. lia.
Qed.

Lemma targeted_pipeline_witness :
  extractContentFromElements [Returns (elementOf twentyOneChars)]
  = [evaluateElement (elementOf twentyOneChars)]
  /\ processContent (host := asciiHost)
       (extractContentFromElements [Returns (elementOf twentyOneChars)]) (js "Braze")
     = [].
Proof.
  destruct (targeted_pipeline (host := asciiHost) [] (js "Braze")) as [_ H].
  apply H. vm_compute. split; lia.
Defined.

(** ** The selectors *)

(** X14.  The selectors are tried in order and the first one that
    finds an element decides: the content is what the targeted
    extraction makes of its elements, whatever the later selectors
    would find; a selector whose query throws counts as one that finds
    nothing; and there is no content exactly when every selector
    finds nothing. *)
Theorem trySelectors_first_match (page : Page.t) (selectors : list jsstring) :
  (forall content,
      trySelectors page selectors = Some content
      <-> exists tried selector later elements,
            selectors = tried ++ selector :: later
            /\ (forall s, In s tried -> selectorMisses page s)
            /\ Page.queryAll page selector = Returns elements
            /\ elements <> []
            /\ content = extractContentFromElements elements)
  /\ (trySelectors page selectors = None
      <-> forall s, In s selectors -> selectorMisses page s).
Proof.
  induction selectors as [|s0 selectors [IHsome IHnone]].
  - split.
    + intros content. split; [discriminate|].
      intros (tried & selector & later & elements & E & _).
      destruct tried; discriminate.
    + split; [intros _ s [] | reflexivity].
  - cbn [trySelectors]. unfold selectorMisses in *.
    destruct (Page.queryAll page s0) as [[|h els]|message] eqn:Q.
    + (* no element *)
      simpl. split.
      * intros content. rewrite IHsome. split.
        -- intros (tried & selector & later & elements & -> & Hm & R).
           exists (s0 :: tried), selector, later, elements.
           split; [reflexivity|]. split; [|exact R].
           intros s [<-|Hs]; [rewrite Q; exact I | apply Hm; assumption].
        -- intros (tried & selector & later & elements & E & Hm & Hq & Hne & Hc).
           destruct tried as [|t tried].
           ++ simpl in E. injection E as <- <-. rewrite Q in Hq.
              injection Hq as <-. congruence.
           ++ simpl in E. injection E as <- ->.
              exists tried, selector, later, elements.
              split; [reflexivity|]. split; [|auto].
              intros s Hs. apply Hm. right. assumption.
      * rewrite IHnone. split.
        -- intros H s [<-|Hs]; [rewrite Q; exact I | apply H; assumption].
        -- intros H s Hs. apply H. right. assumption.
    + (* the selector finds elements *)
      simpl. split.
      * intros content. split.
        -- intros H. injection H as <-.
           exists [], s0, selectors, (h :: els).
           split; [reflexivity|]. split; [intros s []|].
           split; [assumption|]. split; [discriminate | reflexivity].
        -- intros (tried & selector & later & elements & E & Hm & Hq & Hne & ->).
           destruct tried as [|t tried].
           ++ simpl in E. injection E as <- <-. rewrite Q in Hq.
              injection Hq as <-. reflexivity.
           ++ simpl in E. injection E as <- ->.
              specialize (Hm s0 (or_introl eq_refl)). rewrite Q in Hm. destruct Hm.
      * split; [discriminate|].
        intros H. specialize (H s0 (or_introl eq_refl)). rewrite Q in H. destruct H.
    + (* the query throws *)
      split.
      * intros content. rewrite IHsome. split.
        -- intros (tried & selector & later & elements & -> & Hm & R).
           exists (s0 :: tried), selector, later, elements.
           split; [reflexivity|]. split; [|exact R].
           intros s [<-|Hs]; [rewrite Q; exact I | apply Hm; assumption].
        -- intros (tried & selector & later & elements & E & Hm & Hq & Hne & Hc).
           destruct tried as [|t tried].
           ++ simpl in E. injection E as <- <-. rewrite Q in Hq. discriminate.
           ++ simpl in E. injection E as <- ->.
              exists tried, selector, later, elements.
              split; [reflexivity|]. split; [|auto].
              intros s Hs. apply Hm. right. assumption.
      * rewrite IHnone. split.
        -- intros H s [<-|Hs]; [rewrite Q; exact I | apply H; assumption].
        -- intros H s Hs. apply H. right. assumption.
Qed.

Lemma trySelectors_first_match_witness :
  trySelectors articlePage (selectorsOf (competitors braze)) = None.
Proof.
  destruct (trySelectors_first_match articlePage (selectorsOf (competitors braze)))
    as [_ H].
  apply H. intros s _. exact I.
Defined.

(** ** The result of scraping one competitor *)

Section ScrapeResults.

Context {host : Host}.

(** What the [try] block does once the page has loaded. *)
Lemma scrapeBody_loaded (page : Page.t) (competitor : Target.t) :
  Page.setUserAgent page userAgent = Returns tt ->
  Page.goto page (Target.url competitor) 30000%N = Returns tt ->
  Page.waitForTimeout page 3000%N = Returns tt ->
  scrapeBody page competitor
  = match trySelectors page (selectorsOf competitor) with
    | Some (record :: more) =>
        Returns (successResult competitor
                   (processContent (record :: more) (Target.name competitor)))
    | _ =>
        match extractGeneralContent page with
        | Returns content =>
            Returns (successResult competitor
                       (processContent content (Target.name competitor)))
        | Throws message => Throws message
        end
    end.
Proof.
  intros Hua Hgoto Hwait. unfold scrapeBody, selectorsOf.
  rewrite Hua. cbn [bind]. rewrite Hgoto. cbn [bind].
  rewrite Hwait. cbn [bind].
  destruct (trySelectors page
              (Target.selector competitor :: Target.fallbackSelectors competitor))
    as [[|record more]|]; cbn [bind]; try reflexivity;
    destruct (extractGeneralContent page); reflexivity.
Qed.

(** Whatever the [try] block returns is a result without error made
    from some content. *)
Lemma scrapeBody_returns (page : Page.t) (competitor : Target.t)
  (result : Result.t) :
  scrapeBody page competitor = Returns result ->
  exists content,
    result = successResult competitor
               (processContent content (Target.name competitor)).
Proof.
  unfold scrapeBody.
  destruct (Page.setUserAgent page userAgent) as [[]|]; [|discriminate].
  simpl bind at 1.
  destruct (Page.goto page (Target.url competitor) 30000%N) as [[]|];
    [|discriminate].
  simpl bind at 1.
  destruct (Page.waitForTimeout page 3000%N) as [[]|]; [|discriminate].
  simpl bind at 1.
  match goal with
  | |- bind ?c _ = _ -> _ => destruct c as [content|]; [|discriminate]
  end.
  simpl bind. intros H. injection H as <-. exists content. reflexivity.
Qed.

Lemma scrapeCompetitor_cases (browser : Browser) (opened : nat)
  (key : CompetitorKey) :
  match newPage browser opened with
  | Throws message => scrapeCompetitor browser opened key = Throws message
  | Returns page =>
      match Page.close page with
      | Throws message => scrapeCompetitor browser opened key = Throws message
      | Returns _ =>
          scrapeCompetitor browser opened key
          = Returns match scrapeBody page (competitors key) with
                    | Returns result => result
                    | Throws message => errorResult (competitors key) message
                    end
      end
  end.
Proof.
  unfold scrapeCompetitor.
  destruct (newPage browser opened) as [page|message]; [|reflexivity].
  simpl bind. destruct (Page.close page) as [[]|message]; reflexivity.
Qed.

End ScrapeResults.

(** X15.  Every result [scrapeCompetitor] returns names the
    competitor and its URL as configured, counts exactly the items it
    holds, and holds no item when it carries an error; each of its
    items carries the result's competitor name and a content length
    of at least 30. *)
Theorem scrapeCompetitor_result_invariant {host : Host}
  (browser : Browser) (opened : nat) (key : CompetitorKey) (result : Result.t) :
  scrapeCompetitor browser opened key = Returns result ->
  Result.competitor result = Target.name (competitors key)
  /\ Result.url result = Target.url (competitors key)
  /\ Result.itemCount result = length (Result.items result)
  /\ (forall message, Result.error result = Some message ->
                      Result.items result = [])
  /\ (forall item,
         In item (Result.items result) ->
         Item.competitor item = Result.competitor result
         /\ 30 <= Item.contentLength item).
Proof.
  intros H. pose proof (scrapeCompetitor_cases browser opened key) as C.
  destruct (newPage browser opened) as [page|m]; [|congruence].
  destruct (Page.close page) as [[]|m]; [|congruence].
  rewrite C in H. injection H as <-.
  destruct (scrapeBody page (competitors key)) as [result|message] eqn:B.
  - apply scrapeBody_returns in B. destruct B as (content & ->).
    cbn [successResult Result.competitor Result.url Result.itemCount
           Result.items Result.error].
    repeat (split; [reflexivity|]). split; [discriminate|].
    intros item Hin. apply processContent_spec in Hin.
    destruct Hin as (i & r & (_ & Hlong & _) & ->).
    split; [reflexivity | exact Hlong].
  - cbn [errorResult Result.competitor Result.url Result.itemCount
           Result.items Result.error].
    repeat (split; [reflexivity|]). intros item [].
Qed.

Lemma scrapeCompetitor_result_invariant_witness :
  Result.itemCount (errorResult (host := asciiHost) (competitors braze) timeoutMessage)
  = length (Result.items
              (errorResult (host := asciiHost) (competitors braze) timeoutMessage)).
Proof.
  destruct (scrapeCompetitor_result_invariant (host := asciiHost) timeoutBrowser 0 braze
              (result := errorResult (host := asciiHost) (competitors braze) timeoutMessage))
    as (_ & _ & H & _).
  - vm_compute. reflexivity.
  - exact H.
Defined.

(** X16.  [scrapeCompetitor] throws exactly when the page cannot be
    opened or cannot be closed, and then with the message of that
    failure; no failure of the navigation or of the extraction leaves
    it. *)
Theorem scrapeCompetitor_throws {host : Host}
  (browser : Browser) (opened : nat) (key : CompetitorKey) (message : jsstring) :
  scrapeCompetitor browser opened key = Throws message
  <-> newPage browser opened = Throws message
      \/ exists page, newPage browser opened = Returns page
                      /\ Page.close page = Throws message.
Proof.
  pose proof (scrapeCompetitor_cases browser opened key) as C.
  destruct (newPage browser opened) as [page|m].
  - destruct (Page.close page) as [[]|m] eqn:Hclose; rewrite C.
    + split; [discriminate|].
      intros [H|(page' & H & H')]; [discriminate|].
      injection H as <-. congruence.
    + split.
      * intros H. injection H as ->. right. exists page. auto.
      * intros [H|(page' & H & H')]; [discriminate|].
        injection H as <-. congruence.
  - rewrite C. split.
    + intros H. injection H as ->. left. reflexivity.
    + intros [H|(page' & H & _)]; [congruence | discriminate].
Qed.

(** X17.  Once the page has loaded, the records the first matching
    selector gives are what is normalized, and the generic extraction
    is not consulted: its failure does not matter.  The generic
    extraction is used when no selector finds anything and also when
    the elements found give no record; its records are then what is
    normalized, and its failure is the failure of the block.  A page
    with nothing to extract gives a result with no item and no
    error. *)
Theorem scrapeBody_fallback {host : Host} (page : Page.t) (competitor : Target.t) :
  Page.setUserAgent page userAgent = Returns tt ->
  Page.goto page (Target.url competitor) 30000%N = Returns tt ->
  Page.waitForTimeout page 3000%N = Returns tt ->
  (forall record more,
      trySelectors page (selectorsOf competitor) = Some (record :: more) ->
      scrapeBody page competitor
      = Returns (successResult competitor
                   (processContent (record :: more) (Target.name competitor))))
  /\ (trySelectors page (selectorsOf competitor) = None
      \/ trySelectors page (selectorsOf competitor) = Some [] ->
      (forall content,
          extractGeneralContent page = Returns content ->
          scrapeBody page competitor
          = Returns (successResult competitor
                       (processContent content (Target.name competitor))))
      /\ (forall message,
             extractGeneralContent page = Throws message ->
             scrapeBody page competitor = Throws message)
      /\ (Page.containers page = Returns [] ->
          scrapeBody page competitor = Returns (successResult competitor []))).
Proof.
  intros Hua Hgoto Hwait.
  rewrite (scrapeBody_loaded page competitor Hua Hgoto Hwait).
  split.
  - intros record more ->. reflexivity.
  - intros Hnone.
    assert (E : match trySelectors page (selectorsOf competitor) with
                | Some (record :: more) =>
                    Returns (successResult competitor
                               (processContent (record :: more) (Target.name competitor)))
                | _ =>
                    match extractGeneralContent page with
                    | Returns content =>
                        Returns (successResult competitor
                                   (processContent content (Target.name competitor)))
                    | Throws message => Throws message
                    end
                end
                = match extractGeneralContent page with
                  | Returns content =>
                      Returns (successResult competitor
                                 (processContent content (Target.name competitor)))
                  | Throws message => Throws message
                  end).
    { destruct Hnone as [-> | ->]; reflexivity. }
    rewrite E. split; [|split].
    + intros content ->. reflexivity.
    + intros message ->. reflexivity.
    + intros Hc. unfold extractGeneralContent. rewrite Hc. reflexivity.
Qed.

Lemma scrapeBody_fallback_witness :
  scrapeBody (host := asciiHost) articlePage (competitors braze)
  = Returns (successResult (host := asciiHost) (competitors braze)
               (processContent (host := asciiHost)
                  (flat_map generalRecordsOf
                     [elementOf articleText; elementOf (js "Menu")])
                  (js "Braze"))).
Proof.
  destruct (@scrapeBody_fallback asciiHost articlePage (competitors braze)
              eq_refl eq_refl eq_refl) as [_ H].
  destruct H as (H & _ & _); [left; reflexivity|].
  apply H. reflexivity.
Defined.

(** ** The run over the competitors *)

Section RunLoop.

Context {host : Host}.

Lemma scrapeAll_spec (browser : Browser) (keys : list CompetitorKey) :
  forall opened results,
  exists new,
    fst (scrapeAll browser keys opened results) = results ++ new
    /\ length new <= length keys
    /\ (forall n r,
           nth_error new n = Some r ->
           exists key, nth_error keys n = Some key
                       /\ scrapeCompetitor browser (opened + n) key = Returns r)
    /\ (length new = length keys ->
        snd (scrapeAll browser keys opened results) = Returns tt)
    /\ (length new < length keys ->
        exists key message,
          nth_error keys (length new) = Some key
          /\ scrapeCompetitor browser (opened + length new) key = Throws message
          /\ snd (scrapeAll browser keys opened results) = Throws message).
Proof.
  induction keys as [|key keys IH]; intros opened results.
  - exists []. simpl. rewrite app_nil_r. repeat split; try lia.
    intros n r H. destruct n; discriminate.
  - cbn [scrapeAll].
    destruct (scrapeCompetitor browser opened key) as [r|message] eqn:S0.
    + destruct (IH (S opened) (results ++ [r]))
        as (new & Hfst & Hlen & Hnth & Hall & Hstop).
      exists (r :: new). rewrite Hfst, <- app_assoc. simpl.
      split; [reflexivity|]. split; [lia|]. split; [|split].
      * intros [|n] r' Hn.
        -- simpl in Hn. injection Hn as <-. exists key.
           rewrite Nat.add_0_r. auto.
        -- simpl in Hn. destruct (Hnth n r' Hn) as (key' & Hk & Hs).
           exists key'. split; [assumption|].
           replace (opened + S n) with (S opened + n) by lia. assumption.
      * intros H. apply Hall. lia.
      * intros H. destruct Hstop as (key' & m & Hk & Hs & He); [lia|].
        exists key', m. split; [assumption|]. split; [|assumption].
        replace (opened + S (length new)) with (S opened + length new) by lia.
        assumption.
    + exists []. simpl. rewrite app_nil_r.
      split; [reflexivity|]. split; [lia|]. split; [|split].
      * intros n r H. destruct n; discriminate.
      * intros H. lia.
      * intros _. exists key, message. rewrite Nat.add_0_r. auto.
Qed.

End RunLoop.

(** X18.  What [run] collects: the n-th result is what scraping the
    n-th competitor on the n-th page opened returned, so the results
    follow the order of the configuration and no competitor is passed
    over; there are at most three; and there are fewer than three
    exactly when scraping the next competitor threw, after which none
    is scraped. *)
Theorem run_results {host : Host} (browser : Browser) :
  length (run browser) <= 3
  /\ (forall n result,
         nth_error (run browser) n = Some result ->
         exists key,
           nth_error competitorKeys n = Some key
           /\ scrapeCompetitor browser n key = Returns result)
  /\ (length (run browser) < 3
      <-> exists key message,
            nth_error competitorKeys (length (run browser)) = Some key
            /\ scrapeCompetitor browser (length (run browser)) key
               = Throws message).
Proof.
  unfold run.
  destruct (scrapeAll_spec browser competitorKeys 0 [])
    as (new & Hfst & Hlen & Hnth & _ & Hstop).
  rewrite Hfst. simpl app. change (length competitorKeys) with 3 in *.
  split; [assumption|]. split; [exact Hnth|]. split.
  - intros H. destruct (Hstop H) as (key & m & Hk & Hs & _).
    exists key, m. auto.
  - intros (key & m & Hk & _).
    assert (length new < length competitorKeys)
      by (apply nth_error_Some; congruence).
    assumption.
Qed.

Lemma run_results_witness :
  length (run (host := asciiHost) flakyBrowser) < 3
  /\ exists key message,
       nth_error competitorKeys (length (run (host := asciiHost) flakyBrowser))
       = Some key
       /\ scrapeCompetitor (host := asciiHost) flakyBrowser
            (length (run (host := asciiHost) flakyBrowser)) key
          = Throws message.
Proof.
  destruct (run_results (host := asciiHost) flakyBrowser) as (_ & _ & H).
  assert (Hlt : length (run (host := asciiHost) flakyBrowser) < 3)
    by (vm_compute; lia).
  split; [exact Hlt|]. apply H. exact Hlt.
Defined.

(** ** The rows of the CSV file *)

Lemma fold_csvRow (result : Result.t) (items : list Item.t) (csv : list CsvRow.t) :
  fold_left (fun csv item => csv ++ [csvRow result item]) items csv
  = csv ++ map (csvRow result) items.
Proof.
  revert csv. induction items as [|item items IH]; intros csv; simpl.
  - rewrite app_nil_r. reflexivity.
  - rewrite IH, <- app_assoc. reflexivity.
Qed.

Lemma csvStep_rows (csv : list CsvRow.t) (result : Result.t) :
  csvStep csv result = csv ++ map (csvRow result) (Result.items result).
Proof.
  unfold csvStep. destruct (Result.items result) as [|item items] eqn:E.
  - simpl. rewrite app_nil_r. reflexivity.
  - change (0 <? length (item :: items)) with true. cbv iota.
    apply fold_csvRow.
Qed.

Lemma fold_csvStep (results : list Result.t) (csv : list CsvRow.t) :
  fold_left csvStep results csv
  = csv ++ flat_map (fun result => map (csvRow result) (Result.items result))
             results.
Proof.
  revert csv. induction results as [|result results IH]; intros csv; simpl.
  - rewrite app_nil_r. reflexivity.
  - rewrite IH, csvStep_rows, <- app_assoc. reflexivity.
Qed.

Lemma csvData_flat_map (results : list Result.t) :
  csvData results
  = flat_map (fun result => map (csvRow result) (Result.items result)) results.
Proof. unfold csvData. rewrite fold_csvStep. reflexivity. Qed.

Lemma length_flat_map_sum (A B : Type) (f : A -> list B) (l : list A) :
  length (flat_map f l) = list_sum (map (fun x => length (f x)) l).
Proof.
  induction l as [|x l IH]; simpl; [reflexivity|].
  rewrite length_app, IH. reflexivity.
Qed.

(** X19.  The CSV data holds one row for each item of each result, the
    results in their order and the items of a result in theirs, so it
    has as many rows as the results hold items, and none when no
    result holds an item.  A row shows the item's competitor, title,
    preview and length and the time stamp of its result; its
    likely-update column reads Yes for a flagged item and No
    otherwise. *)
Theorem csvData_rows (results : list Result.t) :
  csvData results
  = flat_map (fun result => map (csvRow result) (Result.items result)) results
  /\ length (csvData results)
     = list_sum (map (fun result => length (Result.items result)) results)
  /\ (csvData results = []
      <-> forall result, In result results -> Result.items result = [])
  /\ (forall row,
         In row (csvData results) ->
         exists result item,
           In result results /\ In item (Result.items result)
           /\ CsvRow.competitor row = Item.competitor item
           /\ CsvRow.title row = Item.title item
           /\ CsvRow.contentPreview row = Item.content item
           /\ CsvRow.contentLength row = Item.contentLength item
           /\ CsvRow.scrapedAt row = Result.scrapedAt result
           /\ (CsvRow.isLikelyUpdate row = js "Yes"
               <-> Item.isLikelyUpdate item = true)
           /\ (CsvRow.isLikelyUpdate row = js "No"
               <-> Item.isLikelyUpdate item = false)).
Proof.
  rewrite csvData_flat_map. split; [reflexivity|]. split; [|split].
  - rewrite length_flat_map_sum. f_equal. apply map_ext.
    intros result. apply length_map.
  - split.
    + intros H result Hin.
      destruct (Result.items result) as [|item items] eqn:E; [reflexivity|exfalso].
      assert (Hrow : In (csvRow result item)
                       (flat_map (fun result => map (csvRow result) (Result.items result))
                          results)).
      { apply in_flat_map. exists result. split; [assumption|].
        rewrite E. left. reflexivity. }
      rewrite H in Hrow. exact Hrow.
    + intros H. induction results as [|result results IH]; [reflexivity|].
      simpl. rewrite (H result (or_introl eq_refl)). simpl.
      apply IH. intros r Hr. apply H. right. assumption.
  - intros row Hin. apply in_flat_map in Hin. destruct Hin as (result & Hres & Hin).
    apply in_map_iff in Hin. destruct Hin as (item & <- & Hitem).
    exists result, item. cbn [csvRow CsvRow.competitor CsvRow.title
                                CsvRow.contentPreview CsvRow.contentLength
                                CsvRow.scrapedAt CsvRow.isLikelyUpdate].
    repeat (split; [first [assumption | reflexivity]|]).
    destruct (Item.isLikelyUpdate item); split; split;
      first [reflexivity | discriminate].
Qed.

Lemma csvData_rows_witness :
  csvData [errorResult (host := asciiHost) (competitors braze) timeoutMessage] = [].
Proof.
  destruct (csvData_rows
              [errorResult (host := asciiHost) (competitors braze) timeoutMessage])
    as (_ & _ & H & _).
  apply H. intros result [<-|[]]. reflexivity.
Defined.

Lemma orElse_date (text : jsstring) :
  (forall d, dateMatch text = Some d -> orElse (dateMatch text) noDateFound = d)
  /\ (orElse (dateMatch text) noDateFound = noDateFound
      <-> dateMatch text = None).
Proof.
  destruct (dateMatch text) as [d|] eqn:E.
  - destruct (dateMatch_Some_shape text E) as (Hlen & front & c & Hd & Hdigit).
    assert (Ht : truthy d = true).
    { apply truthy_true. intros C. rewrite C in Hlen. simpl in Hlen. lia. }
    simpl. rewrite Ht. split.
    + intros d' H. injection H as <-. reflexivity.
    + split; [|discriminate]. intros C. exfalso.
      rewrite Hd in C.
      change noDateFound with (js "No date foun" ++ [100%N]) in C.
      apply app_inj_tail in C. destruct C as [_ ->]. discriminate.
  - simpl. split; [discriminate|]. split; reflexivity.
Qed.

Section RunRows.

Context {host : Host}.

(** The items of a result of [scrapeCompetitor] are items of a batch. *)
Lemma scrapeCompetitor_items (browser : Browser) (opened : nat)
  (key : CompetitorKey) (result : Result.t) :
  scrapeCompetitor browser opened key = Returns result ->
  Result.itemCount result = length (Result.items result)
  /\ exists content,
       incl (Result.items result)
         (processContent content (Target.name (competitors key))).
Proof.
  intros H. pose proof (scrapeCompetitor_cases browser opened key) as C.
  destruct (newPage browser opened) as [page|m]; [|congruence].
  destruct (Page.close page) as [[]|m]; [|congruence].
  rewrite C in H. injection H as <-.
  destruct (scrapeBody page (competitors key)) as [result|message] eqn:B.
  - apply scrapeBody_returns in B. destruct B as (content & ->).
    split; [reflexivity|]. exists content. apply incl_refl.
  - split; [reflexivity|]. exists []. intros item [].
Qed.

End RunRows.

(** X20.  The CSV data of a run: it has as many rows as the item
    counts of the results add up to, and the date column of a row
    shows the item's date token when the item has one and reads
    [No date found] exactly when it has none. *)
Theorem csvData_of_run {host : Host} (browser : Browser) :
  length (csvData (run browser))
  = list_sum (map Result.itemCount (run browser))
  /\ (forall result item,
         In result (run browser) -> In item (Result.items result) ->
         (forall d, Item.extractedDate item = Some d ->
                    CsvRow.extractedDate (csvRow result item) = d)
         /\ (CsvRow.extractedDate (csvRow result item) = noDateFound
             <-> Item.extractedDate item = None)).
Proof.
  assert (Hres : forall result,
             In result (run browser) ->
             exists opened key,
               scrapeCompetitor browser opened key = Returns result).
  { intros result Hin. unfold run in Hin.
    destruct (scrapeAll_spec browser competitorKeys 0 [])
      as (new & Hfst & _ & Hnth & _).
    rewrite Hfst in Hin. simpl in Hin.
    apply In_nth_error in Hin. destruct Hin as (n & Hn).
    destruct (Hnth n result Hn) as (key & _ & Hs). exists n, key. exact Hs. }
  split.
  - rewrite csvData_flat_map, length_flat_map_sum. f_equal.
    apply map_ext_in. intros result Hin. rewrite length_map.
    destruct (Hres result Hin) as (opened & key & Hs).
    apply scrapeCompetitor_items in Hs. destruct Hs as [-> _]. reflexivity.
  - intros result item Hin Hitem.
    destruct (Hres result Hin) as (opened & key & Hs).
    apply scrapeCompetitor_items in Hs. destruct Hs as (_ & content & Hincl).
    apply Hincl in Hitem. apply processContent_spec in Hitem.
    destruct Hitem as (i & r & _ & ->).
    cbn [csvRow CsvRow.extractedDate makeItem Item.extractedDate].
    apply orElse_date.
Qed.

Lemma csvData_of_run_witness :
  length (csvData (run (host := asciiHost) timeoutBrowser)) = 2.
Proof.
  destruct (csvData_of_run (host := asciiHost) timeoutBrowser) as [H _].
  rewrite H. vm_compute. reflexivity.
Defined.

(** ** The time stamp of the file names *)

(** X21.  The token put in the names of the report files has the
    length of the time stamp it is made from and holds neither a colon
    nor a full stop; every other code unit of the time stamp stays
    where it is, and making the token of a token changes nothing. *)
Theorem timestampToken_safe {host : Host} :
  length timestampToken = length nowISO
  /\ ~ In 58%N timestampToken
  /\ ~ In 46%N timestampToken
  /\ (forall i c, nth_error nowISO i = Some c -> c <> 58%N -> c <> 46%N ->
                  nth_error timestampToken i = Some c)
  /\ (forall i c, nth_error nowISO i = Some c -> c = 58%N \/ c = 46%N ->
                  nth_error timestampToken i = Some 45%N)
  /\ replaceColonsAndDots timestampToken = timestampToken.
Proof.
  unfold timestampToken, replaceColonsAndDots.
  split; [apply length_map|]. split; [|split; [|split; [|split]]].
  - intros H. apply in_map_iff in H. destruct H as (c & Hc & _).
    destruct (N.eqb_spec c 58), (N.eqb_spec c 46); simpl in Hc;
      try discriminate; congruence.
  - intros H. apply in_map_iff in H. destruct H as (c & Hc & _).
    destruct (N.eqb_spec c 58), (N.eqb_spec c 46); simpl in Hc;
      try discriminate; congruence.
  - intros i c Hc H1 H2. rewrite nth_error_map.
    rewrite (Hc : @nth_error N nowISO i = Some c). simpl.
    destruct (N.eqb_spec c 58), (N.eqb_spec c 46); simpl;
      try reflexivity; contradiction.
  - intros i c Hc H. rewrite nth_error_map.
    rewrite (Hc : @nth_error N nowISO i = Some c). simpl.
    destruct H as [-> | ->]; reflexivity.
  - rewrite map_map. apply map_ext. intros c.
    destruct (N.eqb_spec c 58), (N.eqb_spec c 46); simpl; try reflexivity.
    destruct (N.eqb_spec c 58), (N.eqb_spec c 46); simpl;
      try reflexivity; contradiction.
Qed.

Lemma timestampToken_safe_witness :
  timestampToken (host := asciiHost) = js "2025-01-15T10-30-00-000Z".
Proof.
  destruct (timestampToken_safe (host := asciiHost)) as (_ & _ & _ & _ & _ & H).
  rewrite <- H. vm_compute. reflexivity.
Defined.

(** ** Writing the reports *)

(** X22.  [saveResults] writes the JSON file first, then the CSV file
    when and only when there is a row to write, then the HTML report;
    a write that fails ends it, so nothing is written behind a
    failure: what has been written is a beginning of what a call
    without failure writes, the CSV file holds the rows of the results
    and is never empty, and the HTML report is there only when the
    call ended well. *)
Theorem saveResults_artifacts (write : Artifact -> outcome unit)
  (results : list Result.t) :
  let written := fst (saveResults write results) in
  let complete :=
    [JsonFile results]
    ++ (if 0 <? length (csvData results) then [CsvFile (csvData results)] else [])
    ++ [HtmlFile results] in
  (exists rest, complete = written ++ rest)
  /\ (snd (saveResults write results) = Returns tt <-> written = complete)
  /\ (forall rows, In (CsvFile rows) written ->
                   rows = csvData results /\ rows <> [])
  /\ (forall message,
         write (JsonFile results) = Throws message ->
         saveResults write results = ([], Throws message))
  /\ (csvData results = [] ->
      forall rows, ~ In (CsvFile rows) written).
Proof.
  cbv zeta. unfold saveResults.
  destruct (write (JsonFile results)) as [[]|m0] eqn:Wj.
  2:{ simpl. split; [eexists; reflexivity|]. split; [split; discriminate|].
      split; [intros rows []|]. split; [intros m H; injection H as ->; reflexivity|].
      intros _ rows []. }
  cbv zeta.
  destruct (csvData results) as [|row rows0] eqn:Ecsv.
  - change (0 <? length (@nil CsvRow.t)) with false. cbv iota.
    destruct (write (HtmlFile results)) as [[]|m2]; simpl.
    + split; [exists []; reflexivity|]. split; [split; reflexivity|].
      split; [intros rows [H|[H|[]]]; discriminate|].
      split; [discriminate|]. intros _ rows [H|[H|[]]]; discriminate.
    + split; [eexists; reflexivity|]. split; [split; discriminate|].
      split; [intros rows [H|[]]; discriminate|].
      split; [discriminate|]. intros _ rows [H|[]]; discriminate.
  - change (0 <? length (row :: rows0)) with true. cbv iota.
    destruct (write (CsvFile (row :: rows0))) as [[]|m1]; simpl.
    + destruct (write (HtmlFile results)) as [[]|m2]; simpl.
      * split; [exists []; reflexivity|]. split; [split; reflexivity|].
        split; [|split; discriminate].
        intros rows [H|[H|[H|[]]]]; try discriminate.
        injection H as <-. split; [reflexivity | discriminate].
      * split; [eexists; reflexivity|]. split; [split; discriminate|].
        split; [|split; discriminate].
        intros rows [H|[H|[]]]; try discriminate.
        injection H as <-. split; [reflexivity | discriminate].
    + split; [eexists; reflexivity|]. split; [split; discriminate|].
      split; [|split; discriminate].
      intros rows [H|[]]; discriminate.
Qed.

Lemma saveResults_artifacts_witness :
  saveResults (fun _ => Throws closedMessage) [] = ([], Throws closedMessage)
  /\ exists rest,
       [JsonFile []; HtmlFile []] = fst (saveResults noHtmlWrite []) ++ rest.
Proof.
  split.
  - destruct (saveResults_artifacts (fun _ => Throws closedMessage) [])
      as (_ & _ & _ & H & _).
    apply H. reflexivity.
  - destruct (saveResults_artifacts noHtmlWrite []) as (H & _).
    exact H.
Defined.

Lemma saveResults_written (write : Artifact -> outcome unit)
  (results : list Result.t) (artifact : Artifact) :
  In artifact (fst (saveResults write results)) ->
  artifact = JsonFile results
  \/ artifact = CsvFile (csvData results)
  \/ artifact = HtmlFile results.
Proof.
  unfold saveResults.
  destruct (write (JsonFile results)) as [[]|m0]; [|intros []].
  cbv zeta. destruct (0 <? length (csvData results)).
  - destruct (write (CsvFile (csvData results))) as [[]|m1].
    + destruct (write (HtmlFile results)) as [[]|m2]; simpl; intuition.
    + simpl. intuition.
  - destruct (write (HtmlFile results)) as [[]|m2]; simpl; intuition.
Qed.

(** ** The whole run *)

(** X23.  A run that cannot launch the browser is rejected with
    nothing scraped and nothing written.  Otherwise the run ends as
    the closing of the browser ends, whatever failed before: a
    failure of the scraping loop or of the writing is caught.  The
    reports are written only when all three competitors gave a
    result, from exactly those results; when scraping a competitor
    throws, the results so far are kept but no report is written. *)
Theorem runProgram_spec {host : Host} (rt : Runtime) :
  (forall message,
      launch rt = Throws message ->
      finalResults (runProgram rt) = []
      /\ artifacts (runProgram rt) = []
      /\ completion (runProgram rt) = Throws message)
  /\ (forall browser,
         launch rt = Returns browser ->
         finalResults (runProgram rt) = run browser
         /\ completion (runProgram rt) = closeBrowser rt
         /\ (length (run browser) < 3 -> artifacts (runProgram rt) = [])
         /\ (length (run browser) = 3 ->
             artifacts (runProgram rt)
             = fst (saveResults (write rt) (run browser)))
         /\ (forall artifact,
                In artifact (artifacts (runProgram rt)) ->
                length (run browser) = 3
                /\ (artifact = JsonFile (run browser)
                    \/ artifact = CsvFile (csvData (run browser))
                    \/ artifact = HtmlFile (run browser)))).
Proof.
  unfold runProgram. split.
  - intros message ->. simpl. auto.
  - intros browser ->. unfold run.
    destruct (scrapeAll_spec browser competitorKeys 0 [])
      as (new & Hfst & Hlen & _ & Hall & Hstop).
    destruct (scrapeAll browser competitorKeys 0 []) as [results loopEnd].
    cbn [fst snd] in *. simpl app in Hfst. subst new.
    change (length competitorKeys) with 3 in *.
    cbn [finalResults artifacts completion].
    split; [reflexivity|]. split; [reflexivity|].
    destruct (Nat.eq_dec (length results) 3) as [E|N].
    + rewrite (Hall E). split; [lia|]. split; [reflexivity|].
      intros artifact Hin. split; [assumption|].
      apply saveResults_written with (write := write rt). assumption.
    + destruct Hstop as (key & m & _ & _ & ->); [lia|].
      split; [reflexivity|]. split; [lia|]. intros artifact [].
Qed.

Lemma runProgram_spec_witness :
  finalResults (runProgram (host := asciiHost) flakyRuntime)
  = run (host := asciiHost) flakyBrowser
  /\ artifacts (runProgram (host := asciiHost) flakyRuntime) = []
  /\ length (run (host := asciiHost) flakyBrowser) = 1
  /\ artifacts (runProgram (host := asciiHost) healthyRuntime)
     = fst (saveResults (write healthyRuntime) (run (host := asciiHost) timeoutBrowser)).
Proof.
  destruct (runProgram_spec (host := asciiHost) flakyRuntime) as [_ H].
  destruct (H flakyBrowser eq_refl) as (Hres & _ & Hnone & _).
  destruct (runProgram_spec (host := asciiHost) healthyRuntime) as [_ H'].
  destruct (H' timeoutBrowser eq_refl) as (_ & _ & _ & Hall & _).
  split; [exact Hres|]. split; [apply Hnone; vm_compute; lia|].
  split; [vm_compute; reflexivity|]. apply Hall. vm_compute. reflexivity.
Defined.

(** ** Longer batches *)

Lemma forEachFrom_appends {host : Host} (competitorName : jsstring)
  (l : list Raw.t) :
  forall index st,
  exists extra,
    processed (forEachFrom (processRecord competitorName) l index st)
    = processed st ++ extra.
Proof.
  induction l as [|r l IH]; intros index st; simpl.
  - exists []. rewrite app_nil_r. reflexivity.
  - destruct (IH (S index) (processRecord competitorName st r index)) as (extra & E).
    rewrite E. unfold processRecord. cbv zeta.
    destruct ((length (trim (Raw.text r)) <? 30)
              || setHas (seenTexts st) (substring 0 100 (trim (Raw.text r)))).
    + exists extra. reflexivity.
    + cbn [processed]. rewrite <- app_assoc. eexists. reflexivity.
Qed.

(** X24.  Records put behind a batch take nothing away: the items of
    the batch come back from the longer batch too, each with the same
    identifier and fields, next to whatever the new records add. *)
Theorem processContent_extends {host : Host}
  (rawContent more : list Raw.t) (competitorName : jsstring) :
  (exists extra,
      Permutation (processContent (rawContent ++ more) competitorName)
        (processContent rawContent competitorName ++ extra))
  /\ (forall item,
         In item (processContent rawContent competitorName) ->
         In item (processContent (rawContent ++ more) competitorName))
  /\ length (processContent rawContent competitorName)
     <= length (processContent (rawContent ++ more) competitorName).
Proof.
  assert (H : exists extra,
             Permutation (processContent (rawContent ++ more) competitorName)
               (processContent rawContent competitorName ++ extra)).
  { unfold processContent, processedItems, forEach.
    rewrite forEachFrom_app.
    destruct (forEachFrom_appends competitorName more (0 + length rawContent)
                (forEachFrom (processRecord competitorName) rawContent 0
                   {| processed := []; seenTexts := [] |})) as (extra & ->).
    exists extra.
    eapply perm_trans; [apply Permutation_sym, sort_perm|].
    apply Permutation_app_tail. apply sort_perm. }
  destruct H as (extra & HP). split; [exists extra; exact HP|]. split.
  - intros item Hin. eapply Permutation_in; [apply Permutation_sym, HP|].
    apply in_or_app. left. assumption.
  - apply Permutation_length in HP. rewrite HP, length_app. lia.
Qed.

Lemma processContent_extends_witness :
  In releaseItem
    (processContent (host := asciiHost) (exampleBatch ++ boundaryBatch) (js "Braze")).
Proof.
  destruct (processContent_extends (host := asciiHost) exampleBatch boundaryBatch
              (js "Braze")) as (_ & H & _).
  apply H. vm_compute. left. reflexivity.
Defined.

(** ** The title and the content *)

Lemma trimStart_suffix (s : jsstring) : exists blanks, s = blanks ++ trimStart s.
Proof.
  induction s as [|c s (blanks & IH)]; [exists []; reflexivity|].
  simpl. destruct (isWhiteSpace c).
  - exists (c :: blanks). simpl. f_equal. exact IH.
  - exists []. reflexivity.
Qed.

Lemma trimEnd_prefix (s : jsstring) : exists blanks, s = trimEnd s ++ blanks.
Proof.
  unfold trimEnd. destruct (trimStart_suffix (rev s)) as (blanks & E).
  exists (rev blanks). rewrite <- rev_app_distr, <- E, rev_involutive. reflexivity.
Qed.

Lemma first_line_prefix (sep : codeUnit) (s line : jsstring)
  (more : list jsstring) :
  split sep s = line :: more -> exists rest, s = line ++ rest.
Proof.
  intros E. pose proof (join_split sep s) as J. rewrite E in J.
  destruct more as [|l more]; simpl in J.
  - exists []. rewrite app_nil_r. congruence.
  - eexists. symmetry. exact J.
Qed.

(** The title of a text that starts with something else than white
    space starts as the text does. *)
Lemma title_prefix (c : codeUnit) (u : jsstring) :
  isWhiteSpace c = false ->
  exists rest, c :: u = firstn 100 (extractTitle (c :: u)) ++ rest.
Proof.
  intros Hc.
  assert (Hnl : (c =? newline)%N = false).
  { apply N.eqb_neq. intros ->. discriminate. }
  pose proof (split_not_nil newline u) as Hn.
  assert (Hsplit : exists l more, split newline (c :: u) = (c :: l) :: more).
  { simpl. rewrite Hnl. destruct (split newline u) as [|l more]; [congruence|].
    exists l, more. reflexivity. }
  destruct Hsplit as (l & more & Hsplit).
  assert (Htrim : trim (c :: l) = c :: trimEnd l).
  { unfold trim. simpl. rewrite Hc. apply trimEnd_cons. assumption. }
  assert (Htitle : extractTitle (c :: u)
                   = if 100 <? length (c :: trimEnd l)
                     then firstn 100 (c :: trimEnd l) ++ ellipsis
                     else c :: trimEnd l).
  { unfold extractTitle. rewrite Hsplit. simpl filter.
    rewrite Htrim. simpl truthy. cbv iota zeta.
    rewrite substring_prefix, ?Htrim. reflexivity. }
  (* the trimmed line starts the line, and the line starts the text *)
  destruct (first_line_prefix _ _ Hsplit) as (rest1 & E1).
  destruct (trimEnd_prefix l) as (blanks & E2).
  assert (Hpre : c :: u = (c :: trimEnd l) ++ blanks ++ rest1).
  { rewrite E1. simpl. f_equal. rewrite E2 at 1.
    rewrite <- app_assoc. reflexivity. }
  rewrite Htitle. clear Htitle Htrim.
  set (line := c :: trimEnd l) in *.
  destruct (Nat.ltb_spec 100 (length line)) as [Hlong|Hshort].
  - rewrite firstn_app, firstn_firstn, length_firstn, Nat.min_id.
    replace (100 - Nat.min 100 (length line)) with 0 by lia.
    rewrite firstn_0, app_nil_r.
    exists (skipn 100 line ++ blanks ++ rest1).
    rewrite app_assoc, firstn_skipn. exact Hpre.
  - rewrite firstn_all2 by lia. eexists. exact Hpre.
Qed.

(** X25.  The title of an emitted item is the beginning of its
    content: its first 100 code units (all of it, unless it was cut
    and got the ellipsis) are the first code units of the full
    content. *)
Theorem item_title_starts_content {host : Host}
  (rawContent : list Raw.t) (competitorName : jsstring) (item : Item.t) :
  In item (processContent rawContent competitorName) ->
  exists rest,
    Item.fullContent item = firstn 100 (Item.title item) ++ rest.
Proof.
  intros Hin. apply processContent_spec in Hin.
  destruct Hin as (i & r & (_ & Hlong & _) & ->).
  cbn [makeItem Item.fullContent Item.title]. unfold recordText in *.
  pose proof (trim_trimmedStart (Raw.text r)) as Hhead.
  destruct (trim (Raw.text r)) as [|c u]; [simpl in Hlong; lia|].
  apply title_prefix. exact Hhead.
Qed.

Lemma item_title_starts_content_witness :
  exists rest,
    Item.fullContent releaseItem = firstn 100 (Item.title releaseItem) ++ rest.
Proof.
  exact (item_title_starts_content (host := asciiHost) exampleBatch (js "Braze")
           releaseItem releaseItem_emitted).
Defined.
